(** * A red-black tree with parent pointers and its range query (src/main.go)

    The Go program keeps its nodes on the heap and links them with
    [Left], [Right] and [parent] pointers that are mutated in place.  The
    embedding below keeps that shape: a tree is a root pointer, a
    comparator and an arena of nodes addressed by locations; every Go
    function becomes a function over that arena.  A nil dereference or a
    failed type assertion is the result [Panic]; loops and recursion take
    a fuel argument and end in [OutOfFuel] when it is used up. *)

From Stdlib Require Import ZArith Lia List Sorted.
From stdpp Require Import gmap strings list.

Local Open Scope Z_scope.
#[local] Set Warnings "-clear-no-such-hyp".

(** ** Values, kinds and errors *)

(** [reflect.Kind], in the order of the Go declaration. *)
Inductive Kind : Type :=
| Invalid | Bool | Int | Int8 | Int16 | Int32 | Int64
| Uint | Uint8 | Uint16 | Uint32 | Uint64 | Uintptr
| Float32 | Float64 | Complex64 | Complex128
| Array | Chan | Func | Interface | Map | Ptr | Slice
| String | Struct | UnsafePointer.

(** A value of type [interface{}]: the nil interface, an [int], a
    [string], or a value of some other type of which only the kind (and an
    identity) is kept. *)
Inductive iface : Type :=
| Nil
| VInt (i : Z)
| VString (s : string)
| VOther (k : Kind) (id : positive).

(** [reflect.ValueOf(key).Kind()] *)
Definition kindOf (v : iface) : Kind :=
  match v with
  | Nil => Invalid
  | VInt _ => Int
  | VString _ => String
  | VOther k _ => k
  end.

Inductive error : Type := ErrorKeyIsNil | ErrorKeyDisallowed.

(** The kinds listed in the [switch] of [mustBeValidKey]. *)
Definition disallowedKind (k : Kind) : bool :=
  match k with
  | Chan | Func | Interface | Map | Ptr | Slice => true
  | _ => false
  end.

(** [mustBeValidKey]; [None] is Go's nil error. *)
Definition mustBeValidKey (key : iface) : option error :=
  match key with
  | Nil => Some ErrorKeyIsNil
  | _ =>
    match kindOf key with
    | Chan | Func | Interface | Map | Ptr | Slice => Some ErrorKeyDisallowed
    | _ => None
    end
  end.

(** ** Nodes, trees and the arena *)

Inductive Color : Type := BLACK | RED.
Inductive Direction : Type := LEFT | RIGHT | NODIR.

Definition loc := positive.
(** A [*Node]: [None] is the nil pointer. *)
Definition ptr := option loc.

Record Node : Type := mkNode {
  Key : iface;
  payload : iface;
  color : Color;
  Left : ptr;
  Right : ptr;
  Leaf : bool;
  parent : ptr
}.

(** Results of running Go code. *)
Inductive res (A : Type) : Type :=
| Ok (a : A)
| Panic
| OutOfFuel.
Arguments Ok {A} a.
Arguments Panic {A}.
Arguments OutOfFuel {A}.

(** A comparator panics when a type assertion on one of its arguments
    fails. *)
Definition Comparator := iface -> iface -> res Z.

Definition IntComparator : Comparator := fun o1 o2 =>
  match o1, o2 with
  | VInt i1, VInt i2 =>
    if i1 >? i2 then Ok 1 else if i1 <? i2 then Ok (-1) else Ok 0
  | _, _ => Panic
  end.

(** The tree together with the nodes its pointers refer to. *)
Record Tree : Type := mkTree {
  Root : ptr;
  cmp : Comparator;
  nodes : gmap loc Node
}.

Definition NewTreeWith (c : Comparator) : Tree :=
  {| Root := None; cmp := c; nodes := ∅ |}.
Definition NewTree : Tree := NewTreeWith IntComparator.

(** ** Two small monads: reading code and mutating code *)

Definition rbind {A B} (m : res A) (k : A -> res B) : res B :=
  match m with
  | Ok a => k a
  | Panic => Panic
  | OutOfFuel => OutOfFuel
  end.

Definition M (A : Type) : Type := Tree -> res (A * Tree).

Definition ret {A} (a : A) : M A := fun t => Ok (a, t).
Definition bind {A B} (m : M A) (k : A -> M B) : M B :=
  fun t => match m t with
           | Ok (a, t') => k a t'
           | Panic => Panic
           | OutOfFuel => OutOfFuel
           end.
Definition outOfFuel {A} : M A := fun _ => OutOfFuel.
(** Run reading code inside mutating code. *)
Definition read {A} (f : Tree -> res A) : M A :=
  fun t => rbind (f t) (fun a => Ok (a, t)).

Declare Scope go_scope.
Delimit Scope go_scope with go.
Notation "'let!' x ':=' m 'in' k" := (rbind m (fun x => k))
  (at level 10, x name, m at level 100, k at level 200, only parsing)
  : go_scope.
Notation "'let*' x ':=' m 'in' k" := (bind m (fun x => k))
  (at level 10, x name, m at level 100, k at level 200, only parsing)
  : go_scope.
Notation "'let*' ' p ':=' m 'in' k" :=
  (bind m (fun x => match x with p => k end))
  (at level 10, p pattern, m at level 100, k at level 200, only parsing)
  : go_scope.
Notation "m >>> k" := (bind m (fun _ => k))
  (at level 100, k at level 200, right associativity, only parsing)
  : go_scope.
Local Open Scope go_scope.

(** *** Dereferencing and field updates *)

Definition deref (t : Tree) (p : ptr) : res Node :=
  match p with
  | None => Panic
  | Some l => match nodes t !! l with Some n => Ok n | None => Panic end
  end.

Definition withKeyPayload (d : iface) (n : Node) : Node :=
  mkNode (Key n) d (color n) (Left n) (Right n) (Leaf n) (parent n).
Definition withColor (c : Color) (n : Node) : Node :=
  mkNode (Key n) (payload n) c (Left n) (Right n) (Leaf n) (parent n).
Definition withLeft (p : ptr) (n : Node) : Node :=
  mkNode (Key n) (payload n) (color n) p (Right n) (Leaf n) (parent n).
Definition withRight (p : ptr) (n : Node) : Node :=
  mkNode (Key n) (payload n) (color n) (Left n) p (Leaf n) (parent n).
Definition withParent (p : ptr) (n : Node) : Node :=
  mkNode (Key n) (payload n) (color n) (Left n) (Right n) (Leaf n) p.

(** [p.f = ...]: panics on a nil [p]. *)
Definition modify (f : Node -> Node) (p : ptr) : M unit := fun t =>
  match p with
  | None => Panic
  | Some l =>
    match nodes t !! l with
    | Some n => Ok (tt, mkTree (Root t) (cmp t) (<[l := f n]> (nodes t)))
    | None => Panic
    end
  end.

Definition getf {A} (f : Node -> A) (p : ptr) : M A :=
  read (fun t => let! n := deref t p in Ok (f n)).

Definition getRoot : M ptr := fun t => Ok (Root t, t).
Definition setRoot (p : ptr) : M unit := fun t =>
  Ok (tt, mkTree p (cmp t) (nodes t)).

(** [&Node{...}]: a node at a location that is not in use. *)
Definition alloc (n : Node) : M ptr := fun t =>
  let l := fresh (dom (nodes t)) in
  Ok (Some l, mkTree (Root t) (cmp t) (<[l := n]> (nodes t))).

Definition ptr_eqb (p q : ptr) : bool := bool_decide (p = q).

(** [t.cmp(a, b)] *)
Definition compareKeys (a b : iface) : M Z := fun t =>
  rbind (cmp t a b) (fun c => Ok (c, t)).

Definition getLeft : ptr -> M ptr := getf Left.
Definition getRight : ptr -> M ptr := getf Right.
Definition getParent : ptr -> M ptr := getf parent.
Definition getColor : ptr -> M Color := getf color.
Definition setLeft (p v : ptr) : M unit := modify (withLeft v) p.
Definition setRight (p v : ptr) : M unit := modify (withRight v) p.
Definition setParent (p v : ptr) : M unit := modify (withParent v) p.
Definition setColor (p : ptr) (c : Color) : M unit := modify (withColor c) p.
Definition setPayload (p : ptr) (d : iface) : M unit :=
  modify (withKeyPayload d) p.

(** ** Lookup (logging calls are left out throughout) *)

Fixpoint internalLookup (fuel : nat) (t : Tree) (parent this : ptr)
    (key : iface) (dir : Direction) : res (bool * ptr * Direction) :=
  match fuel with
  | O => OutOfFuel
  | S fuel =>
    match this with
    | None => Ok (false, parent, dir)
    | Some _ =>
      let! n := deref t this in
      let! c := cmp t key (Key n) in
      if c =? 0 then Ok (true, parent, dir)
      else if c <? 0 then internalLookup fuel t this (Left n) key LEFT
      else if c >? 0 then internalLookup fuel t this (Right n) key RIGHT
      else Ok (false, parent, NODIR)
    end
  end.

Definition GetParent (fuel : nat) (t : Tree) (key : iface)
    : res (bool * ptr * Direction) :=
  match mustBeValidKey key with
  | Some _ => Ok (false, None, NODIR)
  | None =>
    match Root t with
    | None => Ok (false, None, NODIR)
    | Some _ => internalLookup fuel t None (Root t) key NODIR
    end
  end.

Definition getNode (fuel : nat) (t : Tree) (key : iface) : res (bool * ptr) :=
  let! r := GetParent fuel t key in
  match r with
  | (true, None, _) => Ok (true, Root t)
  | (true, Some p, dir) =>
    let! node :=
      match dir with
      | LEFT => let! n := deref t (Some p) in Ok (Left n)
      | RIGHT => let! n := deref t (Some p) in Ok (Right n)
      | NODIR => Ok None
      end in
    match node with
    | Some _ => Ok (true, node)
    | None => Ok (false, None)
    end
  | (false, _, _) => Ok (false, None)
  end.

Definition Get (fuel : nat) (t : Tree) (key : iface) : res (bool * iface) :=
  match mustBeValidKey key with
  | Some _ => Ok (false, Nil)
  | None =>
    let! r := getNode fuel t key in
    match r with
    | (true, node) => let! n := deref t node in Ok (true, payload n)
    | (false, _) => Ok (false, Nil)
    end
  end.

Definition Has (fuel : nat) (t : Tree) (key : iface) : res bool :=
  match mustBeValidKey key with
  | Some _ => Ok false
  | None =>
    let! r := internalLookup fuel t None (Root t) key NODIR in
    Ok (fst (fst r))
  end.

Fixpoint getMinimum (fuel : nat) (t : Tree) (x : ptr) : res ptr :=
  match fuel with
  | O => OutOfFuel
  | S fuel =>
    let! n := deref t x in
    match Left n with
    | Some _ => getMinimum fuel t (Left n)
    | None => Ok x
    end
  end.

Definition isRed (t : Tree) (n : ptr) : res bool :=
  match n with
  | None => Ok false
  | Some _ =>
    let! nd := deref t n in
    Ok (match color nd with RED => true | BLACK => false end)
  end.

(** ** Rotations *)

Definition RotateRight (y : ptr) : M unit :=
  match y with
  | None => ret tt
  | Some _ =>
    let* yl := getLeft y in
    match yl with
    | None => ret tt
    | Some _ =>
      let x := yl in
      let* xr := getRight x in
      setLeft y xr >>>
      let* xr := getRight x in
      match xr with
      | Some _ => setParent xr y
      | None => ret tt
      end >>>
      let* yp := getParent y in
      setParent x yp >>>
      let* yp := getParent y in
      match yp with
      | None => setRoot x
      | Some _ =>
        let* ypl := getLeft yp in
        if ptr_eqb y ypl then setLeft yp x else setRight yp x
      end >>>
      setRight x y >>>
      setParent y x
    end
  end.

Definition RotateLeft (x : ptr) : M unit :=
  match x with
  | None => ret tt
  | Some _ =>
    let* xr := getRight x in
    match xr with
    | None => ret tt
    | Some _ =>
      let y := xr in
      let* yl := getLeft y in
      setRight x yl >>>
      let* yl := getLeft y in
      match yl with
      | Some _ => setParent yl x
      | None => ret tt
      end >>>
      let* xp := getParent x in
      setParent y xp >>>
      let* xp := getParent x in
      match xp with
      | None => setRoot y
      | Some _ =>
        let* xpl := getLeft xp in
        if ptr_eqb x xpl then setLeft xp y else setRight xp y
      end >>>
      setLeft y x >>>
      setParent x y
    end
  end.

(** ** Insertion *)

(** The [for] loop of [fixupPut]; it returns when the Go loop breaks. *)
Fixpoint fixupPut_loop (fuel : nat) (z : ptr) : M unit :=
  match fuel with
  | O => outOfFuel
  | S fuel =>
    let* zp := getParent z in
    match zp with
    | None => ret tt
    | Some _ =>
      let* c := getColor zp in
      match c with
      | BLACK => ret tt
      | RED =>
        let* grandparent := getParent zp in
        let* gl := getLeft grandparent in
        if ptr_eqb zp gl then
          let* y := getRight grandparent in
          let* ry := read (fun t => isRed t y) in
          if ry then
            (* case 1 *)
            setColor zp BLACK >>>
            setColor y BLACK >>>
            setColor grandparent RED >>>
            fixupPut_loop fuel grandparent
          else
            let* zpr := getRight zp in
            let* z :=
              (if ptr_eqb z zpr then
                 (* case 2 *)
                 RotateLeft zp >>> ret zp
               else ret z) in
            (* case 3 *)
            let* zp := getParent z in
            setColor zp BLACK >>>
            setColor grandparent RED >>>
            RotateRight grandparent >>>
            fixupPut_loop fuel z
        else
          let* y := getLeft grandparent in
          let* ry := read (fun t => isRed t y) in
          if ry then
            (* case 1 *)
            setColor zp BLACK >>>
            setColor y BLACK >>>
            setColor grandparent RED >>>
            fixupPut_loop fuel grandparent
          else
            let* zpl := getLeft zp in
            let* z :=
              (if ptr_eqb z zpl then
                 (* case 2 *)
                 RotateRight zp >>> ret zp
               else ret z) in
            (* case 3 *)
            let* zp := getParent z in
            setColor zp BLACK >>>
            setColor grandparent RED >>>
            RotateLeft grandparent >>>
            fixupPut_loop fuel z
      end
    end
  end.

Definition fixupPut (fuel : nat) (z : ptr) : M unit :=
  fixupPut_loop fuel z >>>
  let* r := getRoot in
  setColor r BLACK.

Definition Put (fuel : nat) (key data : iface) : M (option error) :=
  match mustBeValidKey key with
  | Some err => ret (Some err)
  | None =>
    let* root := getRoot in
    match root with
    | None =>
      let* n := alloc (mkNode key data BLACK None None false None) in
      setRoot n >>>
      ret None
    | Some _ =>
      let* r := read (fun t => internalLookup fuel t None root key NODIR) in
      match r with
      | (true, None, _) =>
        let* rt := getRoot in
        setPayload rt data >>>
        ret None
      | (true, Some p, dir) =>
        match dir with
        | LEFT => let* c := getLeft (Some p) in setPayload c data
        | RIGHT => let* c := getRight (Some p) in setPayload c data
        | NODIR => ret tt
        end >>>
        ret None
      | (false, Some p, dir) =>
        let* newNode := alloc (mkNode key data RED None None false (Some p)) in
        match dir with
        | LEFT => setLeft (Some p) newNode
        | RIGHT => setRight (Some p) newNode
        | NODIR => ret tt
        end >>>
        fixupPut fuel newNode >>>
        ret None
      | (false, None, _) => ret None
      end
    end
  end.

(** ** Size: the counting visitor *)

Definition two64 : Z := 2 ^ 64.

(** [countingVisitor.Visit]; the counter is a [uint64]. *)
Fixpoint Visit (fuel : nat) (t : Tree) (node : ptr) (Count : Z) : res Z :=
  match fuel with
  | O => OutOfFuel
  | S fuel =>
    match node with
    | None => Ok Count
    | Some _ =>
      let! n := deref t node in
      let! Count := Visit fuel t (Left n) Count in
      let Count := (Count + 1) mod two64 in
      Visit fuel t (Right n) Count
    end
  end.

Definition Size (fuel : nat) (t : Tree) : res Z := Visit fuel t (Root t) 0.

(** ** Deletion *)

Definition transplant (u v : ptr) : M unit :=
  let* up := getParent u in
  match up with
  | None => setRoot v
  | Some _ =>
    let* upl := getLeft up in
    if ptr_eqb u upl then setLeft up v else setRight up v
  end >>>
  match v, u with
  | Some _, Some _ => let* up := getParent u in setParent v up
  | _, _ => ret tt
  end.

(** The [for] loop of [fixupDelete]; it returns the [x] the loop ends
    with. *)
Fixpoint fixupDelete_loop (fuel : nat) (x : ptr) : M ptr :=
  match fuel with
  | O => outOfFuel
  | S fuel =>
    let* root := getRoot in
    if ptr_eqb x root then ret x else
    let* c := getColor x in
    match c with
    | RED => ret x
    | BLACK =>
      let* xp := getParent x in
      let* xpr := getRight xp in
      if ptr_eqb x xpr then
        let* w := getLeft xp in
        let* rw := read (fun t => isRed t w) in
        let* w :=
          (if rw then
             (* case 1 *)
             setColor w BLACK >>>
             let* xp := getParent x in
             setColor xp RED >>>
             RotateRight xp >>>
             let* xp := getParent x in
             getLeft xp
           else ret w) in
        match w with
        | None => fixupDelete_loop fuel x
        | Some _ =>
          let* wl := getLeft w in
          let* wr := getRight w in
          let* rl := read (fun t => isRed t wl) in
          let* rr := read (fun t => isRed t wr) in
          let* xw :=
            (if negb rl && negb rr then
               (* case 2 *)
               setColor w RED >>>
               let* xp := getParent x in
               ret (xp, w)
             else if rr && negb rl then
               (* case 3 *)
               setColor wr BLACK >>>
               setColor w RED >>>
               RotateLeft w >>>
               let* xp := getParent x in
               let* w := getLeft xp in
               ret (x, w)
             else ret (x, w)) in
          let x := fst xw in
          let w := snd xw in
          let* wl := getLeft w in
          let* rl := read (fun t => isRed t wl) in
          if rl then
            (* case 4 *)
            let* xp := getParent x in
            let* pc := getColor xp in
            setColor w pc >>>
            setColor xp BLACK >>>
            let* wl := getLeft w in
            setColor wl BLACK >>>
            let* xp := getParent x in
            RotateRight xp >>>
            let* root := getRoot in
            fixupDelete_loop fuel root
          else fixupDelete_loop fuel x
        end
      else
        let* xpl := getLeft xp in
        if ptr_eqb x xpl then
          let* w := getRight xp in
          let* rw := read (fun t => isRed t w) in
          let* w :=
            (if rw then
               (* case 1 *)
               setColor w BLACK >>>
               let* xp := getParent x in
               setColor xp RED >>>
               RotateLeft xp >>>
               let* xp := getParent x in
               getRight xp
             else ret w) in
          match w with
          | None => fixupDelete_loop fuel x
          | Some _ =>
            let* wl := getLeft w in
            let* wr := getRight w in
            let* rl := read (fun t => isRed t wl) in
            let* rr := read (fun t => isRed t wr) in
            let* xw :=
              (if negb rl && negb rr then
                 (* case 2 *)
                 setColor w RED >>>
                 let* xp := getParent x in
                 ret (xp, w)
               else if rl && negb rr then
                 (* case 3 *)
                 setColor wl BLACK >>>
                 setColor w RED >>>
                 RotateRight w >>>
                 let* xp := getParent x in
                 let* w := getRight xp in
                 ret (x, w)
               else ret (x, w)) in
            let x := fst xw in
            let w := snd xw in
            let* wr := getRight w in
            let* rr := read (fun t => isRed t wr) in
            if rr then
              (* case 4 *)
              let* xp := getParent x in
              let* pc := getColor xp in
              setColor w pc >>>
              setColor xp BLACK >>>
              let* wr := getRight w in
              setColor wr BLACK >>>
              let* xp := getParent x in
              RotateLeft xp >>>
              let* root := getRoot in
              fixupDelete_loop fuel root
            else fixupDelete_loop fuel x
          end
        else
          (* no case of the switch applies: the loop goes round again *)
          fixupDelete_loop fuel x
    end
  end.

Definition fixupDelete (fuel : nat) (x : ptr) : M unit :=
  match x with
  | None => ret tt
  | Some _ =>
    let* x := fixupDelete_loop fuel x in
    setColor x BLACK
  end.

Definition Delete (fuel : nat) (key : iface) : M unit :=
  let* has := read (fun t => Has fuel t key) in
  if negb has then ret tt else
  let* r := read (fun t => getNode fuel t key) in
  let z := snd r in
  let y := z in
  let* yOriginalColor := getColor y in
  let* zl := getLeft z in
  let* zr := getRight z in
  let* xc :=
    match zl, zr with
    | None, _ =>
      (* case (a) *)
      transplant z zr >>>
      ret (zr, yOriginalColor)
    | Some _, None =>
      (* case (b) *)
      transplant z zl >>>
      ret (zl, yOriginalColor)
    | Some _, Some _ =>
      (* cases (c) and (d) *)
      let* y := read (fun t => getMinimum fuel t zr) in
      let* yOriginalColor := getColor y in
      let* x := getRight y in
      let* yp := getParent y in
      (if ptr_eqb yp z then
         match x with
         | Some _ => setParent x y
         | None => ret tt
         end
       else
         let* yr := getRight y in
         transplant y yr >>>
         let* zr := getRight z in
         setRight y zr >>>
         let* yr := getRight y in
         setParent yr y) >>>
      transplant z y >>>
      let* zl := getLeft z in
      setLeft y zl >>>
      let* yl := getLeft y in
      setParent yl y >>>
      let* zc := getColor z in
      setColor y zc >>>
      ret (x, yOriginalColor)
    end in
  match snd xc with
  | BLACK => fixupDelete fuel (fst xc)
  | RED => ret tt
  end.

(** ** The range query *)

(** [v.(int)] *)
Definition asInt (v : iface) : res Z :=
  match v with
  | VInt i => Ok i
  | _ => Panic
  end.

Definition inRange (k x1 x2 : Z) : bool := (k >=? x1) && (k <=? x2).

Fixpoint getSplitNode (fuel : nat) (t : Tree) (n : ptr) (x1 x2 : Z)
    : res ptr :=
  match fuel with
  | O => OutOfFuel
  | S fuel =>
    let! nd := deref t n in
    let! k := asInt (Key nd) in
    if inRange k x1 x2 then Ok n
    else
      match Left nd with
      | Some _ => getSplitNode fuel t (Left nd) x1 x2
      | None =>
        match Right nd with
        | Some _ => getSplitNode fuel t (Right nd) x1 x2
        | None => Ok None
        end
      end
  end.

(** The method [isLeaf]: it looks at the children, not at the field
    [Leaf]. *)
Definition isLeaf (t : Tree) (n : ptr) : res bool :=
  let! nd := deref t n in
  Ok (match Right nd, Left nd with
      | None, None => true
      | _, _ => false
      end).

(** The loop under "Going left". *)
Fixpoint goingLeft (fuel : nat) (t : Tree) (curNode : ptr) (x1 : Z)
    (rangeNodes : list Node) : res (ptr * list Node) :=
  match fuel with
  | O => OutOfFuel
  | S fuel =>
    let! leaf := isLeaf t curNode in
    if negb leaf then
      let! c := deref t curNode in
      let! k := asInt (Key c) in
      if x1 <=? k then
        let! r := deref t (Right c) in
        goingLeft fuel t (Left c) x1 (rangeNodes ++ [r])
      else goingLeft fuel t (Right c) x1 rangeNodes
    else Ok (curNode, rangeNodes)
  end.

(** The loop under "Going right". *)
Fixpoint goingRight (fuel : nat) (t : Tree) (curNode : ptr) (x2 : Z)
    (rangeNodes : list Node) : res (ptr * list Node) :=
  match fuel with
  | O => OutOfFuel
  | S fuel =>
    let! leaf := isLeaf t curNode in
    if negb leaf then
      let! c := deref t curNode in
      let! k := asInt (Key c) in
      if k <=? x2 then
        let! l := deref t (Left c) in
        goingRight fuel t (Right c) x2 (rangeNodes ++ [l])
      else goingRight fuel t (Left c) x2 rangeNodes
    else Ok (curNode, rangeNodes)
  end.

(** [if curNode.Key.(int) >= x1 && curNode.Key.(int) <= x2 { append }] *)
Definition appendIfInRange (t : Tree) (curNode : ptr) (x1 x2 : Z)
    (rangeNodes : list Node) : res (list Node) :=
  let! c := deref t curNode in
  let! k := asInt (Key c) in
  Ok (if inRange k x1 x2 then rangeNodes ++ [c] else rangeNodes).

(** The last loop: [keys = append(keys, node.Key.(int))]. *)
Fixpoint keysOf (rangeNodes : list Node) : res (list Z) :=
  match rangeNodes with
  | [] => Ok []
  | node :: rest =>
    let! k := asInt (Key node) in
    let! ks := keysOf rest in
    Ok (k :: ks)
  end.

(** The query from the test on the split node to the end of the left
    path. *)
Definition leftPart (fuel : nat) (t : Tree) (Vs : ptr) (x1 x2 : Z)
    : res (list Node) :=
  let rangeNodes := [] in
  let curNode := Vs in
  let! leaf := isLeaf t curNode in
  let! st :=
    (if leaf then
       let! rangeNodes := appendIfInRange t curNode x1 x2 rangeNodes in
       Ok (curNode, rangeNodes)
     else
       let! c := deref t curNode in
       Ok (Left c, rangeNodes)) in
  let! st := goingLeft fuel t (fst st) x1 (snd st) in
  appendIfInRange t (fst st) x1 x2 (snd st).

(** The right path. *)
Definition rightPart (fuel : nat) (t : Tree) (Vs : ptr) (x1 x2 : Z)
    (rangeNodes : list Node) : res (list Node) :=
  let! vs := deref t Vs in
  let curNode := Right vs in
  let! st := goingRight fuel t curNode x2 rangeNodes in
  appendIfInRange t (fst st) x1 x2 (snd st).

Definition getValuesInRange (fuel : nat) (t : Tree) (x1 x2 : Z)
    : res (list Z) :=
  let! Vs := getSplitNode fuel t (Root t) x1 x2 in
  match Vs with
  | None => Ok []
  | Some _ =>
    let! rangeNodes := leftPart fuel t Vs x1 x2 in
    let! rangeNodes := rightPart fuel t Vs x1 x2 rangeNodes in
    keysOf rangeNodes
  end.

(** *** The sample tree built in [main] *)

Definition leafNode (k : Z) : Node :=
  mkNode (VInt k) Nil RED None None true None.
Definition innerNode (k : Z) (l r : ptr) : Node :=
  mkNode (VInt k) Nil RED l r false None.

Definition sampleNodes : list (loc * Node) :=
  [ (1, leafNode 3); (2, leafNode 10); (3, leafNode 19); (4, leafNode 23);
    (5, leafNode 30); (6, leafNode 37); (7, leafNode 49); (8, leafNode 59);
    (9, leafNode 62); (10, leafNode 70); (11, leafNode 80);
    (12, leafNode 100);
    (13, innerNode 3 (Some 1) (Some 2));
    (14, innerNode 19 (Some 3) (Some 4));
    (15, innerNode 30 (Some 5) (Some 6));
    (16, innerNode 59 (Some 8) (Some 9));
    (17, innerNode 70 (Some 10) (Some 11));
    (18, innerNode 100 (Some 12) None);
    (19, innerNode 10 (Some 13) (Some 14));
    (20, innerNode 37 (Some 15) (Some 7));
    (21, innerNode 62 (Some 16) (Some 17));
    (22, innerNode 89 None (Some 18));
    (23, innerNode 23 (Some 19) (Some 20));
    (24, innerNode 80 (Some 21) (Some 22));
    (25, innerNode 49 (Some 23) (Some 24)) ]%positive.

Definition sampleTree : Tree :=
  {| Root := Some 25%positive; cmp := IntComparator;
     nodes := list_to_map sampleNodes |}.

(** ** The tree a root pointer stands for, and the red-black invariants *)

(** The shape of a tree: which node is where. *)
Inductive shp : Type :=
| E
| N (l : loc) (L R : shp).
Arguments N l%_positive L R.

#[global] Instance shp_eq_dec : EqDecision shp.
Proof. solve_decision. Defined.

(** Follow the child pointers from [p]. *)
Fixpoint treeOf (fuel : nat) (t : Tree) (p : ptr) : option shp :=
  match fuel with
  | O => None
  | S fuel =>
    match p with
    | None => Some E
    | Some l =>
      match nodes t !! l with
      | Some n =>
        match treeOf fuel t (Left n), treeOf fuel t (Right n) with
        | Some L, Some R => Some (N l L R)
        | _, _ => None
        end
      | None => None
      end
    end
  end.

Inductive is_tree (t : Tree) : ptr -> shp -> Prop :=
| is_tree_nil : is_tree t None E
| is_tree_node l n L R :
    nodes t !! l = Some n ->
    is_tree t (Left n) L ->
    is_tree t (Right n) R ->
    is_tree t (Some l) (N l L R).

Fixpoint inorder (s : shp) : list loc :=
  match s with
  | E => []
  | N l L R => inorder L ++ l :: inorder R
  end.

Fixpoint height (s : shp) : nat :=
  match s with
  | E => O
  | N _ L R => S (Nat.max (height L) (height R))
  end.

Definition rootOf (s : shp) : ptr :=
  match s with
  | E => None
  | N l _ _ => Some l
  end.

(** A nil pointer counts as black. *)
Definition colorOf (t : Tree) (p : ptr) : Color :=
  match p with
  | None => BLACK
  | Some l =>
    match nodes t !! l with
    | Some n => color n
    | None => BLACK
    end
  end.

Definition keyOf (t : Tree) (l : loc) : iface :=
  match nodes t !! l with
  | Some n => Key n
  | None => Nil
  end.

Definition isBlack (c : Color) : bool :=
  match c with BLACK => true | RED => false end.

(** Invariant 1: the root, if present, is black. *)
Definition rootIsBlack (t : Tree) : bool := isBlack (colorOf t (Root t)).

(** Invariant 2: no red node has a red child. *)
Fixpoint noRedRed (t : Tree) (s : shp) : bool :=
  match s with
  | E => true
  | N l L R =>
    (isBlack (colorOf t (Some l))
     || (isBlack (colorOf t (rootOf L)) && isBlack (colorOf t (rootOf R))))
    && noRedRed t L && noRedRed t R
  end.

(** Invariant 3: the number of black nodes on every path from the root of
    [s] down to a nil pointer, when it is the same on all of them. *)
Fixpoint blackHeight (t : Tree) (s : shp) : option nat :=
  match s with
  | E => Some O
  | N l L R =>
    match blackHeight t L, blackHeight t R with
    | Some a, Some b =>
      if Nat.eqb a b
      then Some (if isBlack (colorOf t (Some l)) then S a else a)
      else None
    | _, _ => None
    end
  end.

(** Invariant 4: the keys, in order, increase strictly by the comparator. *)
Definition keyLt (t : Tree) (a b : iface) : Prop :=
  exists c, cmp t a b = Ok c /\ c < 0.

Definition keyLtb (t : Tree) (a b : iface) : bool :=
  match cmp t a b with
  | Ok c => c <? 0
  | _ => false
  end.

Fixpoint increasing (t : Tree) (ks : list iface) : bool :=
  match ks with
  | a :: (b :: _) as rest => keyLtb t a b && increasing t rest
  | _ => true
  end.

Definition keysInOrder (t : Tree) (s : shp) : list iface :=
  map (keyOf t) (inorder s).

Definition isRedBlack (fuel : nat) (t : Tree) : bool :=
  match treeOf fuel t (Root t) with
  | Some s =>
    rootIsBlack t && noRedRed t s
    && bool_decide (is_Some (blackHeight t s))
    && increasing t (keysInOrder t s)
  | None => false
  end.

(** A run of [Put]s and [Delete]s. *)
Inductive op : Type :=
| OpPut (key data : iface)
| OpDelete (key : iface).

Definition runOp (fuel : nat) (o : op) (t : Tree) : res Tree :=
  match o with
  | OpPut key data =>
    let! r := Put fuel key data t in Ok (snd r)
  | OpDelete key =>
    let! r := Delete fuel key t in Ok (snd r)
  end.

Fixpoint runOps (fuel : nat) (os : list op) (t : Tree) : res Tree :=
  match os with
  | [] => Ok t
  | o :: os => let! t := runOp fuel o t in runOps fuel os t
  end.

(** Put 1, 2, 3 and 4, and the shape that is left when 1 is deleted
    afterwards. *)
Definition put1234 : list op :=
  [OpPut (VInt 1) Nil; OpPut (VInt 2) Nil; OpPut (VInt 3) Nil;
   OpPut (VInt 4) Nil].

Definition shape234 : shp := N 2 E (N 3 E (N 4 E E)).

(** ** What the range query computes, told on the shape of the tree *)

Definition intKeyOf (t : Tree) (l : loc) : Z :=
  match keyOf t l with
  | VInt i => i
  | _ => 0
  end.

(** All keys of the tree are of type [int]. *)
Definition intKeyed (t : Tree) (s : shp) : Prop :=
  Forall (fun l => exists i, keyOf t l = VInt i) (inorder s).

(** The nodes met when going down from the root, to the left child where
    there is one and to the right child otherwise. *)
Fixpoint descent (s : shp) : list loc :=
  match s with
  | E => []
  | N l L R =>
    l :: match L with
         | E => descent R
         | N _ _ _ => descent L
         end
  end.

Definition keyInRange (t : Tree) (x1 x2 : Z) (l : loc) : bool :=
  inRange (intKeyOf t l) x1 x2.

(** The subtree under the first node of the descent whose key is in
    [[x1, x2]]; [E] when there is none. *)
Fixpoint splitShape (t : Tree) (x1 x2 : Z) (s : shp) : shp :=
  match s with
  | E => E
  | N l L R =>
    if keyInRange t x1 x2 l then s
    else match L with
         | E => splitShape t x1 x2 R
         | N _ _ _ => splitShape t x1 x2 L
         end
  end.

(** The left path on a shape: the nodes collected on the way, in the order
    of collection, and the childless node the walk stops at; [None] when a
    missing child is dereferenced. *)
Fixpoint leftWalk (t : Tree) (x1 : Z) (s : shp) : option (list loc * loc) :=
  match s with
  | E => None
  | N l L R =>
    match L, R with
    | E, E => Some ([], l)
    | _, _ =>
      if x1 <=? intKeyOf t l then
        match rootOf R, leftWalk t x1 L with
        | Some r, Some (c, f) => Some (r :: c, f)
        | _, _ => None
        end
      else leftWalk t x1 R
    end
  end.

(** The right path, likewise. *)
Fixpoint rightWalk (t : Tree) (x2 : Z) (s : shp) : option (list loc * loc) :=
  match s with
  | E => None
  | N l L R =>
    match L, R with
    | E, E => Some ([], l)
    | _, _ =>
      if intKeyOf t l <=? x2 then
        match rootOf L, rightWalk t x2 R with
        | Some r, Some (c, f) => Some (r :: c, f)
        | _, _ => None
        end
      else rightWalk t x2 L
    end
  end.

(** The node a walk stops at, when its key is in range. *)
Definition lastIfInRange (t : Tree) (x1 x2 : Z) (f : loc) : list loc :=
  if keyInRange t x1 x2 f then [f] else [].

(** The nodes the whole query collects, in the order of collection;
    [None] when the query panics. *)
Definition collected (t : Tree) (x1 x2 : Z) (s : shp) : option (list loc) :=
  match s with
  | E => None
  | N _ _ _ =>
    match splitShape t x1 x2 s with
    | E => Some []
    | N _ E E => None
    | N _ L R =>
      match leftWalk t x1 L, rightWalk t x2 R with
      | Some (c1, f1), Some (c2, f2) =>
        Some (c1 ++ lastIfInRange t x1 x2 f1 ++ c2 ++ lastIfInRange t x1 x2 f2)
      | _, _ => None
      end
    end
  end.

(** The node values at a list of locations. *)
Definition nodesAt (t : Tree) (ls : list loc) : list Node :=
  omap (fun l => nodes t !! l) ls.

(** A location that holds a node with an [int] key. *)
Definition goodLoc (t : Tree) (l : loc) : Prop :=
  exists n i, nodes t !! l = Some n /\ Key n = VInt i.

(** The shape of the sample tree and of the two subtrees of its root. *)
Definition sampleLeft : shp :=
  N 23 (N 19 (N 13 (N 1 E E) (N 2 E E)) (N 14 (N 3 E E) (N 4 E E)))
       (N 20 (N 15 (N 5 E E) (N 6 E E)) (N 7 E E)).
Definition sampleRight : shp :=
  N 24 (N 21 (N 16 (N 8 E E) (N 9 E E)) (N 17 (N 10 E E) (N 11 E E)))
       (N 22 E (N 18 (N 12 E E) E)).
Definition sampleShape : shp := N 25 sampleLeft sampleRight.

(** ** Well-formed trees *)

(** [rep t par p s]: the pointer [p] stands for the shape [s] and its
    node's [parent] field is [par]; the same holds below. *)
Fixpoint rep (t : Tree) (par p : ptr) (s : shp) : Prop :=
  match s with
  | E => p = None
  | N l L R =>
    p = Some l
    /\ exists n,
        nodes t !! l = Some n
        /\ parent n = par
        /\ rep t (Some l) (Left n) L
        /\ rep t (Some l) (Right n) R
  end.

(** The tree is a tree: child and parent pointers agree and no node occurs
    twice. *)
Definition wf (t : Tree) (s : shp) : Prop :=
  rep t None (Root t) s /\ NoDup (inorder s).

(** A tree with a hole: the path from the hole up to the root, with the
    subtrees hanging off it. *)
Inductive ctx : Type :=
| Top
| InL (C : ctx) (l : loc) (R : shp)
| InR (C : ctx) (l : loc) (L : shp).

Fixpoint plug (C : ctx) (s : shp) : shp :=
  match C with
  | Top => s
  | InL C l R => plug C (N l s R)
  | InR C l L => plug C (N l L s)
  end.

Definition holeParent (C : ctx) : ptr :=
  match C with
  | Top => None
  | InL _ l _ | InR _ l _ => Some l
  end.

(** The nodes of a context that come before its hole in the order of the
    tree, and those that come after it. *)
Fixpoint ctxBefore (C : ctx) : list loc :=
  match C with
  | Top => []
  | InL C _ _ => ctxBefore C
  | InR C l L => ctxBefore C ++ inorder L ++ [l]
  end.

Fixpoint ctxAfter (C : ctx) : list loc :=
  match C with
  | Top => []
  | InL C l R => l :: inorder R ++ ctxAfter C
  | InR C _ _ => ctxAfter C
  end.

Definition ctxLocs (C : ctx) : list loc := ctxBefore C ++ ctxAfter C.

Fixpoint ctxDepth (C : ctx) : nat :=
  match C with
  | Top => O
  | InL C _ _ | InR C _ _ => S (ctxDepth C)
  end.

(** [repCtx t C hole]: the context [C] is laid out in [t], and the pointer
    that leads into its hole is [hole]. *)
Fixpoint repCtx (t : Tree) (C : ctx) (hole : ptr) : Prop :=
  match C with
  | Top => Root t = hole
  | InL C l R =>
    exists n,
      nodes t !! l = Some n
      /\ Left n = hole
      /\ parent n = holeParent C
      /\ rep t (Some l) (Right n) R
      /\ repCtx t C (Some l)
  | InR C l L =>
    exists n,
      nodes t !! l = Some n
      /\ Right n = hole
      /\ parent n = holeParent C
      /\ rep t (Some l) (Left n) L
      /\ repCtx t C (Some l)
  end.

(** [Cout] with [Cin] put in its hole. *)
Fixpoint capp (Cout Cin : ctx) : ctx :=
  match Cin with
  | Top => Cout
  | InL C l R => InL (capp Cout C) l R
  | InR C l L => InR (capp Cout C) l L
  end.

(** Two trees carry the same data: the same nodes, each with the key,
    payload, colour and leaf flag it had. *)
Definition sameData (t t' : Tree) : Prop :=
  cmp t' = cmp t
  /\ dom (nodes t') = dom (nodes t)
  /\ forall l n, nodes t !! l = Some n ->
       exists n', nodes t' !! l = Some n'
         /\ Key n' = Key n /\ payload n' = payload n
         /\ color n' = color n /\ Leaf n' = Leaf n.

(** The subtree [sub] sits in the hole of [C], and together they are a
    well-formed tree. *)
Definition inTree (t : Tree) (C : ctx) (sub : shp) : Prop :=
  repCtx t C (rootOf sub)
  /\ rep t (holeParent C) (rootOf sub) sub
  /\ NoDup (ctxBefore C ++ inorder sub ++ ctxAfter C).

(** [t] with the node at [l] changed by [f]. *)
Definition upd (l : loc) (f : Node -> Node) (t : Tree) : Tree :=
  match nodes t !! l with
  | Some n => mkTree (Root t) (cmp t) (<[l := f n]> (nodes t))
  | None => t
  end.

(** [f] leaves the three pointers of a node alone. *)
Definition keepsLinks (f : Node -> Node) : Prop :=
  forall n, Left (f n) = Left n /\ Right (f n) = Right n
            /\ parent (f n) = parent n.

(** The pointer that leads into the hole of [C] is set to [v]. *)
Definition setSlot (C : ctx) (v : ptr) (t : Tree) : Tree :=
  match C with
  | Top => mkTree v (cmp t) (nodes t)
  | InL _ p _ => upd p (withLeft v) t
  | InR _ p _ => upd p (withRight v) t
  end.

(** The node at [p], if there is one, gets the parent [par]. *)
Definition reparent (p par : ptr) (t : Tree) : Tree :=
  match p with
  | Some b => upd b (withParent par) t
  | None => t
  end.

(** [f] leaves the data of a node alone. *)
Definition keepsData (f : Node -> Node) : Prop :=
  forall n, Key (f n) = Key n /\ payload (f n) = payload n
            /\ color (f n) = color n /\ Leaf (f n) = Leaf n.

(** The nodes of [t] are still there in [t'], each with its key and its
    payload; colours and pointers may differ. *)
Definition sameEntries (t t' : Tree) : Prop :=
  cmp t' = cmp t
  /\ forall l n, nodes t !! l = Some n ->
       exists n', nodes t' !! l = Some n'
         /\ Key n' = Key n /\ payload n' = payload n.

(** What [RotateLeft] makes of a tree in which [x], in the hole of [C],
    has the right child [y] whose left child is [b]; and what
    [RotateRight] makes of a tree in which [y] has the left child [x]
    whose right child is [b]. *)
Definition rotatedLeft (C : ctx) (x y : loc) (b : ptr) (t : Tree) : Tree :=
  upd x (withParent (Some y))
    (upd y (withLeft (Some x))
       (setSlot C (Some y)
          (upd y (withParent (holeParent C))
             (reparent b (Some x)
                (upd x (withRight b) t))))).

Definition rotatedRight (C : ctx) (x y : loc) (b : ptr) (t : Tree) : Tree :=
  upd y (withParent (Some x))
    (upd x (withRight (Some y))
       (setSlot C (Some x)
          (upd x (withParent (holeParent C))
             (reparent b (Some y)
                (upd y (withLeft b) t))))).

(** A test for [rep] and [wf] that can be run. *)
Fixpoint repb (t : Tree) (par p : ptr) (s : shp) : bool :=
  match s with
  | E => bool_decide (p = None)
  | N l L R =>
    bool_decide (p = Some l)
    && match nodes t !! l with
       | Some n =>
         bool_decide (parent n = par)
         && repb t (Some l) (Left n) L
         && repb t (Some l) (Right n) R
       | None => false
       end
  end.

Definition wfb (t : Tree) (s : shp) : bool :=
  repb t None (Root t) s && bool_decide (NoDup (inorder s)).

(** The tree that holds 1, 2, 3 and 4, and its shape. *)
Definition tree1234 : Tree :=
  match runOps 100 put1234 NewTree with
  | Ok t => t
  | _ => NewTree
  end.
Definition shape1234 : shp := N 2 (N 1 E E) (N 3 E (N 4 E E)).

(** ** Ordered trees *)

(** The contract of a comparator on the keys in [dom]: it always answers,
    with zero exactly on equal keys, with opposite signs when its arguments
    are swapped, and "less" is transitive. *)
Record orders (c : Comparator) (dom : iface -> Prop) : Prop := {
  ord_total : forall a b, dom a -> dom b -> exists z, c a b = Ok z;
  ord_eq : forall a b, dom a -> dom b -> (c a b = Ok 0 <-> a = b);
  ord_flip : forall a b z, dom a -> dom b -> c a b = Ok z ->
    exists z', c b a = Ok z' /\ Z.sgn z' = - Z.sgn z;
  ord_trans : forall a b d z1 z2, dom a -> dom b -> dom d ->
    c a b = Ok z1 -> z1 < 0 -> c b d = Ok z2 -> z2 < 0 ->
    exists z3, c a d = Ok z3 /\ z3 < 0
}.

Definition isInt (v : iface) : Prop := exists i, v = VInt i.

(** All keys of the tree are in [dom]. *)
Definition keysIn (dom : iface -> Prop) (t : Tree) (s : shp) : Prop :=
  Forall (fun l => dom (keyOf t l)) (inorder s).

(** Invariant 4 as a proposition. *)
Definition sortedKeys (t : Tree) (s : shp) : Prop :=
  StronglySorted (keyLt t) (keysInOrder t s).

Definition dirOf (C : ctx) : Direction :=
  match C with
  | Top => NODIR
  | InL _ _ _ => LEFT
  | InR _ _ _ => RIGHT
  end.

(** The search for [k] told on the shape: where it ends (a context) and
    on what (the subtree whose root holds [k], or [E]). *)
Fixpoint locate (t : Tree) (k : iface) (C : ctx) (s : shp) : ctx * shp :=
  match s with
  | E => (C, E)
  | N l L R =>
    match cmp t k (keyOf t l) with
    | Ok c =>
      if c =? 0 then (C, s)
      else if c <? 0 then locate t k (InL C l R) L
      else locate t k (InR C l L) R
    | _ => (C, s)
    end
  end.

Definition isNode (s : shp) : bool :=
  match s with
  | E => false
  | N _ _ _ => true
  end.

(** The keys before the hole are below [k] and those after it above. *)
Definition bounds (t : Tree) (k : iface) (C : ctx) : Prop :=
  Forall (fun l => keyLt t (keyOf t l) k) (ctxBefore C)
  /\ Forall (fun l => keyLt t k (keyOf t l)) (ctxAfter C).

(** [t] after [alloc n]. *)
Definition allocated (n : Node) (t : Tree) : Tree :=
  mkTree (Root t) (cmp t) (<[fresh (dom (nodes t)) := n]> (nodes t)).

(** Two lists of locations without a common element. *)
Definition disj (a b : list loc) : Prop :=
  forall x, In x a -> In x b -> False.

(** ** Search trees and their mappings *)

Definition payloadOf (t : Tree) (l : loc) : iface :=
  match nodes t !! l with
  | Some n => payload n
  | None => Nil
  end.

(** The mappings (key, payload) of the tree, in order. *)
Definition entries (t : Tree) (s : shp) : list (iface * iface) :=
  map (fun l => (keyOf t l, payloadOf t l)) (inorder s).

(** A well-formed tree whose keys are in [dom] and increase strictly. *)
Definition searchTree (dom : iface -> Prop) (t : Tree) (s : shp) : Prop :=
  wf t s /\ keysIn dom t s /\ sortedKeys t s.

(** ** Red-black trees *)

(** The colour invariants on the shape of a tree: the root is black, no red
    node has a red child, and all paths from the root down to a nil pointer
    have the same number of black nodes. *)
Definition redBlack (t : Tree) (s : shp) : Prop :=
  colorOf t (rootOf s) = BLACK
  /\ noRedRed t s = true
  /\ is_Some (blackHeight t s).

(** The same for a context whose hole takes a subtree of black height [h]:
    the subtrees that hang off the path are in order, each with the black
    height that its place asks for, and a red node on the path has a black
    parent and a black child off the path. *)
Fixpoint okCtx (t : Tree) (C : ctx) (h : nat) : Prop :=
  match C with
  | Top => True
  | InL C p R =>
    blackHeight t R = Some h /\ noRedRed t R = true
    /\ (colorOf t (Some p) = RED ->
        colorOf t (rootOf R) = BLACK /\ colorOf t (holeParent C) = BLACK)
    /\ okCtx t C (if isBlack (colorOf t (Some p)) then S h else h)
  | InR C p L =>
    blackHeight t L = Some h /\ noRedRed t L = true
    /\ (colorOf t (Some p) = RED ->
        colorOf t (rootOf L) = BLACK /\ colorOf t (holeParent C) = BLACK)
    /\ okCtx t C (if isBlack (colorOf t (Some p)) then S h else h)
  end.

(** [StringComparator]: [bytes.Compare] on the bytes of the two strings,
    which is -1, 0 or 1; it panics when an argument is not a [string]. *)
Definition StringComparator : Comparator := fun o1 o2 =>
  match o1, o2 with
  | VString s1, VString s2 =>
    Ok (match String.compare s1 s2 with
        | Lt => -1
        | Eq => 0
        | Gt => 1
        end)
  | _, _ => Panic
  end.

Definition isString (v : iface) : Prop := exists s, v = VString s.

(** ** What Delete does, told on the shape of the tree *)

(** The leftmost node of the tree [N l L R], the right subtree of that
    node, the context it sits in, and the tree without it. *)
Fixpoint minOf (l : loc) (L : shp) : loc :=
  match L with
  | E => l
  | N l' L' _ => minOf l' L'
  end.

Fixpoint minRight (l : loc) (L R : shp) : shp :=
  match L with
  | E => R
  | N l' L' R' => minRight l' L' R'
  end.

Fixpoint minCtx (C : ctx) (l : loc) (L R : shp) : ctx :=
  match L with
  | E => C
  | N l' L' R' => minCtx (InL C l R) l' L' R'
  end.

Fixpoint dropMin (l : loc) (L R : shp) : shp :=
  match L with
  | E => R
  | N l' L' R' => N l (dropMin l' L' R') R
  end.

(** The subtree that takes the place of the subtree [s] when the node at
    the root of [s] is deleted: its one child where it has at most one,
    and otherwise the leftmost node of its right subtree, with the two
    subtrees that are left. *)
Definition removeRoot (s : shp) : shp :=
  match s with
  | E => E
  | N _ E R => R
  | N _ L E => L
  | N _ L (N r RL RR) => N (minOf r RL) L (dropMin r RL RR)
  end.

(** The node that [Delete] takes out of the tree when it deletes the root
    of [s] (the root itself where it has at most one child, and otherwise
    the leftmost node of its right subtree), and the subtree of that node
    that moves up into its place. *)
Definition splicedNode (z : loc) (L R : shp) : loc :=
  match L, R with
  | N _ _ _, N r RL _ => minOf r RL
  | _, _ => z
  end.

Definition splicedChild (L R : shp) : shp :=
  match L, R with
  | E, _ => R
  | N _ _ _, E => L
  | N _ _ _, N r RL RR => minRight r RL RR
  end.

(** A run of [Put]s and [Delete]s from the empty tree, and the tree it
    leaves: the keys 3, 4, 8 and 12, with a black node (3) whose parent (8)
    is the only child of the root (12). *)
Definition spinOps : list op :=
  [OpPut (VInt 6) Nil; OpPut (VInt 7) Nil; OpPut (VInt 3) Nil;
   OpPut (VInt 4) Nil; OpDelete (VInt 6); OpPut (VInt 12) Nil;
   OpPut (VInt 9) Nil; OpPut (VInt 8) Nil; OpDelete (VInt 9);
   OpDelete (VInt 7)].

Definition spinTree : Tree :=
  match runOps 100 spinOps NewTree with
  | Ok t => t
  | _ => NewTree
  end.

Definition spinShape : shp := N 5 (N 7 (N 3 E (N 4 E E)) E) E.

(** The [int] keys of the tree do not decrease in order (equal keys may
    follow each other, as in the sample tree, whose inner nodes repeat the
    key of a leaf). *)
Definition keysNondecreasing (t : Tree) (s : shp) : Prop :=
  StronglySorted Z.le (map (intKeyOf t) (inorder s)).

(** * Properties *)

(** ** Key validation *)

Lemma mustBeValidKey_nil key :
  mustBeValidKey key = Some ErrorKeyIsNil <-> key = Nil.
Proof.
  split; [|intros ->; reflexivity].
  destruct key as [| | |k id]; try done.
  destruct k; done.
Qed.

Lemma mustBeValidKey_disallowed key :
  mustBeValidKey key = Some ErrorKeyDisallowed
  <-> key <> Nil /\ disallowedKind (kindOf key) = true.
Proof.
  destruct key as [| | |k id]; simpl; try (split; [done | intros [? ?]; done]).
  destruct k; simpl; split; (done || (intros [? ?]; done) || (intros _; done)).
Qed.

(** C6, counterexample: an array is a valid key. *)
Lemma array_key_is_valid : mustBeValidKey (VOther Array 1) = None.
Proof. reflexivity. Qed.

(** C6, as amended: validation fails with [ErrorKeyIsNil] exactly on the
    nil key and with [ErrorKeyDisallowed] exactly on the non-nil keys whose
    kind is channel, function, interface, map, pointer or slice (arrays
    pass); and when it fails, [Put], [Get], [Has] and [GetParent] answer
    without looking at the tree: whatever the tree and the fuel, [Put]
    returns the error and leaves the tree alone, and the others report
    "not found". *)
Theorem key_validation_before_tree_access key :
  (mustBeValidKey key = Some ErrorKeyIsNil <-> key = Nil)
  /\ (mustBeValidKey key = Some ErrorKeyDisallowed
      <-> key <> Nil /\ disallowedKind (kindOf key) = true)
  /\ disallowedKind Array = false
  /\ forall err, mustBeValidKey key = Some err ->
     forall fuel t data,
       Put fuel key data t = Ok (Some err, t)
       /\ Get fuel t key = Ok (false, Nil)
       /\ Has fuel t key = Ok false
       /\ GetParent fuel t key = Ok (false, None, NODIR).
Proof.
  split; [apply mustBeValidKey_nil|].
  split; [apply mustBeValidKey_disallowed|].
  split; [reflexivity|].
  intros err Herr fuel t data.
  unfold Put, Get, Has, GetParent. rewrite Herr. done.
Qed.

Lemma key_validation_before_tree_access_witness :
  Put 0 (VOther Slice 1) (VInt 5) sampleTree
  = Ok (Some ErrorKeyDisallowed, sampleTree).
Proof.
  destruct (key_validation_before_tree_access (VOther Slice 1))
    as (_ & _ & _ & H).
  apply (H ErrorKeyDisallowed eq_refl 0%nat sampleTree (VInt 5)).
Defined.

(** C9: [Put] with a key that fails validation returns that error (the
    nil-key error for the nil key, the disallowed-kind error otherwise)
    and the tree is exactly what it was. *)
Theorem Put_invalid_key_is_noop fuel key data t err :
  mustBeValidKey key = Some err ->
  Put fuel key data t = Ok (Some err, t)
  /\ (key = Nil -> err = ErrorKeyIsNil)
  /\ (key <> Nil -> err = ErrorKeyDisallowed).
Proof.
  intros Herr. split; [unfold Put; rewrite Herr; done|].
  split.
  - intros ->. simpl in Herr. congruence.
  - intros Hne. destruct key as [| | |k id]; try done.
    destruct k; simpl in Herr; congruence.
Qed.

Lemma Put_invalid_key_is_noop_witness :
  Put 7 Nil (VInt 1) sampleTree = Ok (Some ErrorKeyIsNil, sampleTree).
Proof.
  apply (Put_invalid_key_is_noop 7 Nil (VInt 1) sampleTree ErrorKeyIsNil).
  reflexivity.
Defined.

(** ** Deleting a black leaf *)

(** [fixupDelete] gives up at once on a nil [x]. *)
Lemma fixupDelete_nil fuel t : fixupDelete fuel None t = Ok (tt, t).
Proof. reflexivity. Qed.

(** C1, at the failing input: putting 1, 2, 3, 4 into an empty tree and
    deleting 1 leaves the root 2 (black) with no left child and the right
    child 3 (black) above 4 (red): the path to the left of the root
    crosses one black node, the paths through 3 cross two. *)
Theorem delete_black_leaf_unbalances :
  exists t,
    runOps 100 (put1234 ++ [OpDelete (VInt 1)]) NewTree = Ok t
    /\ treeOf 100 t (Root t) = Some shape234
    /\ map (fun l => colorOf t (Some l)) (inorder shape234)
       = [BLACK; BLACK; RED]
    /\ blackHeight t shape234 = None
    /\ isRedBlack 100 t = false.
Proof. eexists. split; [vm_compute; reflexivity|]. vm_compute. done. Qed.

(** C2, at the failing input: in the red-black tree holding 1, 2, 3, 4
    the node of key 1 is a black leaf; [Delete] unlinks it, calls the
    fix-up with a nil [x], which changes nothing, and the tree that is left
    is the unlinked one, with unequal black counts. *)
Theorem delete_fixup_skipped_on_nil :
  exists t4 t5,
    runOps 100 put1234 NewTree = Ok t4
    /\ isRedBlack 100 t4 = true
    /\ getNode 100 t4 (VInt 1) = Ok (true, Some 1%positive)
    /\ colorOf t4 (Some 1%positive) = BLACK
    /\ transplant (Some 1%positive) None t4 = Ok (tt, t5)
    /\ Delete 100 (VInt 1) t4 = Ok (tt, t5)
    /\ isRedBlack 100 t5 = false.
Proof.
  eexists. eexists. split; [vm_compute; reflexivity|].
  split; [vm_compute; reflexivity|].
  split; [vm_compute; reflexivity|].
  split; [vm_compute; reflexivity|].
  split; [vm_compute; reflexivity|].
  vm_compute. done.
Qed.

(** ** The range query *)

Lemma is_tree_nil_inv t s : is_tree t None s -> s = E.
Proof. inversion 1; reflexivity. Qed.

Lemma is_tree_node_inv t l s :
  is_tree t (Some l) s ->
  exists n L R,
    s = N l L R /\ nodes t !! l = Some n
    /\ is_tree t (Left n) L /\ is_tree t (Right n) R.
Proof. inversion 1; subst; eauto 10. Qed.

Lemma is_tree_rootOf t p s : is_tree t p s -> rootOf s = p.
Proof. destruct 1; reflexivity. Qed.

Lemma is_tree_fun t p s1 s2 : is_tree t p s1 -> is_tree t p s2 -> s1 = s2.
Proof.
  intros H1. revert s2. induction H1 as [|l n L R Hn _ IHL _ IHR].
  - intros s2 H2. apply is_tree_nil_inv in H2. done.
  - intros s2 H2. apply is_tree_node_inv in H2 as (n' & L' & R' & -> & Hn' & HL & HR).
    assert (n' = n) as -> by congruence.
    f_equal; auto.
Qed.

Lemma intKeyed_node t l L R :
  intKeyed t (N l L R) ->
  (exists i, keyOf t l = VInt i) /\ intKeyed t L /\ intKeyed t R.
Proof.
  unfold intKeyed. simpl. rewrite Forall_app, Forall_cons_iff. tauto.
Qed.

Lemma keyOf_lookup t l n : nodes t !! l = Some n -> keyOf t l = Key n.
Proof. unfold keyOf. intros ->. reflexivity. Qed.

Lemma asInt_key t l n i :
  nodes t !! l = Some n -> keyOf t l = VInt i ->
  asInt (Key n) = Ok (intKeyOf t l).
Proof.
  intros Hn Hk. unfold intKeyOf. rewrite Hk.
  rewrite (keyOf_lookup _ _ _ Hn) in Hk. rewrite Hk. reflexivity.
Qed.

Lemma getSplitNode_on_shape t x1 x2 s :
  forall p fuel,
    is_tree t p s -> intKeyed t s -> s <> E -> (height s <= fuel)%nat ->
    getSplitNode fuel t p x1 x2 = Ok (rootOf (splitShape t x1 x2 s)).
Proof.
  induction s as [|l L IHL R IHR]; intros p fuel Ht Hk Hne Hf; [done|].
  pose proof (is_tree_rootOf _ _ _ Ht) as Hp. simpl in Hp. subst p.
  apply is_tree_node_inv in Ht as (n & L' & R' & Heq & Hn & HL & HR).
  injection Heq as <- <-.
  apply intKeyed_node in Hk as ([i Hi] & HkL & HkR).
  destruct fuel as [|fuel]; [simpl in Hf; lia|].
  simpl in Hf. simpl. rewrite Hn. simpl.
  rewrite (asInt_key _ _ _ _ Hn Hi). simpl.
  unfold keyInRange. destruct (inRange (intKeyOf t l) x1 x2); [reflexivity|].
  destruct L as [|ll LL LR].
  - pose proof (is_tree_rootOf _ _ _ HL) as HlN. simpl in HlN. rewrite <- HlN.
    destruct R as [|rl RL RR].
    + pose proof (is_tree_rootOf _ _ _ HR) as HrN. simpl in HrN.
      rewrite <- HrN. reflexivity.
    + pose proof (is_tree_rootOf _ _ _ HR) as HrN. simpl in HrN.
      rewrite <- HrN. rewrite HrN.
      apply IHR; [done|done|done|lia].
  - pose proof (is_tree_rootOf _ _ _ HL) as HlN. simpl in HlN.
    rewrite <- HlN. rewrite HlN.
    apply IHL; [done|done|done|lia].
Qed.

Lemma rootOf_splitShape t x1 x2 s :
  rootOf (splitShape t x1 x2 s) = List.find (keyInRange t x1 x2) (descent s).
Proof.
  induction s as [|l L IHL R IHR]; [reflexivity|].
  simpl. destruct (keyInRange t x1 x2 l); [reflexivity|].
  destruct L; assumption.
Qed.

(** C3, counterexample: on the empty tree the query does not return an
    empty result; [getSplitNode] dereferences the nil root. *)
Lemma range_query_on_empty_tree_panics :
  getValuesInRange 1 NewTree 19 77 = Panic
  /\ ~ exists fuel, getValuesInRange fuel NewTree 19 77 = Ok [].
Proof.
  split; [reflexivity|].
  intros [[|fuel] H]; discriminate H.
Qed.

(** C3, as amended: on a tree that has a root (and holds [int] keys), the
    split node the query finds is the first node with a key in [[x1, x2]]
    among those met when descending from the root (into the left child
    where there is one, else into the right child); when there is no such
    node the query returns the empty list. *)
Theorem split_node_is_first_in_range fuel t s x1 x2 :
  Root t <> None ->
  is_tree t (Root t) s ->
  intKeyed t s ->
  (height s <= fuel)%nat ->
  getSplitNode fuel t (Root t) x1 x2
  = Ok (List.find (keyInRange t x1 x2) (descent s))
  /\ (List.find (keyInRange t x1 x2) (descent s) = None ->
      getValuesInRange fuel t x1 x2 = Ok []).
Proof.
  intros Hroot Ht Hk Hf.
  assert (s <> E) as Hne.
  { intros ->. apply is_tree_rootOf in Ht. simpl in Ht. congruence. }
  pose proof (getSplitNode_on_shape t x1 x2 s _ fuel Ht Hk Hne Hf) as Hs.
  rewrite rootOf_splitShape in Hs.
  split; [exact Hs|].
  intros Hnone. unfold getValuesInRange. rewrite Hs, Hnone. reflexivity.
Qed.

Lemma is_tree_good t p s :
  is_tree t p s -> intKeyed t s -> Forall (goodLoc t) (inorder s).
Proof.
  induction 1 as [|l n L R Hn _ IHL _ IHR]; intros Hk; [constructor|].
  apply intKeyed_node in Hk as ([i Hi] & HkL & HkR).
  simpl. apply Forall_app. split; [auto|].
  constructor; [|auto].
  exists n, i. split; [done|]. by rewrite <- (keyOf_lookup _ _ _ Hn).
Qed.

Lemma goodLoc_asInt t l n :
  goodLoc t l -> nodes t !! l = Some n -> asInt (Key n) = Ok (intKeyOf t l).
Proof.
  intros (n' & i & Hn' & Hi) Hn. assert (n' = n) as -> by congruence.
  unfold intKeyOf, keyOf. rewrite Hn, Hi. reflexivity.
Qed.

Lemma nodesAt_app t l1 l2 : nodesAt t (l1 ++ l2) = nodesAt t l1 ++ nodesAt t l2.
Proof. unfold nodesAt. apply omap_app. Qed.

Lemma nodesAt_cons t l n ls :
  nodes t !! l = Some n -> nodesAt t (l :: ls) = n :: nodesAt t ls.
Proof. intros Hn. unfold nodesAt. simpl. rewrite Hn. reflexivity. Qed.

Lemma keysOf_nodesAt t ls :
  Forall (goodLoc t) ls -> keysOf (nodesAt t ls) = Ok (map (intKeyOf t) ls).
Proof.
  induction 1 as [|l ls Hl _ IH]; [reflexivity|].
  destruct Hl as (n & i & Hn & Hi).
  rewrite (nodesAt_cons _ _ _ _ Hn). simpl.
  rewrite (goodLoc_asInt t l n); [|by exists n, i|done].
  simpl. rewrite IH. reflexivity.
Qed.

Lemma appendIfInRange_good t f x1 x2 acc :
  goodLoc t f ->
  appendIfInRange t (Some f) x1 x2 acc
  = Ok (acc ++ nodesAt t (lastIfInRange t x1 x2 f)).
Proof.
  intros Hf. pose proof Hf as (n & i & Hn & Hi).
  unfold appendIfInRange. simpl. rewrite Hn. simpl.
  rewrite (goodLoc_asInt _ _ _ Hf Hn). simpl.
  unfold lastIfInRange, keyInRange.
  destruct (inRange (intKeyOf t f) x1 x2).
  - by rewrite (nodesAt_cons _ _ _ _ Hn).
  - by rewrite app_nil_r.
Qed.

Lemma isLeaf_node t l n :
  nodes t !! l = Some n ->
  isLeaf t (Some l)
  = Ok (match Right n, Left n with None, None => true | _, _ => false end).
Proof. intros Hn. unfold isLeaf. simpl. rewrite Hn. reflexivity. Qed.

Lemma leftWalk_Forall (P : loc -> Prop) t x1 s c f :
  Forall P (inorder s) ->
  leftWalk t x1 s = Some (c, f) ->
  Forall P c /\ P f.
Proof.
  revert c f. induction s as [|l L IHL R IHR]; intros c f Hg Hw; [done|].
  simpl in Hg. apply Forall_app in Hg as [HgL HgR].
  apply Forall_cons_iff in HgR as [Hl HgR].
  assert (forall r, rootOf R = Some r -> P r) as HrR.
  { intros r Hr. destruct R; [done|]. injection Hr as ->.
    simpl in HgR. apply Forall_app in HgR as [_ HgR].
    by apply Forall_cons_iff in HgR as [? _]. }
  cbn [leftWalk] in Hw.
  destruct (x1 <=? intKeyOf t l).
  - destruct L as [|ll LL LR].
    + destruct R as [|rl RL RR]; [|done].
      injection Hw as <- <-. split; [constructor|done].
    + destruct (rootOf R) as [r|] eqn:Hr; [|done].
      destruct (leftWalk t x1 (N ll LL LR)) as [[c' f']|] eqn:Hw'; [|done].
      injection Hw as <- <-.
      destruct (IHL c' f' HgL eq_refl) as [Hc Hf].
      split; [|done]. constructor; [|done]. by apply HrR.
  - destruct L as [|ll LL LR].
    + destruct R as [|rl RL RR]; [|by apply IHR].
      injection Hw as <- <-. split; [constructor|done].
    + by apply IHR.
Qed.

Lemma rightWalk_Forall (P : loc -> Prop) t x2 s c f :
  Forall P (inorder s) ->
  rightWalk t x2 s = Some (c, f) ->
  Forall P c /\ P f.
Proof.
  revert c f. induction s as [|l L IHL R IHR]; intros c f Hg Hw; [done|].
  simpl in Hg. apply Forall_app in Hg as [HgL HgR].
  apply Forall_cons_iff in HgR as [Hl HgR].
  assert (forall r, rootOf L = Some r -> P r) as HrL.
  { intros r Hr. destruct L; [done|]. injection Hr as ->.
    simpl in HgL. apply Forall_app in HgL as [_ HgL].
    by apply Forall_cons_iff in HgL as [? _]. }
  cbn [rightWalk] in Hw.
  destruct (intKeyOf t l <=? x2).
  - destruct L as [|ll LL LR].
    + destruct R as [|rl RL RR]; [|done].
      injection Hw as <- <-. split; [constructor|done].
    + destruct (rootOf (N ll LL LR)) as [r|] eqn:Hr; [|done].
      destruct (rightWalk t x2 R) as [[c' f']|] eqn:Hw'; [|done].
      injection Hw as <- <-.
      destruct (IHR c' f' HgR eq_refl) as [Hc Hf].
      split; [|done]. constructor; [|done]. by apply HrL.
  - destruct L as [|ll LL LR].
    + destruct R as [|rl RL RR]; [|done].
      injection Hw as <- <-. split; [constructor|done].
    + by apply IHL.
Qed.

Lemma leftWalk_good t x1 s c f :
  Forall (goodLoc t) (inorder s) ->
  leftWalk t x1 s = Some (c, f) ->
  Forall (goodLoc t) c /\ goodLoc t f.
Proof. apply leftWalk_Forall. Qed.

Lemma rightWalk_good t x2 s c f :
  Forall (goodLoc t) (inorder s) ->
  rightWalk t x2 s = Some (c, f) ->
  Forall (goodLoc t) c /\ goodLoc t f.
Proof. apply rightWalk_Forall. Qed.

Lemma splitShape_Forall (P : loc -> Prop) t x1 x2 s :
  Forall P (inorder s) -> Forall P (inorder (splitShape t x1 x2 s)).
Proof.
  induction s as [|l L IHL R IHR]; intros H; [done|].
  cbn [splitShape]. destruct (keyInRange t x1 x2 l); [done|].
  simpl in H. apply Forall_app in H as [HL HR].
  apply Forall_cons_iff in HR as [_ HR].
  destruct L; auto.
Qed.

Lemma collected_Forall (P : loc -> Prop) t x1 x2 s ls :
  Forall P (inorder s) -> collected t x1 x2 s = Some ls -> Forall P ls.
Proof.
  intros HP. unfold collected. destruct s as [|r L0 R0]; [done|].
  apply (splitShape_Forall P t x1 x2) in HP.
  destruct (splitShape t x1 x2 (N r L0 R0)) as [|v L R]; [by intros [= <-]|].
  simpl in HP. apply Forall_app in HP as [HL HR].
  apply Forall_cons_iff in HR as [_ HR].
  assert (match leftWalk t x1 L, rightWalk t x2 R with
          | Some (c1, f1), Some (c2, f2) =>
            Some (c1 ++ lastIfInRange t x1 x2 f1 ++ c2
                  ++ lastIfInRange t x1 x2 f2)
          | _, _ => None
          end = Some ls -> Forall P ls) as Hgen.
  { destruct (leftWalk t x1 L) as [[c1 f1]|] eqn:Hw1; [|done].
    destruct (rightWalk t x2 R) as [[c2 f2]|] eqn:Hw2; [|done].
    intros [= <-].
    destruct (leftWalk_Forall P _ _ _ _ _ HL Hw1) as [? ?].
    destruct (rightWalk_Forall P _ _ _ _ _ HR Hw2) as [? ?].
    unfold lastIfInRange.
    repeat (apply Forall_app; split); try done;
      case_match; repeat constructor; done. }
  destruct L, R; done.
Qed.

Lemma goingLeft_on_shape t x1 s :
  forall p fuel acc,
    is_tree t p s -> intKeyed t s -> (height s < fuel)%nat ->
    goingLeft fuel t p x1 acc
    = match leftWalk t x1 s with
      | Some (c, f) => Ok (Some f, acc ++ nodesAt t c)
      | None => Panic
      end.
Proof.
  induction s as [|l L IHL R IHR]; intros p fuel acc Ht Hk Hf.
  - pose proof (is_tree_rootOf _ _ _ Ht) as Hp. simpl in Hp. subst p.
    destruct fuel; [lia|]. reflexivity.
  - pose proof (is_tree_rootOf _ _ _ Ht) as Hp. simpl in Hp. subst p.
    apply is_tree_node_inv in Ht as (n & L' & R' & Heq & Hn & HL & HR).
    injection Heq as <- <-.
    apply intKeyed_node in Hk as ([i Hi] & HkL & HkR).
    destruct fuel as [|fuel]; [lia|]. simpl in Hf.
    cbn [goingLeft leftWalk]. rewrite (isLeaf_node _ _ _ Hn).
    pose proof (is_tree_rootOf _ _ _ HL) as HlN.
    pose proof (is_tree_rootOf _ _ _ HR) as HrN.
    assert (deref t (Some l) = Ok n) as Hd by (simpl; by rewrite Hn).
    assert (asInt (Key n) = Ok (intKeyOf t l)) as Ha
      by (eapply asInt_key; eauto).
    rewrite <- HlN, <- HrN in *.
    assert (rootOf L = None /\ rootOf R = None \/
            (match rootOf R, rootOf L with
             | None, None => true | _, _ => false end = false
             /\ match L, R with E, E => False | _, _ => True end)) as [[H1 H2]|[H1 H2]].
    { destruct L, R; simpl; auto. }
    + destruct L; [|done]. destruct R; [|done]. simpl.
      by rewrite app_nil_r.
    + rewrite H1. simpl. rewrite Hn. simpl. rewrite Ha. simpl.
      rewrite <- ?HlN, <- ?HrN.
      assert (match L, R with
              | E, E => Some ([], l)
              | _, _ =>
                if x1 <=? intKeyOf t l
                then match rootOf R, leftWalk t x1 L with
                     | Some r, Some (c, f) => Some (r :: c, f)
                     | _, _ => None
                     end
                else leftWalk t x1 R
              end
              = if x1 <=? intKeyOf t l
                then match rootOf R, leftWalk t x1 L with
                     | Some r, Some (c, f) => Some (r :: c, f)
                     | _, _ => None
                     end
                else leftWalk t x1 R) as ->.
      { destruct L, R; done. }
      destruct (x1 <=? intKeyOf t l).
      * destruct R as [|rl RL RR]; [reflexivity|].
        pose proof HR as HR'.
        apply is_tree_node_inv in HR' as (nr & ? & ? & ? & Hnr & _).
        simpl. rewrite Hnr. simpl.
        rewrite (IHL _ fuel (acc ++ [nr]) HL HkL); [|lia].
        destruct (leftWalk t x1 L) as [[c f]|]; [|done].
        rewrite (nodesAt_cons _ _ _ _ Hnr). by rewrite <- app_assoc.
      * apply IHR; [done|done|lia].
Qed.

Lemma goingRight_on_shape t x2 s :
  forall p fuel acc,
    is_tree t p s -> intKeyed t s -> (height s < fuel)%nat ->
    goingRight fuel t p x2 acc
    = match rightWalk t x2 s with
      | Some (c, f) => Ok (Some f, acc ++ nodesAt t c)
      | None => Panic
      end.
Proof.
  induction s as [|l L IHL R IHR]; intros p fuel acc Ht Hk Hf.
  - pose proof (is_tree_rootOf _ _ _ Ht) as Hp. simpl in Hp. subst p.
    destruct fuel; [lia|]. reflexivity.
  - pose proof (is_tree_rootOf _ _ _ Ht) as Hp. simpl in Hp. subst p.
    apply is_tree_node_inv in Ht as (n & L' & R' & Heq & Hn & HL & HR).
    injection Heq as <- <-.
    apply intKeyed_node in Hk as ([i Hi] & HkL & HkR).
    destruct fuel as [|fuel]; [lia|]. simpl in Hf.
    cbn [goingRight rightWalk]. rewrite (isLeaf_node _ _ _ Hn).
    pose proof (is_tree_rootOf _ _ _ HL) as HlN.
    pose proof (is_tree_rootOf _ _ _ HR) as HrN.
    assert (deref t (Some l) = Ok n) as Hd by (simpl; by rewrite Hn).
    assert (asInt (Key n) = Ok (intKeyOf t l)) as Ha
      by (eapply asInt_key; eauto).
    rewrite <- HlN, <- HrN in *.
    assert (rootOf L = None /\ rootOf R = None \/
            (match rootOf R, rootOf L with
             | None, None => true | _, _ => false end = false
             /\ match L, R with E, E => False | _, _ => True end)) as [[H1 H2]|[H1 H2]].
    { destruct L, R; simpl; auto. }
    + destruct L; [|done]. destruct R; [|done]. simpl.
      by rewrite app_nil_r.
    + rewrite H1. simpl. rewrite Hn. simpl. rewrite Ha. simpl.
      rewrite <- ?HlN, <- ?HrN.
      assert (match L, R with
              | E, E => Some ([], l)
              | _, _ =>
                if intKeyOf t l <=? x2
                then match rootOf L, rightWalk t x2 R with
                     | Some r, Some (c, f) => Some (r :: c, f)
                     | _, _ => None
                     end
                else rightWalk t x2 L
              end
              = if intKeyOf t l <=? x2
                then match rootOf L, rightWalk t x2 R with
                     | Some r, Some (c, f) => Some (r :: c, f)
                     | _, _ => None
                     end
                else rightWalk t x2 L) as ->.
      { destruct L, R; done. }
      destruct (intKeyOf t l <=? x2).
      * destruct L as [|ll LL LR]; [reflexivity|].
        pose proof HL as HL'.
        apply is_tree_node_inv in HL' as (nl & ? & ? & ? & Hnl & _).
        simpl. rewrite Hnl. simpl.
        rewrite (IHR _ fuel (acc ++ [nl]) HR HkR); [|lia].
        destruct (rightWalk t x2 R) as [[c f]|]; [|done].
        rewrite (nodesAt_cons _ _ _ _ Hnl). by rewrite <- app_assoc.
      * apply IHL; [done|done|lia].
Qed.

Lemma treeOf_is_tree fuel t p s : treeOf fuel t p = Some s -> is_tree t p s.
Proof.
  revert p s. induction fuel as [|fuel IH]; intros p s H; [done|].
  simpl in H. destruct p as [l|]; [|injection H as <-; constructor].
  destruct (nodes t !! l) as [n|] eqn:Hn; [|done].
  destruct (treeOf fuel t (Left n)) as [L|] eqn:HL; [|done].
  destruct (treeOf fuel t (Right n)) as [R|] eqn:HR; [|done].
  injection H as <-. econstructor; eauto.
Qed.

Lemma sampleTree_is_tree : is_tree sampleTree (Root sampleTree) sampleShape.
Proof. apply (treeOf_is_tree 10). vm_compute. reflexivity. Qed.

Lemma sampleTree_intKeyed : intKeyed sampleTree sampleShape.
Proof.
  unfold intKeyed. simpl.
  repeat (apply Forall_cons; split; [eexists; reflexivity|]).
  apply Forall_nil. done.
Qed.

Lemma leftPart_on_shape fuel t v L R x1 x2 :
  is_tree t (Some v) (N v L R) ->
  intKeyed t (N v L R) ->
  (height (N v L R) <= fuel)%nat ->
  leftPart fuel t (Some v) x1 x2
  = match L, R with
    | E, E =>
      Ok (nodesAt t (lastIfInRange t x1 x2 v ++ lastIfInRange t x1 x2 v))
    | _, _ =>
      match leftWalk t x1 L with
      | Some (c, f) => Ok (nodesAt t (c ++ lastIfInRange t x1 x2 f))
      | None => Panic
      end
    end.
Proof.
  intros Ht Hk Hf.
  pose proof (is_tree_good _ _ _ Ht Hk) as Hg.
  apply is_tree_node_inv in Ht as (n & L' & R' & Heq & Hn & HL & HR).
  injection Heq as <- <-.
  apply intKeyed_node in Hk as ([i Hi] & HkL & HkR).
  pose proof (is_tree_rootOf _ _ _ HL) as HlN.
  pose proof (is_tree_rootOf _ _ _ HR) as HrN.
  assert (goodLoc t v) as Hv.
  { simpl in Hg. apply Forall_app in Hg as [_ Hg].
    by apply Forall_cons_iff in Hg as [? _]. }
  simpl in Hf.
  unfold leftPart. rewrite (isLeaf_node _ _ _ Hn). rewrite <- HlN, <- HrN.
  assert (rootOf L = None /\ rootOf R = None /\ L = E /\ R = E \/
          (match rootOf R, rootOf L with
           | None, None => true | _, _ => false end = false
           /\ match L, R with E, E => False | _, _ => True end))
    as [(H1 & H2 & -> & ->)|[H1 H2]].
  { destruct L, R; simpl; auto 10. }
  - destruct fuel as [|fuel]; [lia|].
    simpl rootOf. cbn iota beta. simpl rbind at 1.
    rewrite (appendIfInRange_good t v x1 x2 [] Hv). simpl rbind at 1.
    cbn [fst snd]. cbn [goingLeft]. rewrite (isLeaf_node _ _ _ Hn).
    rewrite <- HlN, <- HrN. simpl rbind at 1. cbn [negb fst snd].
    rewrite (appendIfInRange_good t v x1 x2 _ Hv).
    by rewrite nodesAt_app.
  - rewrite H1. simpl rbind at 1. simpl. rewrite Hn. simpl.
    rewrite (goingLeft_on_shape t x1 L _ fuel [] HL HkL); [|lia].
    assert (match L, R with
            | E, E =>
              Ok (nodesAt t (lastIfInRange t x1 x2 v ++ lastIfInRange t x1 x2 v))
            | _, _ =>
              match leftWalk t x1 L with
              | Some (c, f) => Ok (nodesAt t (c ++ lastIfInRange t x1 x2 f))
              | None => Panic
              end
            end
            = match leftWalk t x1 L with
              | Some (c, f) => Ok (nodesAt t (c ++ lastIfInRange t x1 x2 f))
              | None => Panic
              end) as ->.
    { destruct L, R; done. }
    destruct (leftWalk t x1 L) as [[c f]|] eqn:Hw; [|done].
    simpl.
    destruct (leftWalk_good t x1 L c f) as [_ Hgf]; [|done|].
    { simpl in Hg. by apply Forall_app in Hg as [? _]. }
    rewrite (appendIfInRange_good t f x1 x2 _ Hgf).
    by rewrite nodesAt_app.
Qed.

Lemma rightPart_on_shape fuel t v L R x1 x2 acc :
  is_tree t (Some v) (N v L R) ->
  intKeyed t (N v L R) ->
  (height (N v L R) <= fuel)%nat ->
  rightPart fuel t (Some v) x1 x2 acc
  = match rightWalk t x2 R with
    | Some (c, f) => Ok (acc ++ nodesAt t (c ++ lastIfInRange t x1 x2 f))
    | None => Panic
    end.
Proof.
  intros Ht Hk Hf.
  pose proof (is_tree_good _ _ _ Ht Hk) as Hg.
  apply is_tree_node_inv in Ht as (n & L' & R' & Heq & Hn & HL & HR).
  injection Heq as <- <-.
  apply intKeyed_node in Hk as ([i Hi] & HkL & HkR).
  simpl in Hf. unfold rightPart. simpl. rewrite Hn. simpl.
  rewrite (goingRight_on_shape t x2 R _ fuel acc HR HkR); [|lia].
  destruct (rightWalk t x2 R) as [[c f]|] eqn:Hw; [|done].
  simpl.
  destruct (rightWalk_good t x2 R c f) as [_ Hgf]; [|done|].
  { simpl in Hg. apply Forall_app in Hg as [_ Hg].
    by apply Forall_cons_iff in Hg as [_ ?]. }
  rewrite (appendIfInRange_good t f x1 x2 _ Hgf).
  by rewrite nodesAt_app, app_assoc.
Qed.

Lemma splitShape_sub t x1 x2 s :
  forall p,
    is_tree t p s -> intKeyed t s ->
    is_tree t (rootOf (splitShape t x1 x2 s)) (splitShape t x1 x2 s)
    /\ intKeyed t (splitShape t x1 x2 s)
    /\ (height (splitShape t x1 x2 s) <= height s)%nat.
Proof.
  induction s as [|l L IHL R IHR]; intros p Ht Hk.
  - simpl. split; [constructor|]. split; [done|lia].
  - pose proof (is_tree_rootOf _ _ _ Ht) as Hp. simpl in Hp. subst p.
    pose proof Ht as Ht'.
    apply is_tree_node_inv in Ht' as (n & L' & R' & Heq & Hn & HL & HR).
    injection Heq as <- <-.
    pose proof Hk as Hk'.
    apply intKeyed_node in Hk' as (_ & HkL & HkR).
    cbn [splitShape]. destruct (keyInRange t x1 x2 l).
    + split; [exact Ht|]. split; [done|lia].
    + destruct L as [|ll LL LR].
      * destruct (IHR _ HR HkR) as (? & ? & ?).
        split; [done|]. split; [done|]. simpl. lia.
      * destruct (IHL _ HL HkL) as (? & ? & ?).
        split; [done|]. split; [done|].
        change (height (N l (N ll LL LR) R))
          with (S (Nat.max (height (N ll LL LR)) (height R))). lia.
Qed.

Lemma Forall_good_node t l L R :
  Forall (goodLoc t) (inorder (N l L R)) ->
  Forall (goodLoc t) (inorder L) /\ goodLoc t l
  /\ Forall (goodLoc t) (inorder R).
Proof.
  simpl. rewrite Forall_app, Forall_cons_iff. tauto.
Qed.

Lemma lastIfInRange_good t x1 x2 f :
  goodLoc t f -> Forall (goodLoc t) (lastIfInRange t x1 x2 f).
Proof.
  intros Hf. unfold lastIfInRange.
  destruct (keyInRange t x1 x2 f); repeat constructor; done.
Qed.

Lemma getValuesInRange_on_shape fuel t s x1 x2 :
  is_tree t (Root t) s ->
  intKeyed t s ->
  (height s < fuel)%nat ->
  getValuesInRange fuel t x1 x2
  = match collected t x1 x2 s with
    | Some ls => Ok (map (intKeyOf t) ls)
    | None => Panic
    end.
Proof.
  intros Ht Hk Hf. unfold getValuesInRange.
  destruct s as [|r L0 R0].
  { apply is_tree_rootOf in Ht. simpl in Ht. rewrite <- Ht.
    destruct fuel; [lia|]. reflexivity. }
  rewrite (getSplitNode_on_shape t x1 x2 _ _ fuel Ht Hk); [|done|lia].
  destruct (splitShape_sub t x1 x2 _ _ Ht Hk) as (Hst & Hsk & Hsh).
  unfold collected.
  destruct (splitShape t x1 x2 (N r L0 R0)) as [|v L R] eqn:Hsp; [done|].
  simpl rootOf in *. cbn [rbind]. cbn iota beta.
  pose proof (is_tree_good _ _ _ Hst Hsk) as Hg.
  apply Forall_good_node in Hg as (HgL & Hgv & HgR).
  assert (height (N v L R) <= fuel)%nat as Hfv by lia.
  pose proof (leftPart_on_shape fuel t v L R x1 x2 Hst Hsk Hfv) as HLp.
  pose proof (fun acc =>
    rightPart_on_shape fuel t v L R x1 x2 acc Hst Hsk Hfv) as HRp.
  rewrite HLp. clear HLp.
  assert (forall T (a b : T),
            match L, R with E, E => a | _, _ => b end
            = if bool_decide (L = E /\ R = E) then a else b) as Hm.
  { intros T a b. destruct L, R; reflexivity. }
  rewrite !Hm. clear Hm. case_bool_decide as HLR.
  - destruct HLR as [-> ->]. simpl rbind at 1. rewrite HRp. reflexivity.
  - destruct (leftWalk t x1 L) as [[c1 f1]|] eqn:Hw1; [|reflexivity].
    simpl rbind at 1. rewrite HRp.
    destruct (rightWalk t x2 R) as [[c2 f2]|] eqn:Hw2; [|reflexivity].
    simpl rbind at 1.
    destruct (leftWalk_good _ _ _ _ _ HgL Hw1) as [Hc1 Hf1].
    destruct (rightWalk_good _ _ _ _ _ HgR Hw2) as [Hc2 Hf2].
    rewrite <- nodesAt_app, <- app_assoc.
    apply keysOf_nodesAt.
    repeat (apply Forall_app; split); auto using lastIfInRange_good.
Qed.

(** C4, counterexample: in the sample tree queried with [[19, 77]] the
    left path starts at the node of key 23 (left child of the split node
    49, not flagged as a leaf, and 19 <= 23); its right subtree holds the
    keys 30, 37 and 49, and of these only 37, the key of the subtree's
    root, is in the result. *)
Lemma right_subtree_keys_missing :
  getSplitNode 10 sampleTree (Root sampleTree) 19 77 = Ok (Some 25%positive)
  /\ nodes sampleTree !! 25%positive
     = Some (innerNode 49 (Some 23%positive) (Some 24%positive))
  /\ nodes sampleTree !! 23%positive
     = Some (innerNode 23 (Some 19%positive) (Some 20%positive))
  /\ is_tree sampleTree (Some 20%positive)
       (N 20 (N 15 (N 5 E E) (N 6 E E)) (N 7 E E))
  /\ map (intKeyOf sampleTree)
       (inorder (N 20 (N 15 (N 5 E E) (N 6 E E)) (N 7 E E)))
     = [30; 30; 37; 37; 49]
  /\ getValuesInRange 10 sampleTree 19 77 = Ok [37; 23; 19; 59; 70]
  /\ ~ In 30 [37; 23; 19; 59; 70]
  /\ ~ In 49 [37; 23; 19; 59; 70].
Proof.
  split; [reflexivity|]. split; [reflexivity|]. split; [reflexivity|].
  split; [apply (treeOf_is_tree 5); reflexivity|].
  split; [reflexivity|]. split; [vm_compute; reflexivity|].
  split; simpl; intros H; repeat (destruct H as [H|H]; [lia|]); exact H.
Qed.

(** C4, as amended: when the split node [v] has a child, the left path
    starts at its left child; at every node that has a child (the field
    [Leaf] is not looked at) the walk, if [x1 <= key], collects the right
    child node alone and goes left, and else goes right; at a childless
    node it stops and collects that node exactly when its key is in
    [[x1, x2]]; dereferencing a missing child on the way panics.  This is
    [leftWalk] on the left subtree [L] of the split node. *)
Theorem left_path_collects fuel t v L R x1 x2 :
  is_tree t (Some v) (N v L R) ->
  intKeyed t (N v L R) ->
  (height (N v L R) <= fuel)%nat ->
  L <> E \/ R <> E ->
  leftPart fuel t (Some v) x1 x2
  = match leftWalk t x1 L with
    | Some (c, f) => Ok (nodesAt t (c ++ lastIfInRange t x1 x2 f))
    | None => Panic
    end.
Proof.
  intros Ht Hk Hf Hne.
  rewrite (leftPart_on_shape fuel t v L R x1 x2 Ht Hk Hf).
  destruct L, R; try done. destruct Hne; done.
Qed.

Lemma left_path_collects_witness :
  leftPart 10 sampleTree (Some 25%positive) 19 77
  = Ok (nodesAt sampleTree [20; 4; 3]%positive).
Proof.
  apply (left_path_collects 10 sampleTree 25%positive sampleLeft sampleRight
           19 77 sampleTree_is_tree sampleTree_intKeyed).
  - simpl. lia.
  - left. discriminate.
Defined.

(** C5, counterexample: the sample tree queried with [[19, 77]] gives
    37, 23, 19, 59, 70, which is neither increasing nor decreasing. *)
Lemma range_query_result_not_sorted :
  getValuesInRange 10 sampleTree 19 77 = Ok [37; 23; 19; 59; 70]
  /\ ~ Sorted Z.le [37; 23; 19; 59; 70]
  /\ ~ Sorted Z.ge [37; 23; 19; 59; 70].
Proof.
  split; [vm_compute; reflexivity|].
  split; intros H.
  - inversion H as [|? ? _ Hd]; subst. inversion Hd; subst. lia.
  - inversion H as [|? ? H1 _]; subst.
    inversion H1 as [|? ? H2 _]; subst.
    inversion H2 as [|? ? _ Hd]; subst. inversion Hd; subst. lia.
Qed.

(** C5, as amended: on a tree of [int] keys the query returns one key for
    every collected node, in the order of collection: the nodes of the
    left path, then those of the right path (each path's stopping node
    last, when in range); the list is not sorted in general, and the query
    panics when a walk dereferences a missing child.  Every returned key
    is the key of a node of the tree. *)
Theorem range_query_keys_in_collection_order fuel t s x1 x2 :
  is_tree t (Root t) s ->
  intKeyed t s ->
  (height s < fuel)%nat ->
  getValuesInRange fuel t x1 x2
  = match collected t x1 x2 s with
    | Some ls => Ok (map (intKeyOf t) ls)
    | None => Panic
    end
  /\ forall ls, collected t x1 x2 s = Some ls ->
                Forall (fun l => In l (inorder s)) ls.
Proof.
  intros Ht Hk Hf. split; [by apply getValuesInRange_on_shape|].
  intros ls. apply collected_Forall. apply Forall_forall.
  intros l Hl. by apply list_elem_of_In.
Qed.

Lemma range_query_keys_in_collection_order_witness :
  getValuesInRange 10 sampleTree 19 77
  = Ok (map (intKeyOf sampleTree) [20; 4; 3; 16; 10]%positive).
Proof.
  refine (proj1 (range_query_keys_in_collection_order 10 sampleTree sampleShape 19 77
           sampleTree_is_tree sampleTree_intKeyed _)).
  simpl. lia.
Defined.

Lemma split_node_is_first_in_range_witness :
  getSplitNode 10 sampleTree (Root sampleTree) 50 60 = Ok None
  /\ (@None loc = None -> getValuesInRange 10 sampleTree 50 60 = Ok []).
Proof.
  apply (split_node_is_first_in_range 10 sampleTree sampleShape 50 60).
  - discriminate.
  - exact sampleTree_is_tree.
  - exact sampleTree_intKeyed.
  - simpl. lia.
Defined.

(** ** Running code on the arena *)

Lemma bind_getf {A B} (f : Node -> A) (k : A -> M B) t l n :
  nodes t !! l = Some n -> bind (getf f (Some l)) k t = k (f n) t.
Proof.
  intros H. unfold bind, getf, read, deref. simpl. rewrite H. reflexivity.
Qed.

Lemma getf_ok {A} (f : Node -> A) t l n :
  nodes t !! l = Some n -> getf f (Some l) t = Ok (f n, t).
Proof. intros H. unfold getf, read, deref. simpl. rewrite H. reflexivity. Qed.

Lemma modify_upd f t l n :
  nodes t !! l = Some n -> modify f (Some l) t = Ok (tt, upd l f t).
Proof. intros H. unfold modify, upd. rewrite H. reflexivity. Qed.

Lemma bind_modify {B} f (k : unit -> M B) t l n :
  nodes t !! l = Some n -> bind (modify f (Some l)) k t = k tt (upd l f t).
Proof. intros H. unfold bind. rewrite (modify_upd _ _ _ _ H). reflexivity. Qed.

Lemma bind_setRoot {B} p (k : unit -> M B) t :
  bind (setRoot p) k t = k tt (mkTree p (cmp t) (nodes t)).
Proof. reflexivity. Qed.

Lemma bind_getRoot {B} (k : ptr -> M B) t : bind getRoot k t = k (Root t) t.
Proof. reflexivity. Qed.

Lemma bind_ret {A B} (a : A) (k : A -> M B) t : bind (ret a) k t = k a t.
Proof. reflexivity. Qed.

Lemma bind_bind {A B C} (m : M A) (f : A -> M B) (k : B -> M C) t :
  bind (bind m f) k t = bind m (fun a => bind (f a) k) t.
Proof. unfold bind. destruct (m t) as [[a t']| |]; reflexivity. Qed.

Lemma bind_read {A B} (f : Tree -> res A) (k : A -> M B) t a :
  f t = Ok a -> bind (read f) k t = k a t.
Proof. intros H. unfold bind, read. rewrite H. reflexivity. Qed.

Lemma lookup_upd t l f l' :
  nodes (upd l f t) !! l'
  = if decide (l' = l) then f <$> (nodes t !! l) else nodes t !! l'.
Proof.
  unfold upd. destruct (nodes t !! l) as [n|] eqn:Hn; simpl.
  - destruct (decide (l' = l)) as [->|Hne].
    + by rewrite lookup_insert_eq.
    + by rewrite lookup_insert_ne.
  - destruct (decide (l' = l)) as [->|Hne]; [by rewrite Hn|done].
Qed.

Lemma lookup_upd_eq t l f n :
  nodes t !! l = Some n -> nodes (upd l f t) !! l = Some (f n).
Proof. intros H. rewrite lookup_upd, decide_True by done. by rewrite H. Qed.

Lemma lookup_upd_ne t l f l' :
  l' <> l -> nodes (upd l f t) !! l' = nodes t !! l'.
Proof. intros H. by rewrite lookup_upd, decide_False. Qed.

Lemma Root_upd t l f : Root (upd l f t) = Root t.
Proof. unfold upd. by destruct (nodes t !! l). Qed.

Lemma cmp_upd t l f : cmp (upd l f t) = cmp t.
Proof. unfold upd. by destruct (nodes t !! l). Qed.

Lemma dom_upd t l f : dom (nodes (upd l f t)) = dom (nodes t).
Proof.
  unfold upd. destruct (nodes t !! l) as [n|] eqn:Hn; [|done]. simpl.
  rewrite dom_insert_L. apply elem_of_dom_2 in Hn. set_solver.
Qed.

(** ** Shapes in the arena *)

Lemma rep_rootOf t par p s : rep t par p s -> p = rootOf s.
Proof. destruct s; simpl; [done|]. by intros [-> _]. Qed.

Lemma rep_is_tree t s : forall par p, rep t par p s -> is_tree t p s.
Proof.
  induction s as [|l L IHL R IHR]; intros par p H; simpl in H.
  - subst. constructor.
  - destruct H as (-> & n & Hn & _ & HL & HR). econstructor; eauto.
Qed.

Lemma rep_agree t t' s :
  forall par p,
    (forall l, In l (inorder s) -> nodes t' !! l = nodes t !! l) ->
    rep t par p s -> rep t' par p s.
Proof.
  induction s as [|l L IHL R IHR]; intros par p Hag H; simpl in *; [done|].
  destruct H as (-> & n & Hn & Hp & HL & HR).
  split; [done|]. exists n.
  split; [rewrite Hag; [done|]; apply in_or_app; right; by left|].
  split; [done|].
  split; [apply IHL|apply IHR]; try done;
    intros l' Hl'; apply Hag, in_or_app; [by left|right; by right].
Qed.

Lemma rep_upd t l f s :
  keepsLinks f ->
  forall par p, rep t par p s -> rep (upd l f t) par p s.
Proof.
  intros Hf. induction s as [|l0 L IHL R IHR]; intros par p H; simpl in *;
    [done|].
  destruct H as (-> & n & Hn & Hp & HL & HR).
  split; [done|].
  destruct (decide (l0 = l)) as [->|Hne].
  - exists (f n). rewrite (lookup_upd_eq _ _ _ _ Hn).
    destruct (Hf n) as (-> & -> & ->). repeat split; auto.
  - exists n. rewrite lookup_upd_ne by done. repeat split; auto.
Qed.

Lemma repCtx_agree t t' C :
  forall hole,
    Root t' = Root t ->
    (forall l, In l (ctxLocs C) -> nodes t' !! l = nodes t !! l) ->
    repCtx t C hole -> repCtx t' C hole.
Proof.
  unfold ctxLocs.
  induction C as [|C IH l R|C IH l L]; intros hole Hr Hag H; simpl in *.
  - congruence.
  - destruct H as (n & Hn & Hl & Hp & HR & HC). exists n.
    split; [rewrite Hag; [done|]; apply in_or_app; right; by left|].
    split; [done|]. split; [done|].
    split.
    + apply (rep_agree t); [|done]. intros l' Hl'. apply Hag.
      apply in_or_app. right. right. apply in_or_app. by left.
    + apply IH; [done| |done]. intros l' Hl'. apply Hag.
      apply in_app_or in Hl' as [Hl'|Hl']; apply in_or_app; [by left|].
      right. right. apply in_or_app. by right.
  - destruct H as (n & Hn & Hl & Hp & HL & HC). exists n.
    split; [rewrite Hag; [done|]; rewrite !in_app_iff; simpl; tauto|].
    split; [done|]. split; [done|].
    split.
    + apply (rep_agree t); [|done]. intros l' Hl'. apply Hag.
      rewrite !in_app_iff. tauto.
    + apply IH; [done| |done]. intros l' Hl'. apply Hag.
      rewrite !in_app_iff in *. tauto.
Qed.

Lemma repCtx_upd t l f C :
  keepsLinks f ->
  forall hole, repCtx t C hole -> repCtx (upd l f t) C hole.
Proof.
  intros Hf. induction C as [|C IH l0 R|C IH l0 L]; intros hole H;
    simpl in *.
  - by rewrite Root_upd.
  - destruct H as (n & Hn & Hl & Hp & HR & HC).
    destruct (decide (l0 = l)) as [->|Hne].
    + exists (f n). rewrite (lookup_upd_eq _ _ _ _ Hn).
      destruct (Hf n) as (-> & -> & ->). repeat split; auto using rep_upd.
    + exists n. rewrite lookup_upd_ne by done. repeat split; auto using rep_upd.
  - destruct H as (n & Hn & Hl & Hp & HL & HC).
    destruct (decide (l0 = l)) as [->|Hne].
    + exists (f n). rewrite (lookup_upd_eq _ _ _ _ Hn).
      destruct (Hf n) as (-> & -> & ->). repeat split; auto using rep_upd.
    + exists n. rewrite lookup_upd_ne by done. repeat split; auto using rep_upd.
Qed.

Lemma inorder_plug C :
  forall s, inorder (plug C s) = ctxBefore C ++ inorder s ++ ctxAfter C.
Proof.
  induction C as [|C IH l R|C IH l L]; intros s; simpl.
  - by rewrite app_nil_r.
  - rewrite IH. simpl. by rewrite <- !app_assoc.
  - rewrite IH. simpl. by rewrite <- !app_assoc.
Qed.

Lemma plug_capp Cout Cin :
  forall s, plug (capp Cout Cin) s = plug Cout (plug Cin s).
Proof.
  induction Cin as [|C IH l R|C IH l L]; intros s; simpl; [done|apply IH..].
Qed.

Lemma rep_plug t C :
  forall s,
    rep t None (Root t) (plug C s)
    <-> repCtx t C (rootOf s) /\ rep t (holeParent C) (rootOf s) s.
Proof.
  induction C as [|C IH l R|C IH l L]; intros s; simpl.
  - split.
    + intros H. pose proof (rep_rootOf _ _ _ _ H) as Hr.
      split; [done|]. by rewrite <- Hr.
    + intros [Hr H]. by rewrite Hr.
  - rewrite IH. simpl. split.
    + intros (HC & _ & n & Hn & Hp & HL & HR).
      pose proof (rep_rootOf _ _ _ _ HL) as Hl.
      split; [exists n; auto 10|]. by rewrite <- Hl.
    + intros ((n & Hn & Hl & Hp & HR & HC) & HL).
      split; [done|]. split; [done|]. exists n. rewrite Hl. auto.
  - rewrite IH. simpl. split.
    + intros (HC & _ & n & Hn & Hp & HL & HR).
      pose proof (rep_rootOf _ _ _ _ HR) as Hr.
      split; [exists n; auto 10|]. by rewrite <- Hr.
    + intros ((n & Hn & Hr & Hp & HL & HC) & HR).
      split; [done|]. split; [done|]. exists n. rewrite Hr. auto.
Qed.

Lemma wf_inTree t C s : wf t (plug C s) <-> inTree t C s.
Proof.
  unfold wf, inTree. rewrite rep_plug, inorder_plug. tauto.
Qed.

Lemma wf_inTree_Top t s : wf t s <-> inTree t Top s.
Proof. apply (wf_inTree t Top s). Qed.

(** Every node of a tree is the root of a subtree in some context. *)
Lemma decompose s x :
  In x (inorder s) -> exists C L R, s = plug C (N x L R).
Proof.
  induction s as [|l L0 IHL R0 IHR]; intros Hx; [done|].
  simpl in Hx. apply in_app_or in Hx as [Hx|[->|Hx]].
  - destruct (IHL Hx) as (C & L & R & ->).
    exists (capp (InL Top l R0) C), L, R. by rewrite plug_capp.
  - by exists Top, L0, R0.
  - destruct (IHR Hx) as (C & L & R & ->).
    exists (capp (InR Top l L0) C), L, R. by rewrite plug_capp.
Qed.

Lemma height_plug_ge C : forall s, (height s <= height (plug C s))%nat.
Proof.
  induction C as [|C IH l R|C IH l L]; intros s; simpl; [lia|..].
  - specialize (IH (N l s R)). simpl in IH. lia.
  - specialize (IH (N l L s)). simpl in IH. lia.
Qed.

Lemma depth_plug_le C :
  forall s, (ctxDepth C + height s <= height (plug C s))%nat.
Proof.
  induction C as [|C IH l R|C IH l L]; intros s; simpl; [lia|..].
  - specialize (IH (N l s R)). simpl in IH. lia.
  - specialize (IH (N l L s)). simpl in IH. lia.
Qed.

(** *** The pointer into the hole *)

Lemma Root_setSlot_Top v t : Root (setSlot Top v t) = v.
Proof. reflexivity. Qed.

Lemma cmp_setSlot C v t : cmp (setSlot C v t) = cmp t.
Proof. destruct C; simpl; [done|apply cmp_upd..]. Qed.

Lemma dom_setSlot C v t : dom (nodes (setSlot C v t)) = dom (nodes t).
Proof. destruct C; simpl; [done|apply dom_upd..]. Qed.

Lemma lookup_setSlot_ne C v t l :
  holeParent C <> Some l -> nodes (setSlot C v t) !! l = nodes t !! l.
Proof.
  destruct C; simpl; intros H; [done|..];
    apply lookup_upd_ne; congruence.
Qed.

Lemma NoDup_ctxLocs C X :
  NoDup (ctxBefore C ++ X ++ ctxAfter C) -> NoDup (ctxLocs C).
Proof.
  unfold ctxLocs. rewrite !NoDup_app. set_solver.
Qed.

Lemma repCtx_setSlot t C hole v :
  NoDup (ctxLocs C) ->
  repCtx t C hole -> repCtx (setSlot C v t) C v.
Proof.
  unfold ctxLocs.
  destruct C as [|C l R|C l L]; simpl; intros Hnd H; [done|..].
  - destruct H as (n & Hn & Hl & Hp & HR & HC).
    exists (withLeft v n). rewrite (lookup_upd_eq _ _ _ _ Hn).
    split; [done|]. split; [done|]. split; [done|].
    apply NoDup_app in Hnd as (_ & Hd & Hnd).
    apply NoDup_cons in Hnd as (Hl1 & Hnd).
    split.
    + apply (rep_agree t); [|done]. intros l' Hl'.
      apply lookup_upd_ne. intros ->. apply Hl1.
      apply list_elem_of_In, in_or_app. by left.
    + apply (repCtx_agree t); [apply Root_upd| |done].
      intros l' Hl'. apply lookup_upd_ne. intros ->.
      apply in_app_or in Hl' as [Hl'|Hl'].
      * apply (Hd l); [by apply list_elem_of_In|]. by left.
      * apply Hl1. apply list_elem_of_In, in_or_app. by right.
  - destruct H as (n & Hn & Hl & Hp & HL & HC).
    exists (withRight v n). rewrite (lookup_upd_eq _ _ _ _ Hn).
    split; [done|]. split; [done|]. split; [done|].
    apply NoDup_app in Hnd as (Hnd & Hd & _).
    rewrite app_assoc in Hnd.
    apply NoDup_app in Hnd as (_ & Hd2 & _).
    split.
    + apply (rep_agree t); [|done]. intros l' Hl'.
      apply lookup_upd_ne. intros ->.
      apply (Hd2 l); [|by left].
      apply list_elem_of_In, in_or_app. by right.
    + apply (repCtx_agree t); [apply Root_upd| |done].
      intros l' Hl'. apply lookup_upd_ne. intros ->.
      apply in_app_or in Hl' as [Hl'|Hl'].
      * apply (Hd2 l); [|by left].
        apply list_elem_of_In, in_or_app. by left.
      * apply (Hd l); [|by apply list_elem_of_In].
        apply list_elem_of_In. rewrite !in_app_iff. simpl. tauto.
Qed.

Lemma holeParent_in C p : holeParent C = Some p -> In p (ctxLocs C).
Proof.
  unfold ctxLocs. destruct C; simpl; [done|..]; intros [= ->];
    rewrite !in_app_iff; simpl; tauto.
Qed.

Lemma rootOf_in s l : rootOf s = Some l -> In l (inorder s).
Proof.
  destruct s; simpl; [done|]. intros [= ->]. apply in_or_app. right. by left.
Qed.

Lemma ptr_eqb_refl p : ptr_eqb p p = true.
Proof. unfold ptr_eqb. by rewrite bool_decide_true. Qed.

Lemma ptr_eqb_ne p q : p <> q -> ptr_eqb p q = false.
Proof. unfold ptr_eqb. intros. by rewrite bool_decide_false. Qed.

(** The code that makes the parent of [u] (or the root pointer) point to
    [v]; it is the same in both rotations and in [transplant]. *)
Lemma bind_slot_update {B} t C u nu v (k : unit -> M B) :
  repCtx t C (Some u) ->
  nodes t !! u = Some nu ->
  parent nu = holeParent C ->
  ~ In u (ctxLocs C) ->
  bind (getf parent (Some u))
    (fun up =>
       bind (match up with
             | None => setRoot v
             | Some _ =>
               bind (getf Left up)
                 (fun upl =>
                    if ptr_eqb (Some u) upl then modify (withLeft v) up
                    else modify (withRight v) up)
             end) k) t
  = k tt (setSlot C v t).
Proof.
  intros HC Hu Hp Hnin.
  rewrite (bind_getf _ _ _ _ _ Hu), Hp.
  destruct C as [|C p R|C p L]; simpl in *.
  - reflexivity.
  - destruct HC as (np & Hnp & Hl & _).
    rewrite bind_bind, (bind_getf _ _ _ _ _ Hnp), Hl, ptr_eqb_refl.
    by rewrite (bind_modify _ _ _ _ _ Hnp).
  - destruct HC as (np & Hnp & Hr & _ & HL & _).
    rewrite bind_bind, (bind_getf _ _ _ _ _ Hnp).
    rewrite ptr_eqb_ne.
    + by rewrite (bind_modify _ _ _ _ _ Hnp).
    + intros Heq. apply Hnin. unfold ctxLocs. simpl.
      apply rep_rootOf in HL. rewrite HL in Heq. symmetry in Heq.
      apply rootOf_in in Heq. rewrite !in_app_iff. tauto.
Qed.

Lemma lookup_reparent_ne p par t l :
  p <> Some l -> nodes (reparent p par t) !! l = nodes t !! l.
Proof.
  destruct p as [b|]; simpl; intros H; [|done].
  apply lookup_upd_ne. congruence.
Qed.

Lemma Root_reparent p par t : Root (reparent p par t) = Root t.
Proof. destruct p; simpl; [apply Root_upd|done]. Qed.

Lemma rep_reparent t s par par' :
  NoDup (inorder s) ->
  rep t par (rootOf s) s ->
  rep (reparent (rootOf s) par' t) par' (rootOf s) s.
Proof.
  destruct s as [|b B1 B2]; simpl; [done|].
  intros Hnd (_ & n & Hn & _ & H1 & H2).
  split; [done|]. exists (withParent par' n).
  rewrite (lookup_upd_eq _ _ _ _ Hn). split; [done|]. split; [done|].
  rewrite NoDup_app, NoDup_cons in Hnd.
  split; (apply (rep_agree t); [|done]); intros l Hl;
    apply lookup_upd_ne; apply list_elem_of_In in Hl; set_solver.
Qed.

Ltac lk :=
  lazymatch goal with
  | |- nodes (upd ?l _ _) !! ?l = Some _ => apply lookup_upd_eq; lk
  | |- nodes (upd _ _ _) !! _ = Some _ =>
    rewrite lookup_upd_ne by congruence; lk
  | |- nodes (setSlot _ _ _) !! _ = Some _ =>
    rewrite lookup_setSlot_ne by congruence; lk
  | |- nodes (reparent _ _ _) !! _ = Some _ =>
    rewrite lookup_reparent_ne by congruence; lk
  | |- _ => eassumption
  end.

Ltac fields :=
  cbn [Left Right parent color Key payload Leaf
       withLeft withRight withParent withColor withKeyPayload];
  repeat match goal with
  | H : Left ?n = _ |- context [Left ?n] => rewrite H
  | H : Right ?n = _ |- context [Right ?n] => rewrite H
  | H : parent ?n = _ |- context [parent ?n] => rewrite H
  | H : color ?n = _ |- context [color ?n] => rewrite H
  end.

Ltac step :=
  first
  [ rewrite bind_ret
  | rewrite bind_getRoot
  | rewrite bind_setRoot
  | rewrite bind_bind
  | erewrite bind_getf by lk
  | erewrite bind_modify by lk ];
  cbn beta iota; fields.

Ltac unfold_accessors :=
  unfold getLeft, getRight, getParent, getColor, setLeft, setRight,
    setParent, setColor, setPayload.

(** *** Data that stays *)

Lemma sameData_refl t : sameData t t.
Proof. split; [done|]. split; [done|]. intros l n Hn. exists n. auto. Qed.

Lemma sameData_trans t1 t2 t3 :
  sameData t1 t2 -> sameData t2 t3 -> sameData t1 t3.
Proof.
  intros (Hc1 & Hd1 & H1) (Hc2 & Hd2 & H2).
  split; [congruence|]. split; [congruence|].
  intros l n Hn. destruct (H1 l n Hn) as (n' & Hn' & ? & ? & ? & ?).
  destruct (H2 l n' Hn') as (n'' & Hn'' & ? & ? & ? & ?).
  exists n''. repeat split; congruence.
Qed.

Lemma sameData_upd t l f : keepsData f -> sameData t (upd l f t).
Proof.
  intros Hf. split; [apply cmp_upd|]. split; [apply dom_upd|].
  intros l' n Hn. destruct (decide (l' = l)) as [->|Hne].
  - exists (f n). rewrite (lookup_upd_eq _ _ _ _ Hn).
    destruct (Hf n) as (? & ? & ? & ?). auto.
  - exists n. rewrite lookup_upd_ne by done. auto.
Qed.

Lemma keepsData_withLeft v : keepsData (withLeft v).
Proof. intros n. auto. Qed.
Lemma keepsData_withRight v : keepsData (withRight v).
Proof. intros n. auto. Qed.
Lemma keepsData_withParent v : keepsData (withParent v).
Proof. intros n. auto. Qed.
Lemma keepsLinks_withColor c : keepsLinks (withColor c).
Proof. intros n. auto. Qed.
Lemma keepsLinks_withKeyPayload d : keepsLinks (withKeyPayload d).
Proof. intros n. auto. Qed.

Lemma sameData_setRoot t v : sameData t (mkTree v (cmp t) (nodes t)).
Proof. split; [done|]. split; [done|]. intros l n Hn. exists n. auto. Qed.

Lemma sameData_setSlot t C v : sameData t (setSlot C v t).
Proof.
  destruct C; simpl;
    auto using sameData_setRoot, sameData_upd, keepsData_withLeft,
      keepsData_withRight.
Qed.

Lemma sameData_reparent t p par : sameData t (reparent p par t).
Proof.
  destruct p; simpl; auto using sameData_refl, sameData_upd,
    keepsData_withParent.
Qed.

Lemma sameData_colorOf t t' p :
  sameData t t' -> colorOf t' p = colorOf t p.
Proof.
  intros (_ & Hd & H). destruct p as [l|]; [|done]. simpl.
  destruct (nodes t !! l) as [n|] eqn:Hn.
  - destruct (H l n Hn) as (n' & -> & _ & _ & ? & _). done.
  - apply not_elem_of_dom in Hn. rewrite <- Hd in Hn.
    apply not_elem_of_dom in Hn. by rewrite Hn.
Qed.

Lemma sameData_keyOf t t' l : sameData t t' -> keyOf t' l = keyOf t l.
Proof.
  intros (_ & Hd & H). unfold keyOf.
  destruct (nodes t !! l) as [n|] eqn:Hn.
  - destruct (H l n Hn) as (n' & -> & ? & _). done.
  - apply not_elem_of_dom in Hn. rewrite <- Hd in Hn.
    apply not_elem_of_dom in Hn. by rewrite Hn.
Qed.

Lemma sameEntries_refl t : sameEntries t t.
Proof. split; [done|]. intros l n Hn. exists n. auto. Qed.

Lemma sameEntries_trans t1 t2 t3 :
  sameEntries t1 t2 -> sameEntries t2 t3 -> sameEntries t1 t3.
Proof.
  intros (Hc1 & H1) (Hc2 & H2). split; [congruence|].
  intros l n Hn. destruct (H1 l n Hn) as (n' & Hn' & ? & ?).
  destruct (H2 l n' Hn') as (n'' & Hn'' & ? & ?).
  exists n''. repeat split; congruence.
Qed.

Lemma sameData_sameEntries t t' : sameData t t' -> sameEntries t t'.
Proof.
  intros (Hc & _ & H). split; [done|]. intros l n Hn.
  destruct (H l n Hn) as (n' & ? & ? & ? & _). eauto.
Qed.

Lemma sameEntries_upd t l f :
  (forall n, Key (f n) = Key n /\ payload (f n) = payload n) ->
  sameEntries t (upd l f t).
Proof.
  intros Hf. split; [apply cmp_upd|].
  intros l' n Hn. destruct (decide (l' = l)) as [->|Hne].
  - exists (f n). rewrite (lookup_upd_eq _ _ _ _ Hn). split; [done|apply Hf].
  - exists n. rewrite lookup_upd_ne by done. auto.
Qed.

Lemma sameEntries_keyOf t t' l n :
  sameEntries t t' -> nodes t !! l = Some n -> keyOf t' l = keyOf t l.
Proof.
  intros (_ & H) Hn. unfold keyOf. rewrite Hn.
  destruct (H l n Hn) as (n' & -> & ? & ?). done.
Qed.

Ltac nodup_unfold H :=
  repeat (rewrite NoDup_app in H || rewrite NoDup_cons in H).

(** *** Changes away from a subtree or a context *)

Lemma rep_upd_notin t l f s par p :
  ~ In l (inorder s) -> rep t par p s -> rep (upd l f t) par p s.
Proof.
  intros Hl. apply rep_agree. intros l' Hl'. apply lookup_upd_ne.
  by intros ->.
Qed.

Lemma rep_reparent_notin t q par' s par p :
  (forall b, q = Some b -> ~ In b (inorder s)) ->
  rep t par p s -> rep (reparent q par' t) par p s.
Proof.
  intros Hq. destruct q as [b|]; simpl; [|done].
  apply rep_upd_notin. by apply Hq.
Qed.

Lemma rep_setSlot_notin t C v s par p :
  (forall l, In l (inorder s) -> ~ In l (ctxLocs C)) ->
  rep t par p s -> rep (setSlot C v t) par p s.
Proof.
  intros Hd. apply rep_agree. intros l Hl. apply lookup_setSlot_ne.
  intros H. apply holeParent_in in H. by apply (Hd l).
Qed.

Lemma repCtx_upd_notin t l f C hole :
  ~ In l (ctxLocs C) -> repCtx t C hole -> repCtx (upd l f t) C hole.
Proof.
  intros Hl. apply repCtx_agree; [apply Root_upd|].
  intros l' Hl'. apply lookup_upd_ne. by intros ->.
Qed.

Lemma repCtx_reparent_notin t q par' C hole :
  (forall b, q = Some b -> ~ In b (ctxLocs C)) ->
  repCtx t C hole -> repCtx (reparent q par' t) C hole.
Proof.
  intros Hq. destruct q as [b|]; simpl; [|done].
  apply repCtx_upd_notin. by apply Hq.
Qed.

Lemma rep_lookup t par l s :
  rep t par (Some l) s -> exists n, nodes t !! l = Some n /\ parent n = par.
Proof.
  destruct s as [|l' L R]; simpl; [done|].
  intros ([= <-] & n & Hn & Hp & _). eauto.
Qed.

Lemma bind_reparent {B} t q par (k : unit -> M B) :
  (forall b, q = Some b -> is_Some (nodes t !! b)) ->
  bind (match q with
        | Some _ => modify (withParent par) q
        | None => ret tt
        end) k t
  = k tt (reparent q par t).
Proof.
  intros Hq. destruct q as [b|]; simpl; [|done].
  destruct (Hq b eq_refl) as [n Hn].
  by rewrite (bind_modify _ _ _ _ _ Hn).
Qed.

(** Membership facts from the absence of duplicates. *)
Ltac nd :=
  unfold ctxLocs in *; intros;
  repeat match goal with
  | Hi : In _ _ |- _ => apply list_elem_of_In in Hi
  | Hi : rootOf _ = Some _ |- _ => apply rootOf_in, list_elem_of_In in Hi
  | Hi : holeParent _ = Some _ |- _ =>
    apply holeParent_in, list_elem_of_In in Hi; unfold ctxLocs in Hi
  end;
  rewrite <- ?list_elem_of_In;
  repeat match goal with
  | Hi : ?P |- _ =>
    lazymatch type of P with Prop => idtac | _ => fail end;
    lazymatch P with
    | context [@elem_of] => fail
    | _ <> _ => fail
    | _ => clear Hi
    end
  end;
  set_solver.

Ltac frame :=
  repeat first
  [ apply rep_upd_notin; [nd|]
  | apply rep_setSlot_notin; [nd|]
  | apply rep_reparent_notin; [nd|] ];
  eassumption.

Ltac same_data :=
  repeat first
  [ apply sameData_refl
  | eapply sameData_trans;
    [|first [ apply sameData_upd;
              first [ apply keepsData_withLeft | apply keepsData_withRight
                    | apply keepsData_withParent ]
            | apply sameData_setSlot
            | apply sameData_reparent ] ] ].

(** ** The rotations *)

Lemma RotateLeft_spec t C x A y B D :
  inTree t C (N x A (N y B D)) ->
  RotateLeft (Some x) t = Ok (tt, rotatedLeft C x y (rootOf B) t)
  /\ inTree (rotatedLeft C x y (rootOf B) t) C (N y (N x A B) D)
  /\ sameData t (rotatedLeft C x y (rootOf B) t).
Proof.
  intros (HC & Hrep & Hnd).
  simpl in HC, Hrep.
  destruct Hrep as (_ & nx & Hx & Hxp & HA & Hxr & ny & Hy & Hyp & HB & HD).
  pose proof (rep_rootOf _ _ _ _ HB) as HyL.
  pose proof Hnd as Hnd'. simpl in Hnd'. nodup_unfold Hnd'.
  assert (~ In x (ctxLocs C) /\ ~ In y (ctxLocs C) /\ x <> y)
    as (Hxc & Hyc & Hxy) by nd.
  assert (holeParent C <> Some x /\ holeParent C <> Some y) as (Hhx & Hhy).
  { split; intros H; apply holeParent_in in H; done. }
  assert (rootOf B <> Some x /\ rootOf B <> Some y) as (Hbx & Hby).
  { split; intros H; nd. }
  assert (forall b, rootOf B = Some b -> ~ In b (ctxLocs C)) as Hbc by nd.
  unfold rotatedLeft. split; [|split].
  - unfold RotateLeft. unfold_accessors. do 4 step.
    rewrite bind_reparent.
    2:{ intros b Hb. rewrite lookup_upd_ne by congruence.
        rewrite HyL, Hb in HB.
        destruct (rep_lookup _ _ _ _ HB) as (n & -> & _). done. }
    do 2 step.
    erewrite bind_slot_update; [| | lk | fields; reflexivity | done].
    2:{ apply repCtx_upd_notin; [done|].
        apply repCtx_reparent_notin; [done|].
        by apply repCtx_upd_notin. }
    step. erewrite modify_upd by lk. reflexivity.
  - split; [|split].
    + simpl rootOf. repeat (apply repCtx_upd_notin; [done|]).
      apply (repCtx_setSlot _ _ (Some x)); [by apply NoDup_ctxLocs in Hnd|].
      apply repCtx_upd_notin; [done|]. apply repCtx_reparent_notin; [done|].
      by apply repCtx_upd_notin.
    + simpl. split; [done|]. eexists. split; [lk|]. fields.
      split; [done|]. split.
      * split; [done|]. eexists. split; [lk|]. fields. split; [done|]. split.
        -- frame.
        -- do 4 (first [ apply rep_upd_notin; [nd|]
                       | apply rep_setSlot_notin; [nd|]]).
           eapply rep_reparent; [nd|]. rewrite HyL in HB. frame.
      * frame.
    + replace (inorder (N y (N x A B) D)) with (inorder (N x A (N y B D)));
        [done|].
      simpl. by rewrite <- app_assoc.
  - same_data.
Qed.

Lemma RotateRight_spec t C x A y B D :
  inTree t C (N y (N x A B) D) ->
  RotateRight (Some y) t = Ok (tt, rotatedRight C x y (rootOf B) t)
  /\ inTree (rotatedRight C x y (rootOf B) t) C (N x A (N y B D))
  /\ sameData t (rotatedRight C x y (rootOf B) t).
Proof.
  intros (HC & Hrep & Hnd).
  simpl in HC, Hrep.
  destruct Hrep as (_ & ny & Hy & Hyp & (Hyl & nx & Hx & Hxp & HA & HB) & HD).
  pose proof (rep_rootOf _ _ _ _ HB) as HxR.
  pose proof Hnd as Hnd'. simpl in Hnd'. nodup_unfold Hnd'.
  assert (~ In x (ctxLocs C) /\ ~ In y (ctxLocs C) /\ x <> y)
    as (Hxc & Hyc & Hxy) by nd.
  assert (holeParent C <> Some x /\ holeParent C <> Some y) as (Hhx & Hhy).
  { split; intros H; apply holeParent_in in H; done. }
  assert (rootOf B <> Some x /\ rootOf B <> Some y) as (Hbx & Hby).
  { split; intros H; nd. }
  assert (forall b, rootOf B = Some b -> ~ In b (ctxLocs C)) as Hbc by nd.
  unfold rotatedRight. split; [|split].
  - unfold RotateRight. unfold_accessors. do 4 step.
    rewrite bind_reparent.
    2:{ intros b Hb. rewrite lookup_upd_ne by congruence.
        rewrite HxR, Hb in HB.
        destruct (rep_lookup _ _ _ _ HB) as (n & -> & _). done. }
    do 2 step.
    erewrite bind_slot_update; [| | lk | fields; reflexivity | done].
    2:{ apply repCtx_upd_notin; [done|].
        apply repCtx_reparent_notin; [done|].
        by apply repCtx_upd_notin. }
    step. erewrite modify_upd by lk. reflexivity.
  - split; [|split].
    + simpl rootOf. repeat (apply repCtx_upd_notin; [done|]).
      apply (repCtx_setSlot _ _ (Some y)); [by apply NoDup_ctxLocs in Hnd|].
      apply repCtx_upd_notin; [done|]. apply repCtx_reparent_notin; [done|].
      by apply repCtx_upd_notin.
    + simpl. split; [done|]. eexists. split; [lk|]. fields.
      split; [done|]. split.
      * frame.
      * split; [done|]. eexists. split; [lk|]. fields. split; [done|]. split.
        -- do 4 (first [ apply rep_upd_notin; [nd|]
                       | apply rep_setSlot_notin; [nd|]]).
           eapply rep_reparent; [nd|]. rewrite HxR in HB. frame.
        -- frame.
    + replace (inorder (N x A (N y B D))) with (inorder (N y (N x A B) D));
        [done|].
      simpl. by rewrite <- app_assoc.
  - same_data.
Qed.

Lemma tree_eq t1 t2 :
  Root t1 = Root t2 -> cmp t1 = cmp t2 ->
  (forall l, nodes t1 !! l = nodes t2 !! l) -> t1 = t2.
Proof.
  destruct t1, t2. simpl. intros -> -> H. f_equal. by apply map_eq.
Qed.

Ltac lk2 :=
  lazymatch goal with
  | |- nodes (upd ?l _ _) !! ?l = Some _ => apply lookup_upd_eq; lk2
  | |- nodes (upd _ _ _) !! _ = Some _ =>
    rewrite lookup_upd_ne by congruence; lk2
  | |- nodes (mkTree _ _ _) !! _ = Some _ => cbn [nodes]; lk2
  | |- _ => eassumption
  end.

Ltac lookup_chain :=
  match goal with
  | |- ?L = _ =>
    let H := fresh in eassert (L = Some _) as H by lk2; rewrite H; clear H
  end.

Ltac lookup_other :=
  repeat first [rewrite lookup_upd_ne by congruence | progress cbn [nodes]];
  reflexivity.

Ltac at_node Hn n :=
  lookup_chain; rewrite Hn; f_equal;
  repeat match goal with
  | H : ?P |- _ =>
    lazymatch P with
    | Left n = _ => fail
    | Right n = _ => fail
    | parent n = _ => fail
    | _ => clear H
    end
  end;
  destruct n; unfold withRight, withLeft, withParent; simpl in *; congruence.

Lemma rotate_left_right_id t C x A y B D :
  inTree t C (N x A (N y B D)) ->
  rotatedRight C x y (rootOf B) (rotatedLeft C x y (rootOf B) t) = t.
Proof.
  intros (HC & Hrep & Hnd).
  simpl in HC, Hrep.
  destruct Hrep as (_ & nx & Hx & Hxp & HA & Hxr & ny & Hy & Hyp & HB & HD).
  pose proof (rep_rootOf _ _ _ _ HB) as HyL.
  pose proof Hnd as Hnd'. simpl in Hnd'. nodup_unfold Hnd'.
  assert (~ In x (ctxLocs C) /\ ~ In y (ctxLocs C) /\ x <> y)
    as (Hxc & Hyc & Hxy) by nd.
  assert (holeParent C <> Some x /\ holeParent C <> Some y) as (Hhx & Hhy).
  { split; intros H; apply holeParent_in in H; done. }
  assert (rootOf B <> Some x /\ rootOf B <> Some y) as (Hbx & Hby).
  { split; intros H; nd. }
  assert (forall b, rootOf B = Some b -> holeParent C <> Some b) as Hbh.
  { intros b Hb H. apply holeParent_in in H. revert H. nd. }
  assert (forall b, rootOf B = Some b ->
            exists nb, nodes t !! b = Some nb /\ parent nb = Some y) as Hbn.
  { intros b Hb. rewrite HyL, Hb in HB. by apply rep_lookup in HB. }
  clear Hnd' HA HD HB Hnd Hxc Hyc.
  unfold rotatedRight, rotatedLeft.
  destruct (rootOf B) as [b|] eqn:HrB.
  - destruct (Hbn b eq_refl) as (nb & Hb & Hbp).
    assert (b <> x /\ b <> y) as [? ?] by (split; congruence).
    pose proof (Hbh b eq_refl) as Hhb.
    destruct C as [|C p R|C p L];
      cbn [setSlot holeParent repCtx reparent] in HC, Hxp, Hhx, Hhy, Hhb |- *.
    + apply tree_eq; [by rewrite !Root_upd | by rewrite !cmp_upd |].
      intros l.
      destruct (decide (l = x)) as [->|Hlx]; [at_node Hx nx|].
      destruct (decide (l = y)) as [->|Hly]; [at_node Hy ny|].
      destruct (decide (l = b)) as [->|Hlb]; [at_node Hb nb|].
      lookup_other.
    + destruct HC as (np & Hp & Hpl & _).
      assert (p <> x /\ p <> y /\ p <> b) as (? & ? & ?)
        by (repeat split; congruence).
      apply tree_eq; [by rewrite !Root_upd | by rewrite !cmp_upd |].
      intros l.
      destruct (decide (l = x)) as [->|Hlx]; [at_node Hx nx|].
      destruct (decide (l = y)) as [->|Hly]; [at_node Hy ny|].
      destruct (decide (l = b)) as [->|Hlb]; [at_node Hb nb|].
      destruct (decide (l = p)) as [->|Hlp]; [at_node Hp np|].
      lookup_other.
    + destruct HC as (np & Hp & Hpr & _).
      assert (p <> x /\ p <> y /\ p <> b) as (? & ? & ?)
        by (repeat split; congruence).
      apply tree_eq; [by rewrite !Root_upd | by rewrite !cmp_upd |].
      intros l.
      destruct (decide (l = x)) as [->|Hlx]; [at_node Hx nx|].
      destruct (decide (l = y)) as [->|Hly]; [at_node Hy ny|].
      destruct (decide (l = b)) as [->|Hlb]; [at_node Hb nb|].
      destruct (decide (l = p)) as [->|Hlp]; [at_node Hp np|].
      lookup_other.
  - clear Hbn Hbh.
    destruct C as [|C p R|C p L];
      cbn [setSlot holeParent repCtx reparent] in HC, Hxp, Hhx, Hhy |- *.
    + apply tree_eq; [by rewrite !Root_upd | by rewrite !cmp_upd |].
      intros l.
      destruct (decide (l = x)) as [->|Hlx]; [at_node Hx nx|].
      destruct (decide (l = y)) as [->|Hly]; [at_node Hy ny|].
      lookup_other.
    + destruct HC as (np & Hp & Hpl & _).
      assert (p <> x /\ p <> y) as (? & ?) by (repeat split; congruence).
      apply tree_eq; [by rewrite !Root_upd | by rewrite !cmp_upd |].
      intros l.
      destruct (decide (l = x)) as [->|Hlx]; [at_node Hx nx|].
      destruct (decide (l = y)) as [->|Hly]; [at_node Hy ny|].
      destruct (decide (l = p)) as [->|Hlp]; [at_node Hp np|].
      lookup_other.
    + destruct HC as (np & Hp & Hpr & _).
      assert (p <> x /\ p <> y) as (? & ?) by (repeat split; congruence).
      apply tree_eq; [by rewrite !Root_upd | by rewrite !cmp_upd |].
      intros l.
      destruct (decide (l = x)) as [->|Hlx]; [at_node Hx nx|].
      destruct (decide (l = y)) as [->|Hly]; [at_node Hy ny|].
      destruct (decide (l = p)) as [->|Hlp]; [at_node Hp np|].
      lookup_other.
Qed.

Lemma repb_rep t s : forall par p, repb t par p s = true -> rep t par p s.
Proof.
  induction s as [|l L IHL R IHR]; intros par p H; cbn [repb rep] in *.
  - by apply bool_decide_eq_true in H.
  - apply andb_prop in H as [Hp H]. apply bool_decide_eq_true in Hp.
    destruct (nodes t !! l) as [n|]; [|done].
    apply andb_prop in H as [H HR]. apply andb_prop in H as [Hpar HL].
    apply bool_decide_eq_true in Hpar.
    split; [done|]. exists n. auto.
Qed.

Lemma wfb_wf t s : wfb t s = true -> wf t s.
Proof.
  unfold wfb, wf. intros H. apply andb_prop in H as [H1 H2].
  apply bool_decide_eq_true in H2. split; [by apply repb_rep|done].
Qed.

(** C10: in a well-formed tree, rotating left at a node [x] that has a
    right child [y] and then rotating right at [y] gives back the very
    same tree (root pointer and every node with all its links); the
    rotation in between keeps the set of nodes and the key, payload,
    colour and leaf flag of each, and the sequence of nodes in order. *)
Theorem rotate_left_then_right_restores t s x nx y :
  wf t s ->
  In x (inorder s) ->
  nodes t !! x = Some nx ->
  Right nx = Some y ->
  exists t1,
    RotateLeft (Some x) t = Ok (tt, t1)
    /\ RotateRight (Some y) t1 = Ok (tt, t)
    /\ sameData t t1
    /\ exists s1, wf t1 s1 /\ inorder s1 = inorder s.
Proof.
  intros Hwf Hin Hx Hxr.
  destruct (decompose _ _ Hin) as (C & A & R0 & ->).
  apply wf_inTree in Hwf.
  assert (exists B D, R0 = N y B D) as (B & D & ->).
  { destruct Hwf as (_ & Hrep & _). simpl in Hrep.
    destruct Hrep as (_ & n & Hn & _ & _ & HR).
    assert (n = nx) as -> by congruence.
    apply rep_rootOf in HR. rewrite Hxr in HR.
    destruct R0 as [|y' B D]; [done|]. injection HR as ->. eauto. }
  destruct (RotateLeft_spec _ _ _ _ _ _ _ Hwf) as (Hrun & Hin1 & Hsd).
  destruct (RotateRight_spec _ _ _ _ _ _ _ Hin1) as (Hrun2 & _ & _).
  exists (rotatedLeft C x y (rootOf B) t).
  split; [done|]. split.
  - rewrite Hrun2. by rewrite (rotate_left_right_id _ _ _ _ _ _ _ Hwf).
  - split; [done|]. exists (plug C (N y (N x A B) D)).
    split; [by apply wf_inTree|].
    rewrite !inorder_plug. do 2 f_equal. simpl. by rewrite <- app_assoc.
Qed.

Lemma rotate_left_then_right_restores_witness :
  exists t1,
    RotateLeft (Some 3%positive) tree1234 = Ok (tt, t1)
    /\ RotateRight (Some 4%positive) t1 = Ok (tt, tree1234)
    /\ sameData tree1234 t1
    /\ exists s1, wf t1 s1 /\ inorder s1 = inorder shape1234.
Proof.
  apply (rotate_left_then_right_restores tree1234 shape1234 3%positive
           (mkNode (VInt 3) Nil BLACK None (Some 4%positive) false
              (Some 2%positive)) 4%positive).
  - apply wfb_wf. vm_compute. reflexivity.
  - simpl. auto.
  - vm_compute. reflexivity.
  - reflexivity.
Defined.

(** ** Searching an ordered tree *)

Lemma IntComparator_int i j :
  IntComparator (VInt i) (VInt j)
  = Ok (if j <? i then 1 else if i <? j then -1 else 0).
Proof. simpl. rewrite Z.gtb_ltb. by repeat case_match. Qed.

Lemma IntComparator_orders : orders IntComparator isInt.
Proof.
  split.
  - intros a b [i ->] [j ->]. rewrite IntComparator_int. eauto.
  - intros a b [i ->] [j ->]. rewrite IntComparator_int. split.
    + destruct (Z.ltb_spec j i), (Z.ltb_spec i j); try done.
      intros _. f_equal. lia.
    + intros [= ->]. by rewrite Z.ltb_irrefl.
  - intros a b z [i ->] [j ->]. rewrite !IntComparator_int.
    intros [= <-]. eexists. split; [done|].
    destruct (Z.ltb_spec j i), (Z.ltb_spec i j); simpl; lia.
  - intros a b d z1 z2 [i ->] [j ->] [m ->]. rewrite !IntComparator_int.
    intros [= <-] H1 [= <-] H2. eexists. split; [done|].
    destruct (Z.ltb_spec j i), (Z.ltb_spec i j); try lia;
    destruct (Z.ltb_spec m j), (Z.ltb_spec j m); try lia;
    destruct (Z.ltb_spec m i), (Z.ltb_spec i m); lia.
Qed.

Lemma locate_plug t k s :
  forall C C' s', locate t k C s = (C', s') -> plug C' s' = plug C s.
Proof.
  induction s as [|l L IHL R IHR]; intros C C' s' H; simpl in H.
  - by injection H as <- <-.
  - destruct (cmp t k (keyOf t l)) as [c| |]; try (by injection H as <- <-).
    destruct (c =? 0); [by injection H as <- <-|].
    destruct (c <? 0); [apply IHL in H|apply IHR in H]; by rewrite H.
Qed.

Lemma locate_depth t k s :
  forall C C' s', locate t k C s = (C', s') ->
    (ctxDepth C' + height s' <= ctxDepth C + height s)%nat.
Proof.
  induction s as [|l L IHL R IHR]; intros C C' s' H; simpl in H.
  - injection H as <- <-. lia.
  - destruct (cmp t k (keyOf t l)) as [c| |]; try (injection H as <- <-; lia).
    destruct (c =? 0); [injection H as <- <-; lia|].
    destruct (c <? 0); [apply IHL in H|apply IHR in H]; simpl in *; lia.
Qed.

Lemma internalLookup_locate t k dom s :
  orders (cmp t) dom -> dom k ->
  forall C C' s' fuel,
    inTree t C s ->
    keysIn dom t s ->
    locate t k C s = (C', s') ->
    (height s < fuel)%nat ->
    internalLookup fuel t (holeParent C) (rootOf s) k (dirOf C)
    = Ok (isNode s', holeParent C', dirOf C').
Proof.
  intros Hord Hk.
  induction s as [|l L IHL R IHR]; intros C C' s' fuel Hin Hkeys Hloc Hf.
  - simpl in Hloc. injection Hloc as <- <-.
    destruct fuel; [lia|]. reflexivity.
  - destruct fuel as [|fuel]; [lia|]. simpl in Hf.
    pose proof Hin as (HC & Hrep & Hnd). simpl in Hrep.
    destruct Hrep as (_ & n & Hn & Hp & HL & HR).
    simpl. rewrite Hn. simpl.
    assert (keyOf t l = Key n) as Hkey by (unfold keyOf; by rewrite Hn).
    unfold keysIn in Hkeys. simpl in Hkeys.
    apply Forall_app in Hkeys as [HkL HkR].
    apply Forall_cons_iff in HkR as [Hkl HkR].
    destruct (ord_total _ _ Hord k (keyOf t l) Hk Hkl) as [c Hc].
    simpl in Hloc. rewrite Hc in Hloc. rewrite <- Hkey, Hc. simpl.
    destruct (c =? 0) eqn:H0.
    { injection Hloc as <- <-. reflexivity. }
    destruct (c <? 0) eqn:H1.
    + rewrite (rep_rootOf _ _ _ _ HL).
      apply (IHL (InL C l R)); [|done|done|lia].
      apply wf_inTree. apply wf_inTree in Hin. exact Hin.
    + assert ((c >? 0) = true) as -> by lia.
      rewrite (rep_rootOf _ _ _ _ HR).
      apply (IHR (InR C l L)); [|done|done|lia].
      apply wf_inTree. apply wf_inTree in Hin. exact Hin.
Qed.

Section Ordered.
Context (t : Tree) (dom : iface -> Prop) (Hord : orders (cmp t) dom).

Lemma keyLt_irrefl a : dom a -> ~ keyLt t a a.
Proof.
  intros Ha (c & Hc & Hlt).
  assert (cmp t a a = Ok 0) as H0 by (by apply (ord_eq _ _ Hord)).
  rewrite H0 in Hc. injection Hc as <-. lia.
Qed.

Lemma keyLt_trans a b d :
  dom a -> dom b -> dom d -> keyLt t a b -> keyLt t b d -> keyLt t a d.
Proof.
  intros Ha Hb Hd (c1 & H1 & ?) (c2 & H2 & ?).
  by apply (ord_trans _ _ Hord a b d c1 c2).
Qed.

Lemma keyLt_flip a b c :
  dom a -> dom b -> cmp t a b = Ok c -> 0 < c -> keyLt t b a.
Proof.
  intros Ha Hb Hc Hpos.
  destruct (ord_flip _ _ Hord a b c Ha Hb Hc) as (c' & Hc' & Hs).
  exists c'. split; [done|]. lia.
Qed.

Lemma sorted_middle (ks1 ks2 : list iface) k :
  StronglySorted (keyLt t) (ks1 ++ ks2) ->
  Forall (fun a => keyLt t a k) ks1 ->
  Forall (fun b => keyLt t k b) ks2 ->
  StronglySorted (keyLt t) (ks1 ++ k :: ks2).
Proof.
  induction ks1 as [|a ks1 IH]; simpl; intros Hs H1 H2.
  - by constructor.
  - apply StronglySorted_inv in Hs as [Hs Ha].
    apply Forall_cons_iff in H1 as [Hak H1].
    constructor; [auto|].
    apply Forall_app in Ha as [Ha1 Ha2].
    apply Forall_app. split; [done|]. by constructor.
Qed.

Lemma sorted_remove (ks1 ks2 : list iface) k :
  StronglySorted (keyLt t) (ks1 ++ k :: ks2) ->
  StronglySorted (keyLt t) (ks1 ++ ks2)
  /\ Forall (fun a => keyLt t a k) ks1
  /\ Forall (fun b => keyLt t k b) ks2.
Proof.
  induction ks1 as [|a ks1 IH]; simpl; intros Hs.
  - apply StronglySorted_inv in Hs as [Hs Ha]. auto.
  - apply StronglySorted_inv in Hs as [Hs Ha].
    destruct (IH Hs) as (Hs' & H1 & H2).
    apply Forall_app in Ha as [Ha1 Ha2].
    apply Forall_cons_iff in Ha2 as [Hak Ha2].
    split; [|split; [by constructor|done]].
    constructor; [done|]. apply Forall_app. auto.
Qed.

(** Going down from a node keeps the bounds. *)
Lemma locate_bounds k s :
  dom k ->
  forall C C' s',
    keysIn dom t (plug C s) ->
    sortedKeys t (plug C s) ->
    bounds t k C ->
    locate t k C s = (C', s') ->
    bounds t k C'
    /\ (s' = E \/ exists l L R, s' = N l L R /\ keyOf t l = k).
Proof.
  intros Hk.
  induction s as [|l L IHL R IHR]; intros C C' s' Hkeys Hs Hb Hloc;
    simpl in Hloc.
  - injection Hloc as <- <-. auto.
  - pose proof Hkeys as Hkeys'. unfold keysIn in Hkeys'.
    rewrite inorder_plug in Hkeys'. simpl in Hkeys'.
    rewrite !Forall_app, Forall_cons_iff in Hkeys'.
    destruct Hkeys' as (HkB & (HkL & Hkl & HkR) & HkA).
    destruct (ord_total _ _ Hord k (keyOf t l) Hk Hkl) as [c Hc].
    rewrite Hc in Hloc.
    destruct (c =? 0) eqn:H0.
    { injection Hloc as <- <-. split; [done|]. right. exists l, L, R.
      split; [done|]. apply Z.eqb_eq in H0. subst c.
      symmetry. by apply (ord_eq _ _ Hord). }
    pose proof Hs as Hs'. unfold sortedKeys, keysInOrder in Hs'.
    assert (map (keyOf t) (inorder (plug C (N l L R)))
            = (map (keyOf t) (ctxBefore C) ++ map (keyOf t) (inorder L))
                ++ keyOf t l
                :: (map (keyOf t) (inorder R) ++ map (keyOf t) (ctxAfter C)))
      as Heq.
    { rewrite inorder_plug. simpl. rewrite !map_app. simpl.
      by rewrite <- !app_assoc. }
    rewrite Heq in Hs'.
    apply sorted_remove in Hs' as (_ & Hbefore & Hafter).
    destruct Hb as [HbB HbA].
    destruct (c <? 0) eqn:H1.
    + apply (IHL (InL C l R)); [done|done| |done].
      split; [done|]. simpl.
      assert (keyLt t k (keyOf t l)) as Hkl' by (exists c; split; [done|lia]).
      constructor; [done|]. apply Forall_app. split; [|done].
      apply Forall_app in Hafter as [HaR _].
      rewrite Forall_map in HaR.
      rewrite Forall_forall in HaR, HkR. apply Forall_forall. intros r Hr.
      apply (keyLt_trans _ (keyOf t l)); auto.
    + apply (IHR (InR C l L)); [done|done| |done].
      split; [|done]. simpl.
      assert (keyLt t (keyOf t l) k) as Hkl'.
      { apply (keyLt_flip k _ c); [done|done|done|lia]. }
      apply Forall_app. split; [done|].
      apply Forall_app. split; [|by repeat constructor].
      apply Forall_app in Hbefore as [_ HbL].
      rewrite Forall_map in HbL.
      rewrite Forall_forall in HbL, HkL. apply Forall_forall. intros r Hr.
      apply (keyLt_trans _ (keyOf t l)); auto.
Qed.

Lemma sorted_key_inj (ls : list loc) l l' :
  StronglySorted (keyLt t) (map (keyOf t) ls) ->
  Forall (fun a => dom (keyOf t a)) ls ->
  In l ls -> In l' ls -> keyOf t l = keyOf t l' -> l = l'.
Proof.
  induction ls as [|a ls IH]; simpl; intros Hs Hd Hl Hl' Heq; [done|].
  apply StronglySorted_inv in Hs as [Hs Ha].
  apply Forall_cons_iff in Hd as [Hda Hd].
  rewrite Forall_map in Ha. rewrite Forall_forall in Ha.
  destruct Hl as [<-|Hl], Hl' as [<-|Hl']; [done|..|by apply IH].
  - exfalso. apply list_elem_of_In, Ha in Hl'. rewrite <- Heq in Hl'.
    by apply keyLt_irrefl in Hl'.
  - exfalso. apply list_elem_of_In, Ha in Hl. rewrite Heq in Hl.
    by apply keyLt_irrefl in Hl.
Qed.

Lemma bounds_Top k : bounds t k Top.
Proof. split; constructor. Qed.

Lemma locate_absent k s C' :
  dom k -> keysIn dom t s -> sortedKeys t s ->
  locate t k Top s = (C', E) ->
  forall l, In l (inorder s) -> keyOf t l <> k.
Proof.
  intros Hk Hkeys Hs Hloc l Hl Heq.
  destruct (locate_bounds k s Hk Top C' E Hkeys Hs (bounds_Top k) Hloc)
    as [[HB HA] _].
  apply locate_plug in Hloc. simpl in Hloc. subst s.
  rewrite inorder_plug in Hl. simpl in Hl.
  rewrite Forall_forall in HB, HA.
  apply in_app_or in Hl as [Hl|Hl]; apply list_elem_of_In in Hl.
  - apply HB in Hl. rewrite Heq in Hl. by apply keyLt_irrefl in Hl.
  - apply HA in Hl. rewrite Heq in Hl. by apply keyLt_irrefl in Hl.
Qed.

Lemma locate_present k s C' l L R :
  dom k -> keysIn dom t s -> sortedKeys t s ->
  locate t k Top s = (C', N l L R) ->
  keyOf t l = k /\ s = plug C' (N l L R).
Proof.
  intros Hk Hkeys Hs Hloc.
  destruct (locate_bounds k s Hk Top C' _ Hkeys Hs (bounds_Top k) Hloc)
    as [_ [?|(l' & L' & R' & [= -> -> ->] & Hkey)]]; [done|].
  apply locate_plug in Hloc. auto.
Qed.

Lemma locate_finds k s l :
  dom k -> keysIn dom t s -> sortedKeys t s ->
  In l (inorder s) -> keyOf t l = k ->
  exists C' L R, locate t k Top s = (C', N l L R).
Proof.
  intros Hk Hkeys Hs Hl Hkey.
  destruct (locate t k Top s) as [C' s'] eqn:Hloc.
  destruct s' as [|l' L R].
  - exfalso. by apply (locate_absent k s C' Hk Hkeys Hs Hloc l).
  - destruct (locate_present k s C' l' L R Hk Hkeys Hs Hloc) as [Hk' Heq].
    assert (l = l') as <-; [|eauto].
    apply (sorted_key_inj (inorder s)); [done|done|done| |congruence].
    rewrite Heq, inorder_plug. simpl. rewrite !in_app_iff. simpl. tauto.
Qed.

Lemma Has_spec k s fuel :
  wf t s -> keysIn dom t s -> dom k -> mustBeValidKey k = None ->
  (height s < fuel)%nat ->
  Has fuel t k = Ok (isNode (snd (locate t k Top s))).
Proof.
  intros Hwf Hkeys Hk Hv Hf. unfold Has. rewrite Hv.
  destruct (locate t k Top s) as [C' s'] eqn:Hloc.
  apply wf_inTree_Top in Hwf.
  pose proof Hwf as (HC & _). simpl in HC. rewrite HC.
  pose proof (internalLookup_locate t k dom s Hord Hk Top C' s' fuel Hwf
                Hkeys Hloc Hf) as Hlk.
  simpl in Hlk. rewrite Hlk. reflexivity.
Qed.

Lemma getNode_spec k s fuel :
  wf t s -> keysIn dom t s -> dom k -> mustBeValidKey k = None ->
  (height s < fuel)%nat ->
  getNode fuel t k
  = Ok (if isNode (snd (locate t k Top s))
        then (true, rootOf (snd (locate t k Top s)))
        else (false, None)).
Proof.
  intros Hwf Hkeys Hk Hv Hf. unfold getNode, GetParent. rewrite Hv.
  destruct (locate t k Top s) as [C' s'] eqn:Hloc.
  pose proof Hwf as Hwf'. apply wf_inTree_Top in Hwf'.
  pose proof Hwf' as (HC & _). simpl in HC. rewrite HC.
  destruct s as [|r L0 R0].
  { simpl in Hloc. injection Hloc as <- <-. reflexivity. }
  simpl rootOf at 1. cbn iota.
  pose proof (internalLookup_locate t k dom _ Hord Hk Top C' s' fuel Hwf'
                Hkeys Hloc Hf) as Hlk.
  simpl in Hlk. simpl. rewrite Hlk. simpl.
  destruct s' as [|l L R]; [reflexivity|]. simpl.
  pose proof (locate_plug _ _ _ _ _ _ Hloc) as Hplug. simpl in Hplug.
  rewrite <- Hplug in Hwf. apply wf_inTree in Hwf.
  destruct Hwf as (HC' & _). simpl in HC'.
  destruct C' as [|C' p R'|C' p L']; simpl in *.
  - congruence.
  - destruct HC' as (np & Hnp & Hl & _). rewrite Hnp. simpl. by rewrite Hl.
  - destruct HC' as (np & Hnp & Hl & _). rewrite Hnp. simpl. by rewrite Hl.
Qed.

Lemma Get_spec k s fuel :
  wf t s -> keysIn dom t s -> dom k -> mustBeValidKey k = None ->
  (height s < fuel)%nat ->
  Get fuel t k
  = Ok (match snd (locate t k Top s) with
        | N l _ _ =>
          (true, match nodes t !! l with Some n => payload n | None => Nil end)
        | E => (false, Nil)
        end).
Proof.
  intros Hwf Hkeys Hk Hv Hf. unfold Get. rewrite Hv.
  rewrite (getNode_spec k s fuel Hwf Hkeys Hk Hv Hf).
  destruct (locate t k Top s) as [C' s'] eqn:Hloc. simpl.
  destruct s' as [|l L R]; [reflexivity|]. simpl.
  pose proof (locate_plug _ _ _ _ _ _ Hloc) as Hplug. simpl in Hplug.
  rewrite <- Hplug in Hwf. apply wf_inTree in Hwf.
  destruct Hwf as (_ & Hrep & _). simpl in Hrep.
  destruct Hrep as (_ & n & -> & _). reflexivity.
Qed.

End Ordered.

(** ** Counting *)

Lemma count_step a b :
  ((a mod two64 + 1) mod two64 + b) mod two64 = (a + 1 + b) mod two64.
Proof.
  assert (two64 <> 0) by (unfold two64; lia).
  rewrite Z.add_mod_idemp_l by done.
  rewrite <- Z.add_assoc, Z.add_mod_idemp_l by done.
  f_equal. lia.
Qed.

Lemma Visit_spec t s :
  forall p fuel c,
    is_tree t p s -> (height s < fuel)%nat -> 0 <= c < two64 ->
    Visit fuel t p c = Ok ((c + Z.of_nat (length (inorder s))) mod two64).
Proof.
  induction s as [|l L IHL R IHR]; intros p fuel c Ht Hf Hc.
  - apply is_tree_rootOf in Ht. simpl in Ht. subst p.
    destruct fuel; [lia|]. simpl. rewrite Z.add_0_r.
    by rewrite Z.mod_small.
  - pose proof (is_tree_rootOf _ _ _ Ht) as Hp. simpl in Hp. subst p.
    apply is_tree_node_inv in Ht as (n & L' & R' & [= <- <-] & Hn & HL & HR).
    destruct fuel as [|fuel]; [lia|]. simpl in Hf.
    cbn [Visit]. simpl deref. rewrite Hn. simpl rbind.
    rewrite (IHL _ fuel c HL); [|lia|done]. simpl rbind.
    rewrite (IHR _ fuel _ HR); [|lia|].
    + f_equal. rewrite count_step. f_equal. simpl.
      rewrite length_app. simpl. lia.
    + apply Z.mod_pos_bound. unfold two64. lia.
Qed.

Lemma Size_spec t s fuel :
  wf t s -> (height s < fuel)%nat ->
  Size fuel t = Ok (Z.of_nat (length (inorder s)) mod two64).
Proof.
  intros [Hrep _] Hf. unfold Size.
  rewrite (Visit_spec t s _ fuel 0); [done| |done|unfold two64; lia].
  by apply rep_is_tree in Hrep.
Qed.

(** ** Reading a tree in a context *)

Lemma bind_ok {A B} (m : M A) (k : A -> M B) t a t' :
  m t = Ok (a, t') -> bind m k t = k a t'.
Proof. intros H. unfold bind. by rewrite H. Qed.

Lemma inTree_refocus t C1 s1 C2 s2 :
  plug C1 s1 = plug C2 s2 -> inTree t C1 s1 -> inTree t C2 s2.
Proof. intros Heq H. apply wf_inTree. rewrite <- Heq. by apply wf_inTree. Qed.

Lemma inTree_node t C z L R :
  inTree t C (N z L R) ->
  exists nz, nodes t !! z = Some nz /\ parent nz = holeParent C
             /\ Left nz = rootOf L /\ Right nz = rootOf R.
Proof.
  intros (_ & Hrep & _). simpl in Hrep.
  destruct Hrep as (_ & n & Hn & Hp & HL & HR).
  apply rep_rootOf in HL, HR. eauto 10.
Qed.

Lemma inTree_upd t l f C s :
  keepsLinks f -> inTree t C s -> inTree (upd l f t) C s.
Proof.
  intros Hf (HC & Hrep & Hnd).
  split; [by apply repCtx_upd|]. split; [by apply rep_upd|done].
Qed.

Lemma colorOf_lookup t l n : nodes t !! l = Some n -> colorOf t (Some l) = color n.
Proof. intros H. simpl. by rewrite H. Qed.

Lemma isRed_Some t l n :
  nodes t !! l = Some n ->
  isRed t (Some l) = Ok (match color n with RED => true | BLACK => false end).
Proof. intros H. unfold isRed. simpl. by rewrite H. Qed.

Lemma isRed_colorOf t s par :
  rep t par (rootOf s) s ->
  isRed t (rootOf s) = Ok (negb (isBlack (colorOf t (rootOf s)))).
Proof.
  destruct s as [|l L R]; simpl; [done|].
  intros (_ & n & Hn & _). unfold isRed. simpl. rewrite Hn. simpl.
  by destruct (color n).
Qed.

Lemma rep_locs t s : forall par p l,
  rep t par p s -> In l (inorder s) -> is_Some (nodes t !! l).
Proof.
  induction s as [|l0 L IHL R IHR]; intros par p l H Hl; simpl in *; [done|].
  destruct H as (_ & n & Hn & _ & HL & HR).
  apply in_app_or in Hl as [Hl|[<-|Hl]]; eauto.
Qed.

Lemma repCtx_locs t C : forall hole l,
  repCtx t C hole -> In l (ctxLocs C) -> is_Some (nodes t !! l).
Proof.
  unfold ctxLocs.
  induction C as [|C IH p R|C IH p L]; intros hole l H Hl; simpl in *.
  - done.
  - destruct H as (n & Hn & _ & _ & HR & HC).
    apply in_app_or in Hl as [Hl|[<-|Hl]].
    + apply (IH _ l HC). apply in_or_app. by left.
    + eauto.
    + apply in_app_or in Hl as [Hl|Hl]; [by eapply rep_locs|].
      apply (IH _ l HC). apply in_or_app. by right.
  - destruct H as (n & Hn & _ & _ & HL & HC).
    apply in_app_or in Hl as [Hl|Hl].
    + rewrite app_assoc in Hl.
      apply in_app_or in Hl as [Hl|[<-|[]]]; [|eauto].
      apply in_app_or in Hl as [Hl|Hl]; [|by eapply rep_locs].
      apply (IH _ l HC). apply in_or_app. by left.
    + apply (IH _ l HC). apply in_or_app. by right.
Qed.

Lemma ctxLocs_InL C p R l :
  In l (ctxLocs (InL C p R))
  <-> l = p \/ In l (inorder R) \/ In l (ctxLocs C).
Proof.
  unfold ctxLocs. simpl. rewrite !in_app_iff. simpl. rewrite !in_app_iff.
  intuition congruence.
Qed.

Lemma ctxLocs_InR C p L l :
  In l (ctxLocs (InR C p L))
  <-> l = p \/ In l (inorder L) \/ In l (ctxLocs C).
Proof.
  unfold ctxLocs. simpl. rewrite !in_app_iff. simpl.
  intuition congruence.
Qed.

(** The root of a tree with a non-trivial context is a node of the
    context. *)
Lemma repCtx_root t C : forall hole,
  repCtx t C hole -> C <> Top ->
  exists r, Root t = Some r /\ In r (ctxLocs C).
Proof.
  induction C as [|C IH p R|C IH p L]; intros hole H Hne; [done|..].
  - destruct H as (n & Hn & _ & _ & _ & HC).
    assert (C = Top \/ C <> Top) as [->|HneC] by (destruct C; auto).
    + exists p. split; [done|]. apply ctxLocs_InL. by left.
    + destruct (IH _ HC HneC) as (r & Hr & Hin). exists r.
      split; [done|]. apply ctxLocs_InL. auto.
  - destruct H as (n & Hn & _ & _ & _ & HC).
    assert (C = Top \/ C <> Top) as [->|HneC] by (destruct C; auto).
    + exists p. split; [done|]. apply ctxLocs_InR. by left.
    + destruct (IH _ HC HneC) as (r & Hr & Hin). exists r.
      split; [done|]. apply ctxLocs_InR. auto.
Qed.

Ltac flds :=
  fields;
  rewrite ?ptr_eqb_refl;
  repeat rewrite ptr_eqb_ne by congruence;
  cbn beta iota.

Ltac stp :=
  first
  [ rewrite bind_ret
  | rewrite bind_getRoot
  | rewrite bind_setRoot
  | rewrite bind_bind
  | erewrite bind_getf by lk
  | erewrite bind_modify by lk ];
  cbn beta iota; flds.

(** *** Absence of duplicates, piece by piece *)

Lemma NoDup_app_disj (a b : list loc) :
  NoDup (a ++ b) <-> NoDup a /\ NoDup b /\ disj a b.
Proof.
  rewrite NoDup_app. unfold disj. setoid_rewrite <- list_elem_of_In.
  naive_solver.
Qed.

Lemma NoDup_cons_notin (x : loc) a : NoDup (x :: a) <-> ~ In x a /\ NoDup a.
Proof. rewrite NoDup_cons. by rewrite list_elem_of_In. Qed.

Lemma disj_app_l a b c : disj (a ++ b) c <-> disj a c /\ disj b c.
Proof.
  unfold disj. setoid_rewrite in_app_iff. naive_solver.
Qed.

Lemma disj_app_r a b c : disj c (a ++ b) <-> disj c a /\ disj c b.
Proof.
  unfold disj. setoid_rewrite in_app_iff. naive_solver.
Qed.

Lemma disj_cons_l x a c : disj (x :: a) c <-> ~ In x c /\ disj a c.
Proof. unfold disj. simpl. naive_solver. Qed.

Lemma disj_cons_r x a c : disj c (x :: a) <-> ~ In x c /\ disj c a.
Proof. unfold disj. simpl. naive_solver. Qed.

Lemma disj_nil_l c : disj [] c <-> True.
Proof. unfold disj. simpl. naive_solver. Qed.

Lemma disj_nil_r c : disj c [] <-> True.
Proof. unfold disj. simpl. naive_solver. Qed.

Lemma notin_app (x : loc) a b : ~ In x (a ++ b) <-> ~ In x a /\ ~ In x b.
Proof. rewrite in_app_iff. tauto. Qed.

Lemma notin_cons (x y : loc) a : ~ In x (y :: a) <-> x <> y /\ ~ In x a.
Proof. simpl. naive_solver. Qed.

Lemma notin_nil (x : loc) : ~ In x [] <-> True.
Proof. simpl. tauto. Qed.

Lemma NoDup_nil_True : NoDup (@nil loc) <-> True.
Proof. split; [done|]. intros _. constructor. Qed.

(** Break [H : NoDup ...] into facts about its pieces. *)
Ltac nodup_atoms H :=
  repeat first
  [ rewrite NoDup_app_disj in H
  | rewrite NoDup_cons_notin in H
  | rewrite NoDup_nil_True in H
  | rewrite disj_app_l in H
  | rewrite disj_app_r in H
  | rewrite disj_cons_l in H
  | rewrite disj_cons_r in H
  | rewrite disj_nil_l in H
  | rewrite disj_nil_r in H
  | rewrite notin_app in H
  | rewrite notin_cons in H
  | rewrite notin_nil in H ];
  destruct_and?.

Ltac nda_close :=
  match goal with
  | H : ~ In ?x ?A, H' : In ?x ?A |- _ => exact (H H')
  | H : disj ?A ?B, H1 : In ?x ?A, H2 : In ?x ?B |- _ => exact (H x H1 H2)
  | H : ?x <> ?x |- _ => exact (H eq_refl)
  | H : False |- _ => destruct H
  end.

Ltac nda_split :=
  repeat match goal with
  | H : rootOf _ = Some _ |- _ => apply rootOf_in in H
  | H : holeParent _ = Some _ |- _ =>
    apply holeParent_in in H; unfold ctxLocs in H
  | H : In _ (_ ++ _) |- _ => apply in_app_or in H as [H|H]
  | H : In _ (_ :: _) |- _ => destruct H as [H|H]
  | H : In _ [] |- _ => destruct H
  | H : Some _ = Some _ |- _ => injection H as H
  end.

(** Close a goal that follows from the facts [nodup_atoms] leaves. *)
Ltac nda :=
  unfold ctxLocs in *; intros;
  repeat match goal with
  | |- ~ _ => intro
  | |- _ <> _ => intro
  | |- _ /\ _ => split
  | |- forall _, _ => intro
  end;
  nda_split; subst; nda_close.


(** ** The fix-up after an insertion *)

Lemma inTree_InL t C p S s :
  inTree t (InL C p S) s ->
  exists np, nodes t !! p = Some np /\ Left np = rootOf s
             /\ Right np = rootOf S /\ parent np = holeParent C.
Proof.
  intros ((n & Hn & Hl & Hp & HR & _) & _ & _).
  apply rep_rootOf in HR. eauto 10.
Qed.

Lemma inTree_InR t C p S s :
  inTree t (InR C p S) s ->
  exists np, nodes t !! p = Some np /\ Right np = rootOf s
             /\ Left np = rootOf S /\ parent np = holeParent C.
Proof.
  intros ((n & Hn & Hl & Hp & HR & _) & _ & _).
  apply rep_rootOf in HR. eauto 10.
Qed.

Lemma fixupPut_loop_exit_top t z L R fuel :
  inTree t Top (N z L R) -> (1 <= fuel)%nat ->
  fixupPut_loop fuel (Some z) t = Ok (tt, t).
Proof.
  intros Hin Hf. destruct fuel as [|fuel]; [lia|].
  destruct (inTree_node _ _ _ _ _ Hin) as (nz & Hz & Hzp & _).
  simpl in Hzp. cbn [fixupPut_loop]. unfold_accessors. stp. reflexivity.
Qed.

Lemma fixupPut_loop_exit_black t C z L R p fuel :
  inTree t C (N z L R) -> holeParent C = Some p ->
  colorOf t (Some p) = BLACK -> (1 <= fuel)%nat ->
  fixupPut_loop fuel (Some z) t = Ok (tt, t).
Proof.
  intros Hin HC Hcol Hf. destruct fuel as [|fuel]; [lia|].
  destruct (inTree_node _ _ _ _ _ Hin) as (nz & Hz & Hzp & _).
  rewrite HC in Hzp.
  assert (exists np, nodes t !! p = Some np) as [np Hp].
  { destruct C as [|C p' S|C p' S]; simpl in HC; [done|..];
      injection HC as ->.
    - destruct (inTree_InL _ _ _ _ _ Hin) as (np & ? & _). eauto.
    - destruct (inTree_InR _ _ _ _ _ Hin) as (np & ? & _). eauto. }
  rewrite (colorOf_lookup _ _ _ Hp) in Hcol.
  cbn [fixupPut_loop]. unfold_accessors. do 2 stp. reflexivity.
Qed.

Lemma colorOf_upd_color t l c x :
  is_Some (nodes t !! l) ->
  colorOf (upd l (withColor c) t) (Some x)
  = if decide (x = l) then c else colorOf t (Some x).
Proof.
  intros [n Hn]. destruct (decide (x = l)) as [->|Hne].
  - by rewrite (colorOf_lookup _ _ (withColor c n)) by by apply lookup_upd_eq.
  - unfold colorOf. by rewrite lookup_upd_ne.
Qed.

Lemma fixup_case3_LL t C2 g U p S z L R :
  inTree t (InL (InL C2 g U) p S) (N z L R) ->
  colorOf t (Some p) = RED ->
  colorOf t (rootOf U) = BLACK ->
  exists t',
    (forall fuel, (2 <= fuel)%nat ->
       fixupPut_loop fuel (Some z) t = Ok (tt, t'))
    /\ inTree t' C2 (N p (N z L R) (N g S U))
    /\ sameEntries t t'
    /\ forall x, colorOf t' (Some x)
                 = if decide (x = g) then RED
                   else if decide (x = p) then BLACK
                   else colorOf t (Some x).
Proof.
  intros Hin Hpc Huc.
  destruct (inTree_node _ _ _ _ _ Hin) as (nz & Hz & Hzp & _).
  destruct (inTree_InL _ _ _ _ _ Hin) as (np & Hp & Hpl & Hpr & Hpp).
  simpl in Hzp, Hpl, Hpp.
  assert (inTree t (InL C2 g U) (N p (N z L R) S)) as Hin1
    by (eapply inTree_refocus; [|exact Hin]; reflexivity).
  destruct (inTree_InL _ _ _ _ _ Hin1) as (ng & Hg & Hgl & Hgr & Hgp).
  simpl in Hgl.
  assert (inTree t C2 (N g (N p (N z L R) S) U)) as Hin2
    by (eapply inTree_refocus; [|exact Hin]; reflexivity).
  rewrite (colorOf_lookup _ _ _ Hp) in Hpc.
  pose proof Hin2 as (_ & Hrep2 & Hnd). simpl in Hnd. nodup_atoms Hnd.
  assert (z <> p /\ z <> g /\ p <> g) as (Hzp' & Hzg & Hpg) by nda.
  assert (rootOf S <> Some z) as HSz by nda.
  
  set (t2 := upd g (withColor RED) (upd p (withColor BLACK) t)).
  assert (inTree t2 C2 (N g (N p (N z L R) S) U)) as Hin3
    by (repeat apply inTree_upd; auto using keepsLinks_withColor).
  
  destruct (RotateRight_spec _ _ _ _ _ _ _ Hin3) as (Hrun & Hin4 & Hsd).
  exists (rotatedRight C2 p g (rootOf S) t2).
  split; [|split; [|split]].
  - intros fuel Hf. destruct fuel as [|fuel]; [lia|].
    cbn [fixupPut_loop]. unfold_accessors. do 5 stp. 
    erewrite bind_read.
    2:{ simpl in Hrep2. destruct Hrep2 as (_ & ng' & Hg' & _ & _ & HU).
        assert (ng' = ng) as -> by congruence. rewrite Hgr in HU.
        apply (isRed_colorOf _ _ _ HU). }
    rewrite Huc. cbn [isBlack negb]. cbn iota.
    do 5 stp. fold t2.
    rewrite (bind_ok _ _ _ _ _ Hrun).
    apply (fixupPut_loop_exit_black _ (InL C2 p (N g S U)) z L R p);
      [eapply inTree_refocus; [|exact Hin4]; reflexivity|done| |lia].
    rewrite (sameData_colorOf _ _ _ Hsd). unfold t2.
    erewrite colorOf_lookup by lk. reflexivity.
  - exact Hin4.
  - eapply sameEntries_trans; [|apply sameData_sameEntries, Hsd].
    unfold t2. eapply sameEntries_trans; apply sameEntries_upd; done.
  - intros x. rewrite (sameData_colorOf _ _ _ Hsd). unfold t2.
    rewrite !colorOf_upd_color by (eexists; lk). done.
Qed.

Lemma fixup_case3_RR t C2 g U p S z L R :
  inTree t (InR (InR C2 g U) p S) (N z L R) ->
  colorOf t (Some p) = RED ->
  colorOf t (rootOf U) = BLACK ->
  exists t',
    (forall fuel, (2 <= fuel)%nat ->
       fixupPut_loop fuel (Some z) t = Ok (tt, t'))
    /\ inTree t' C2 (N p (N g U S) (N z L R))
    /\ sameEntries t t'
    /\ forall x, colorOf t' (Some x)
                 = if decide (x = g) then RED
                   else if decide (x = p) then BLACK
                   else colorOf t (Some x).
Proof.
  intros Hin Hpc Huc.
  destruct (inTree_node _ _ _ _ _ Hin) as (nz & Hz & Hzp & _).
  destruct (inTree_InR _ _ _ _ _ Hin) as (np & Hp & Hpr & Hpl & Hpp).
  simpl in Hzp, Hpr, Hpp.
  assert (inTree t (InR C2 g U) (N p S (N z L R))) as Hin1
    by (eapply inTree_refocus; [|exact Hin]; reflexivity).
  destruct (inTree_InR _ _ _ _ _ Hin1) as (ng & Hg & Hgr & Hgl & Hgp).
  simpl in Hgr.
  assert (inTree t C2 (N g U (N p S (N z L R)))) as Hin2
    by (eapply inTree_refocus; [|exact Hin]; reflexivity).
  rewrite (colorOf_lookup _ _ _ Hp) in Hpc.
  pose proof Hin2 as (_ & Hrep2 & Hnd). simpl in Hnd. nodup_atoms Hnd.
  assert (z <> p /\ z <> g /\ p <> g) as (Hzp' & Hzg & Hpg) by nda.
  assert (rootOf S <> Some z) as HSz by nda.
  assert (rootOf U <> Some p) as HUp by nda.
  set (t2 := upd g (withColor RED) (upd p (withColor BLACK) t)).
  assert (inTree t2 C2 (N g U (N p S (N z L R)))) as Hin3
    by (repeat apply inTree_upd; auto using keepsLinks_withColor).
  destruct (RotateLeft_spec _ _ _ _ _ _ _ Hin3) as (Hrun & Hin4 & Hsd).
  exists (rotatedLeft C2 g p (rootOf S) t2).
  split; [|split; [|split]].
  - intros fuel Hf. destruct fuel as [|fuel]; [lia|].
    cbn [fixupPut_loop]. unfold_accessors. do 5 stp.
    erewrite bind_read.
    2:{ simpl in Hrep2. destruct Hrep2 as (_ & ng' & Hg' & _ & HU & _).
        assert (ng' = ng) as -> by congruence. rewrite Hgl in HU.
        apply (isRed_colorOf _ _ _ HU). }
    rewrite Huc. cbn [isBlack negb]. cbn iota.
    do 5 stp. fold t2.
    rewrite (bind_ok _ _ _ _ _ Hrun).
    apply (fixupPut_loop_exit_black _ (InR C2 p (N g U S)) z L R p);
      [eapply inTree_refocus; [|exact Hin4]; reflexivity|done| |lia].
    rewrite (sameData_colorOf _ _ _ Hsd). unfold t2.
    erewrite colorOf_lookup by lk. reflexivity.
  - exact Hin4.
  - eapply sameEntries_trans; [|apply sameData_sameEntries, Hsd].
    unfold t2. eapply sameEntries_trans; apply sameEntries_upd; done.
  - intros x. rewrite (sameData_colorOf _ _ _ Hsd). unfold t2.
    rewrite !colorOf_upd_color by (eexists; lk). done.
Qed.

Lemma fixup_case2_LR t C2 g U p S z L R :
  inTree t (InR (InL C2 g U) p S) (N z L R) ->
  colorOf t (Some p) = RED ->
  colorOf t (rootOf U) = BLACK ->
  exists t',
    (forall fuel, (2 <= fuel)%nat ->
       fixupPut_loop fuel (Some z) t = Ok (tt, t'))
    /\ inTree t' C2 (N z (N p S L) (N g R U))
    /\ sameEntries t t'
    /\ forall x, colorOf t' (Some x)
                 = if decide (x = g) then RED
                   else if decide (x = z) then BLACK
                   else colorOf t (Some x).
Proof.
  intros Hin Hpc Huc.
  destruct (inTree_node _ _ _ _ _ Hin) as (nz & Hz & Hzp & _).
  destruct (inTree_InR _ _ _ _ _ Hin) as (np & Hp & Hpr & Hpl & Hpp).
  simpl in Hzp, Hpr, Hpp.
  assert (inTree t (InL C2 g U) (N p S (N z L R))) as Hin1
    by (eapply inTree_refocus; [|exact Hin]; reflexivity).
  destruct (inTree_InL _ _ _ _ _ Hin1) as (ng & Hg & Hgl & Hgr & Hgp).
  simpl in Hgl.
  assert (inTree t C2 (N g (N p S (N z L R)) U)) as Hin2
    by (eapply inTree_refocus; [|exact Hin]; reflexivity).
  rewrite (colorOf_lookup _ _ _ Hp) in Hpc.
  pose proof Hin2 as (_ & Hrep2 & Hnd). simpl in Hnd. nodup_atoms Hnd.
  assert (z <> p /\ z <> g /\ p <> g) as (Hzp' & Hzg & Hpg) by nda.
  (* case 2: rotate left at p *)
  destruct (RotateLeft_spec _ _ _ _ _ _ _ Hin1) as (Hrun1 & Hin3 & Hsd1).
  set (t1 := rotatedLeft (InL C2 g U) p z (rootOf L) t) in *.
  assert (inTree t1 (InL (InL C2 g U) z R) (N p S L)) as Hin3p
    by (eapply inTree_refocus; [|exact Hin3]; reflexivity).
  destruct (inTree_node _ _ _ _ _ Hin3p) as (np1 & Hp1 & Hpp1 & _).
  destruct (inTree_node _ _ _ _ _ Hin3) as (nz1 & Hz1 & _).
  destruct (inTree_InL _ _ _ _ _ Hin3) as (ng1 & Hg1 & _).
  simpl in Hpp1.
  (* case 3: recolour and rotate right at g *)
  set (t3 := upd g (withColor RED) (upd z (withColor BLACK) t1)).
  assert (inTree t3 C2 (N g (N z (N p S L) R) U)) as Hin4.
  { unfold t3. do 2 (apply inTree_upd; [apply keepsLinks_withColor|]).
    eapply inTree_refocus; [|exact Hin3]; reflexivity. }
  destruct (RotateRight_spec _ _ _ _ _ _ _ Hin4) as (Hrun2 & Hin5 & Hsd2).
  exists (rotatedRight C2 z g (rootOf R) t3).
  split; [|split; [|split]].
  - intros fuel Hf. destruct fuel as [|fuel]; [lia|].
    cbn [fixupPut_loop]. unfold_accessors. do 5 stp.
    erewrite bind_read.
    2:{ simpl in Hrep2. destruct Hrep2 as (_ & ng' & Hg' & _ & _ & HU).
        assert (ng' = ng) as -> by congruence. rewrite Hgr in HU.
        apply (isRed_colorOf _ _ _ HU). }
    rewrite Huc. cbn [isBlack negb]. cbn iota.
    stp. rewrite bind_bind. rewrite (bind_ok _ _ _ _ _ Hrun1).
    do 4 stp. fold t3.
    rewrite (bind_ok _ _ _ _ _ Hrun2).
    apply (fixupPut_loop_exit_black _ (InL C2 z (N g R U)) p S L z);
      [eapply inTree_refocus; [|exact Hin5]; reflexivity|done| |lia].
    rewrite (sameData_colorOf _ _ _ Hsd2). unfold t3.
    erewrite colorOf_lookup by lk. reflexivity.
  - exact Hin5.
  - eapply sameEntries_trans; [apply sameData_sameEntries, Hsd1|].
    eapply sameEntries_trans; [|apply sameData_sameEntries, Hsd2].
    unfold t3. eapply sameEntries_trans; apply sameEntries_upd; done.
  - intros x. rewrite (sameData_colorOf _ _ _ Hsd2). unfold t3.
    rewrite !colorOf_upd_color by (eexists; lk).
    by rewrite (sameData_colorOf _ _ _ Hsd1).
Qed.

Lemma fixup_case2_RL t C2 g U p S z L R :
  inTree t (InL (InR C2 g U) p S) (N z L R) ->
  colorOf t (Some p) = RED ->
  colorOf t (rootOf U) = BLACK ->
  exists t',
    (forall fuel, (2 <= fuel)%nat ->
       fixupPut_loop fuel (Some z) t = Ok (tt, t'))
    /\ inTree t' C2 (N z (N g U L) (N p R S))
    /\ sameEntries t t'
    /\ forall x, colorOf t' (Some x)
                 = if decide (x = g) then RED
                   else if decide (x = z) then BLACK
                   else colorOf t (Some x).
Proof.
  intros Hin Hpc Huc.
  destruct (inTree_node _ _ _ _ _ Hin) as (nz & Hz & Hzp & _).
  destruct (inTree_InL _ _ _ _ _ Hin) as (np & Hp & Hpl & Hpr & Hpp).
  simpl in Hzp, Hpl, Hpp.
  assert (inTree t (InR C2 g U) (N p (N z L R) S)) as Hin1
    by (eapply inTree_refocus; [|exact Hin]; reflexivity).
  destruct (inTree_InR _ _ _ _ _ Hin1) as (ng & Hg & Hgr & Hgl & Hgp).
  simpl in Hgr.
  assert (inTree t C2 (N g U (N p (N z L R) S))) as Hin2
    by (eapply inTree_refocus; [|exact Hin]; reflexivity).
  rewrite (colorOf_lookup _ _ _ Hp) in Hpc.
  pose proof Hin2 as (_ & Hrep2 & Hnd). simpl in Hnd. nodup_atoms Hnd.
  assert (z <> p /\ z <> g /\ p <> g) as (Hzp' & Hzg & Hpg) by nda.
  assert (rootOf U <> Some p) as HUp by nda.
  (* case 2: rotate right at p *)
  destruct (RotateRight_spec _ _ _ _ _ _ _ Hin1) as (Hrun1 & Hin3 & Hsd1).
  set (t1 := rotatedRight (InR C2 g U) z p (rootOf R) t) in *.
  assert (inTree t1 (InR (InR C2 g U) z L) (N p R S)) as Hin3p
    by (eapply inTree_refocus; [|exact Hin3]; reflexivity).
  destruct (inTree_node _ _ _ _ _ Hin3p) as (np1 & Hp1 & Hpp1 & _).
  destruct (inTree_node _ _ _ _ _ Hin3) as (nz1 & Hz1 & _).
  destruct (inTree_InR _ _ _ _ _ Hin3) as (ng1 & Hg1 & _).
  simpl in Hpp1.
  (* case 3: recolour and rotate left at g *)
  set (t3 := upd g (withColor RED) (upd z (withColor BLACK) t1)).
  assert (inTree t3 C2 (N g U (N z L (N p R S)))) as Hin4.
  { unfold t3. do 2 (apply inTree_upd; [apply keepsLinks_withColor|]).
    eapply inTree_refocus; [|exact Hin3]; reflexivity. }
  destruct (RotateLeft_spec _ _ _ _ _ _ _ Hin4) as (Hrun2 & Hin5 & Hsd2).
  exists (rotatedLeft C2 g z (rootOf L) t3).
  split; [|split; [|split]].
  - intros fuel Hf. destruct fuel as [|fuel]; [lia|].
    cbn [fixupPut_loop]. unfold_accessors. do 5 stp.
    erewrite bind_read.
    2:{ simpl in Hrep2. destruct Hrep2 as (_ & ng' & Hg' & _ & HU & _).
        assert (ng' = ng) as -> by congruence. rewrite Hgl in HU.
        apply (isRed_colorOf _ _ _ HU). }
    rewrite Huc. cbn [isBlack negb]. cbn iota.
    stp. rewrite bind_bind. rewrite (bind_ok _ _ _ _ _ Hrun1).
    do 4 stp. fold t3.
    rewrite (bind_ok _ _ _ _ _ Hrun2).
    apply (fixupPut_loop_exit_black _ (InR C2 z (N g U L)) p R S z);
      [eapply inTree_refocus; [|exact Hin5]; reflexivity|done| |lia].
    rewrite (sameData_colorOf _ _ _ Hsd2). unfold t3.
    erewrite colorOf_lookup by lk. reflexivity.
  - exact Hin5.
  - eapply sameEntries_trans; [apply sameData_sameEntries, Hsd1|].
    eapply sameEntries_trans; [|apply sameData_sameEntries, Hsd2].
    unfold t3. eapply sameEntries_trans; apply sameEntries_upd; done.
  - intros x. rewrite (sameData_colorOf _ _ _ Hsd2). unfold t3.
    rewrite !colorOf_upd_color by (eexists; lk).
    by rewrite (sameData_colorOf _ _ _ Hsd1).
Qed.

Lemma colorOf_upd_ne t l f r :
  l <> r -> colorOf (upd l f t) (Some r) = colorOf t (Some r).
Proof. intros H. simpl. by rewrite lookup_upd_ne. Qed.

Lemma colorOf_red_node t s :
  colorOf t (rootOf s) = RED -> exists u U1 U2, s = N u U1 U2.
Proof. destruct s; simpl; [done|eauto]. Qed.

Lemma fixup_case1_L t C2 g u U1 U2 p P1 P2 z nz fuel :
  inTree t (InL C2 g (N u U1 U2)) (N p P1 P2) ->
  nodes t !! z = Some nz -> parent nz = Some p ->
  colorOf t (Some p) = RED ->
  colorOf t (Some u) = RED ->
  fixupPut_loop (S fuel) (Some z) t
  = fixupPut_loop fuel (Some g)
      (upd g (withColor RED)
         (upd u (withColor BLACK) (upd p (withColor BLACK) t))).
Proof.
  intros Hin Hz Hzp Hpc Huc.
  destruct (inTree_node _ _ _ _ _ Hin) as (np & Hp & Hpp & _).
  destruct (inTree_InL _ _ _ _ _ Hin) as (ng & Hg & Hgl & Hgr & Hgp).
  simpl in Hpp, Hgl, Hgr.
  assert (inTree t C2 (N g (N p P1 P2) (N u U1 U2))) as Hin2
    by (eapply inTree_refocus; [|exact Hin]; reflexivity).
  pose proof Hin2 as (_ & Hrep2 & Hnd). simpl in Hnd. nodup_atoms Hnd.
  simpl in Hrep2. destruct Hrep2 as (_ & ng' & Hg' & _ & _ & _ & nu & Hu & _).
  clear Hg'.
  rewrite (colorOf_lookup _ _ _ Hp) in Hpc.
  rewrite (colorOf_lookup _ _ _ Hu) in Huc.
  assert (p <> u /\ p <> g /\ u <> g) as (Hpu & Hpg & Hug) by nda.
  cbn [fixupPut_loop]. unfold_accessors. do 5 stp.
  erewrite bind_read by (by apply isRed_Some).
  rewrite Huc. cbn iota. do 3 stp. reflexivity.
Qed.

Lemma fixup_case1_R t C2 g u U1 U2 p P1 P2 z nz fuel :
  inTree t (InR C2 g (N u U1 U2)) (N p P1 P2) ->
  nodes t !! z = Some nz -> parent nz = Some p ->
  colorOf t (Some p) = RED ->
  colorOf t (Some u) = RED ->
  fixupPut_loop (S fuel) (Some z) t
  = fixupPut_loop fuel (Some g)
      (upd g (withColor RED)
         (upd u (withColor BLACK) (upd p (withColor BLACK) t))).
Proof.
  intros Hin Hz Hzp Hpc Huc.
  destruct (inTree_node _ _ _ _ _ Hin) as (np & Hp & Hpp & _).
  destruct (inTree_InR _ _ _ _ _ Hin) as (ng & Hg & Hgr & Hgl & Hgp).
  simpl in Hpp, Hgl, Hgr.
  assert (inTree t C2 (N g (N u U1 U2) (N p P1 P2))) as Hin2
    by (eapply inTree_refocus; [|exact Hin]; reflexivity).
  pose proof Hin2 as (_ & Hrep2 & Hnd). simpl in Hnd. nodup_atoms Hnd.
  simpl in Hrep2. destruct Hrep2 as (_ & ng' & Hg' & _ & (_ & nu & Hu & _) & _).
  clear Hg'.
  rewrite (colorOf_lookup _ _ _ Hp) in Hpc.
  rewrite (colorOf_lookup _ _ _ Hu) in Huc.
  assert (p <> u /\ p <> g /\ u <> g) as (Hpu & Hpg & Hug) by nda.
  cbn [fixupPut_loop]. unfold_accessors. do 5 stp.
  erewrite bind_read by (by apply isRed_Some).
  rewrite Huc. cbn iota. do 3 stp. reflexivity.
Qed.

(** ** The colour invariants *)

Lemma colorOf_rootOf_ext t t' s :
  (forall l, In l (inorder s) -> colorOf t' (Some l) = colorOf t (Some l)) ->
  colorOf t' (rootOf s) = colorOf t (rootOf s).
Proof.
  intros H. destruct s as [|l L R]; [done|]. apply H. simpl.
  rewrite in_app_iff. simpl. auto.
Qed.

Lemma ext_node (P : loc -> Prop) l L R :
  (forall x, In x (inorder (N l L R)) -> P x) ->
  (forall x, In x (inorder L) -> P x) /\ P l
  /\ (forall x, In x (inorder R) -> P x).
Proof.
  intros H. repeat split; intros; apply H; simpl; rewrite in_app_iff;
    simpl; auto.
Qed.

Lemma noRedRed_ext t t' s :
  (forall l, In l (inorder s) -> colorOf t' (Some l) = colorOf t (Some l)) ->
  noRedRed t' s = noRedRed t s.
Proof.
  induction s as [|l L IHL R IHR]; intros H; [done|].
  apply ext_node in H as (HL & Hl & HR). cbn [noRedRed].
  by rewrite (IHL HL), (IHR HR), Hl, (colorOf_rootOf_ext _ _ _ HL),
    (colorOf_rootOf_ext _ _ _ HR).
Qed.

Lemma blackHeight_ext t t' s :
  (forall l, In l (inorder s) -> colorOf t' (Some l) = colorOf t (Some l)) ->
  blackHeight t' s = blackHeight t s.
Proof.
  induction s as [|l L IHL R IHR]; intros H; [done|].
  apply ext_node in H as (HL & Hl & HR). cbn [blackHeight].
  by rewrite (IHL HL), (IHR HR), Hl.
Qed.

Lemma okCtx_ext t t' C :
  (forall l, In l (ctxLocs C) -> colorOf t' (Some l) = colorOf t (Some l)) ->
  forall h, okCtx t C h -> okCtx t' C h.
Proof.
  unfold ctxLocs.
  induction C as [|C IH p R|C IH p L]; intros H h; [done|..]; simpl in H.
  - intros (Hb & Hn & Hp & HC).
    assert (colorOf t' (Some p) = colorOf t (Some p)) as Hcp
      by (apply H; rewrite in_app_iff; simpl; auto).
    assert (forall l, In l (inorder R) ->
              colorOf t' (Some l) = colorOf t (Some l)) as HR
      by (intros; apply H; rewrite !in_app_iff; simpl;
          rewrite in_app_iff; auto).
    assert (forall l, In l (ctxBefore C ++ ctxAfter C) ->
              colorOf t' (Some l) = colorOf t (Some l)) as HC'
      by (intros l Hl; apply H; rewrite !in_app_iff in *; simpl;
          rewrite in_app_iff; tauto).
    cbn [okCtx]. rewrite Hcp, (blackHeight_ext t t'), (noRedRed_ext t t'),
      (colorOf_rootOf_ext t t') by done.
    split; [done|]. split; [done|]. split; [|by apply IH].
    destruct (holeParent C) as [q|] eqn:Hq; [|done].
    rewrite HC'. { done. } by apply holeParent_in.
  - intros (Hb & Hn & Hp & HC).
    assert (colorOf t' (Some p) = colorOf t (Some p)) as Hcp
      by (apply H; rewrite !in_app_iff; simpl; auto).
    assert (forall l, In l (inorder L) ->
              colorOf t' (Some l) = colorOf t (Some l)) as HL
      by (intros; apply H; rewrite !in_app_iff; simpl; auto).
    assert (forall l, In l (ctxBefore C ++ ctxAfter C) ->
              colorOf t' (Some l) = colorOf t (Some l)) as HC'
      by (intros l Hl; apply H; rewrite !in_app_iff in *; tauto).
    cbn [okCtx]. rewrite Hcp, (blackHeight_ext t t'), (noRedRed_ext t t'),
      (colorOf_rootOf_ext t t') by done.
    split; [done|]. split; [done|]. split; [|by apply IH].
    destruct (holeParent C) as [q|] eqn:Hq; [|done].
    rewrite HC'. { done. } by apply holeParent_in.
Qed.

Lemma color_cases (c : Color) : c = BLACK \/ c = RED.
Proof. destruct c; auto. Qed.

Lemma noRedRed_node t l L R :
  noRedRed t (N l L R) = true
  <-> (colorOf t (Some l) = RED ->
       colorOf t (rootOf L) = BLACK /\ colorOf t (rootOf R) = BLACK)
      /\ noRedRed t L = true /\ noRedRed t R = true.
Proof.
  cbn [noRedRed]. rewrite !andb_true_iff, orb_true_iff, andb_true_iff.
  destruct (colorOf t (Some l)), (colorOf t (rootOf L)),
    (colorOf t (rootOf R)); simpl; intuition congruence.
Qed.

Lemma blackHeight_node t l L R h :
  blackHeight t (N l L R) = Some h
  <-> exists h0, blackHeight t L = Some h0 /\ blackHeight t R = Some h0
        /\ h = if isBlack (colorOf t (Some l)) then S h0 else h0.
Proof.
  cbn [blackHeight].
  destruct (blackHeight t L) as [a|], (blackHeight t R) as [b|];
    try (split; [done|intros (? & ? & ? & _); done]).
  destruct (Nat.eqb_spec a b) as [->|Hne].
  - split; [intros [= <-]; eauto|]. intros (h0 & [= ->] & _ & ->). done.
  - split; [done|]. intros (h0 & [= ->] & [= ->] & _). done.
Qed.

(** A subtree fits the hole of a context exactly when the whole is in
    order. *)
Lemma plug_ok t C : forall X,
  (noRedRed t (plug C X) = true /\ is_Some (blackHeight t (plug C X)))
  <-> exists h,
        blackHeight t X = Some h /\ noRedRed t X = true
        /\ (colorOf t (holeParent C) = RED -> colorOf t (rootOf X) = BLACK)
        /\ okCtx t C h.
Proof.
  induction C as [|C IH p R|C IH p L]; intros X; cbn [plug].
  - simpl. split.
    + intros (Hn & h & Hh). exists h. done.
    + intros (h & Hh & Hn & _). split; [done|by exists h].
  - rewrite IH. cbn [okCtx holeParent rootOf]. split.
    + intros (h' & Hb & Hn & Hp & HC).
      apply blackHeight_node in Hb as (h & HX & HR & ->).
      apply noRedRed_node in Hn as (Hred & HnX & HnR).
      exists h. split_and!; try done; try (by intros ?; apply Hred).
      intros Hpc. split; [by apply Hred|].
      destruct (color_cases (colorOf t (holeParent C))) as [|Hc]; [done|].
      apply Hp in Hc. congruence.
    + intros (h & HX & HnX & Hp & HR & HnR & Hred & HC).
      exists (if isBlack (colorOf t (Some p)) then S h else h).
      split; [apply blackHeight_node; eauto|].
      split; [apply noRedRed_node; naive_solver|]. split; [|done].
      intros Hc. destruct (color_cases (colorOf t (Some p))) as [|Hpc];
        [done|]. apply Hred in Hpc as [_ Hpc]. congruence.
  - rewrite IH. cbn [okCtx holeParent rootOf]. split.
    + intros (h' & Hb & Hn & Hp & HC).
      apply blackHeight_node in Hb as (h & HL & HX & ->).
      apply noRedRed_node in Hn as (Hred & HnL & HnX).
      exists h. split_and!; try done; try (by intros ?; apply Hred).
      intros Hpc. split; [by apply Hred|].
      destruct (color_cases (colorOf t (holeParent C))) as [|Hc]; [done|].
      apply Hp in Hc. congruence.
    + intros (h & HX & HnX & Hp & HL & HnL & Hred & HC).
      exists (if isBlack (colorOf t (Some p)) then S h else h).
      split; [apply blackHeight_node; eauto|].
      split; [apply noRedRed_node; naive_solver|]. split; [|done].
      intros Hc. destruct (color_cases (colorOf t (Some p))) as [|Hpc];
        [done|]. apply Hred in Hpc as [_ Hpc]. congruence.
Qed.

(** The colours of [t'] are those of [t] but for [g], now red, and [a],
    now black. *)
Ltac col_same Hcol :=
  let x := fresh "x" in
  let Hx := fresh "Hx" in
  intros x Hx; simpl in Hx; rewrite Hcol;
  repeat (destruct (decide _) as [->|?]; [exfalso; nda|]);
  reflexivity.

Lemma rb_case3_LL t t' C2 g U p S z L R h :
  NoDup (ctxBefore C2 ++ inorder (N g (N p (N z L R) S) U) ++ ctxAfter C2) ->
  (forall x, colorOf t' (Some x)
             = if decide (x = g) then RED
               else if decide (x = p) then BLACK
               else colorOf t (Some x)) ->
  colorOf t (Some p) = RED ->
  colorOf t (rootOf U) = BLACK ->
  noRedRed t (N z L R) = true ->
  blackHeight t (N z L R) = Some h ->
  okCtx t (InL (InL C2 g U) p S) h ->
  noRedRed t' (plug C2 (N p (N z L R) (N g S U))) = true
  /\ is_Some (blackHeight t' (plug C2 (N p (N z L R) (N g S U)))).
Proof.
  intros Hnd Hcol Hp Hu Hn Hb (HbS & HnS & HredP & HC1).
  destruct (HredP Hp) as [HSb Hg]. cbn [holeParent] in Hg.
  cbn [okCtx] in HC1. rewrite Hp, Hg in HC1. cbn [isBlack] in HC1.
  destruct HC1 as (HbU & HnU & _ & HC2).
  simpl in Hnd. nodup_atoms Hnd.
  assert (colorOf t' (Some g) = RED) as Hg'
    by (rewrite Hcol, decide_True; done).
  assert (colorOf t' (Some p) = BLACK) as Hp'
    by (rewrite Hcol, decide_False, decide_True; [done..|nda]).
  assert (forall x, In x (inorder (N z L R)) ->
            colorOf t' (Some x) = colorOf t (Some x)) as HZ
    by col_same Hcol.
  assert (forall x, In x (inorder S) ->
            colorOf t' (Some x) = colorOf t (Some x)) as HS
    by col_same Hcol.
  assert (forall x, In x (inorder U) ->
            colorOf t' (Some x) = colorOf t (Some x)) as HU
    by col_same Hcol.
  assert (forall x, In x (ctxLocs C2) ->
            colorOf t' (Some x) = colorOf t (Some x)) as HC
    by (unfold ctxLocs; col_same Hcol).
  apply plug_ok. exists (Datatypes.S h). split_and!.
  - apply blackHeight_node. exists h. rewrite Hp'. split_and!; [|
      |done].
    + by rewrite (blackHeight_ext _ _ _ HZ).
    + apply blackHeight_node. exists h. rewrite Hg'.
      by rewrite (blackHeight_ext _ _ _ HS), (blackHeight_ext _ _ _ HU).
  - apply noRedRed_node. rewrite Hp'. split_and!; [done| |].
    + by rewrite (noRedRed_ext _ _ _ HZ).
    + apply noRedRed_node.
      rewrite (noRedRed_ext _ _ _ HS), (noRedRed_ext _ _ _ HU),
        (colorOf_rootOf_ext _ _ _ HS), (colorOf_rootOf_ext _ _ _ HU).
      done.
  - done.
  - by apply (okCtx_ext t).
Qed.

Lemma rb_case3_RR t t' C2 g U p S z L R h :
  NoDup (ctxBefore C2 ++ inorder (N g U (N p S (N z L R))) ++ ctxAfter C2) ->
  (forall x, colorOf t' (Some x)
             = if decide (x = g) then RED
               else if decide (x = p) then BLACK
               else colorOf t (Some x)) ->
  colorOf t (Some p) = RED ->
  colorOf t (rootOf U) = BLACK ->
  noRedRed t (N z L R) = true ->
  blackHeight t (N z L R) = Some h ->
  okCtx t (InR (InR C2 g U) p S) h ->
  noRedRed t' (plug C2 (N p (N g U S) (N z L R))) = true
  /\ is_Some (blackHeight t' (plug C2 (N p (N g U S) (N z L R)))).
Proof.
  intros Hnd Hcol Hp Hu Hn Hb (HbS & HnS & HredP & HC1).
  destruct (HredP Hp) as [HSb Hg]. cbn [holeParent] in Hg.
  cbn [okCtx] in HC1. rewrite Hp, Hg in HC1. cbn [isBlack] in HC1.
  destruct HC1 as (HbU & HnU & _ & HC2).
  simpl in Hnd. nodup_atoms Hnd.
  assert (colorOf t' (Some g) = RED) as Hg'
    by (rewrite Hcol, decide_True; done).
  assert (colorOf t' (Some p) = BLACK) as Hp'
    by (rewrite Hcol, decide_False, decide_True; [done..|nda]).
  assert (forall x, In x (inorder (N z L R)) ->
            colorOf t' (Some x) = colorOf t (Some x)) as HZ
    by col_same Hcol.
  assert (forall x, In x (inorder S) ->
            colorOf t' (Some x) = colorOf t (Some x)) as HS
    by col_same Hcol.
  assert (forall x, In x (inorder U) ->
            colorOf t' (Some x) = colorOf t (Some x)) as HU
    by col_same Hcol.
  assert (forall x, In x (ctxLocs C2) ->
            colorOf t' (Some x) = colorOf t (Some x)) as HC
    by (unfold ctxLocs; col_same Hcol).
  apply plug_ok. exists (Datatypes.S h). split_and!.
  - apply blackHeight_node. exists h. rewrite Hp'. split_and!; [|
      |done].
    + apply blackHeight_node. exists h. rewrite Hg'.
      by rewrite (blackHeight_ext _ _ _ HS), (blackHeight_ext _ _ _ HU).
    + by rewrite (blackHeight_ext _ _ _ HZ).
  - apply noRedRed_node. rewrite Hp'. split_and!; [done| |].
    + apply noRedRed_node.
      rewrite (noRedRed_ext _ _ _ HS), (noRedRed_ext _ _ _ HU),
        (colorOf_rootOf_ext _ _ _ HS), (colorOf_rootOf_ext _ _ _ HU).
      done.
    + by rewrite (noRedRed_ext _ _ _ HZ).
  - done.
  - by apply (okCtx_ext t).
Qed.

Lemma rb_case2_LR t t' C2 g U p S z L R h :
  NoDup (ctxBefore C2 ++ inorder (N g (N p S (N z L R)) U) ++ ctxAfter C2) ->
  (forall x, colorOf t' (Some x)
             = if decide (x = g) then RED
               else if decide (x = z) then BLACK
               else colorOf t (Some x)) ->
  colorOf t (Some z) = RED ->
  colorOf t (Some p) = RED ->
  colorOf t (rootOf U) = BLACK ->
  noRedRed t (N z L R) = true ->
  blackHeight t (N z L R) = Some h ->
  okCtx t (InR (InL C2 g U) p S) h ->
  noRedRed t' (plug C2 (N z (N p S L) (N g R U))) = true
  /\ is_Some (blackHeight t' (plug C2 (N z (N p S L) (N g R U)))).
Proof.
  intros Hnd Hcol Hz Hp Hu Hn Hb (HbS & HnS & HredP & HC1).
  destruct (HredP Hp) as [HSb Hg]. cbn [holeParent] in Hg.
  cbn [okCtx] in HC1. rewrite Hp, Hg in HC1. cbn [isBlack] in HC1.
  destruct HC1 as (HbU & HnU & _ & HC2).
  apply noRedRed_node in Hn as (Hzred & HnL & HnR).
  destruct (Hzred Hz) as [HLb HRb].
  apply blackHeight_node in Hb as (h0 & HbL & HbR & ->).
  rewrite Hz in *. cbn [isBlack] in *.
  simpl in Hnd. nodup_atoms Hnd.
  assert (colorOf t' (Some g) = RED) as Hg'
    by (rewrite Hcol, decide_True; done).
  assert (colorOf t' (Some z) = BLACK) as Hz'
    by (rewrite Hcol, decide_False, decide_True; [done..|nda]).
  assert (colorOf t' (Some p) = RED) as Hp'
    by (rewrite Hcol, !decide_False; [done|nda..]).
  assert (forall x, In x (inorder L) ->
            colorOf t' (Some x) = colorOf t (Some x)) as HL
    by col_same Hcol.
  assert (forall x, In x (inorder R) ->
            colorOf t' (Some x) = colorOf t (Some x)) as HR
    by col_same Hcol.
  assert (forall x, In x (inorder S) ->
            colorOf t' (Some x) = colorOf t (Some x)) as HS
    by col_same Hcol.
  assert (forall x, In x (inorder U) ->
            colorOf t' (Some x) = colorOf t (Some x)) as HU
    by col_same Hcol.
  assert (forall x, In x (ctxLocs C2) ->
            colorOf t' (Some x) = colorOf t (Some x)) as HC
    by (unfold ctxLocs; col_same Hcol).
  apply plug_ok. exists (Datatypes.S h0). split_and!.
  - apply blackHeight_node. exists h0. rewrite Hz'. split_and!; [|
      |done].
    + apply blackHeight_node. exists h0. rewrite Hp'.
      by rewrite (blackHeight_ext _ _ _ HS), (blackHeight_ext _ _ _ HL).
    + apply blackHeight_node. exists h0. rewrite Hg'.
      by rewrite (blackHeight_ext _ _ _ HR), (blackHeight_ext _ _ _ HU).
  - apply noRedRed_node. rewrite Hz'. split_and!; [done| |].
    + apply noRedRed_node.
      rewrite (noRedRed_ext _ _ _ HS), (noRedRed_ext _ _ _ HL),
        (colorOf_rootOf_ext _ _ _ HS), (colorOf_rootOf_ext _ _ _ HL).
      done.
    + apply noRedRed_node.
      rewrite (noRedRed_ext _ _ _ HR), (noRedRed_ext _ _ _ HU),
        (colorOf_rootOf_ext _ _ _ HR), (colorOf_rootOf_ext _ _ _ HU).
      done.
  - done.
  - by apply (okCtx_ext t).
Qed.

Lemma rb_case2_RL t t' C2 g U p S z L R h :
  NoDup (ctxBefore C2 ++ inorder (N g U (N p (N z L R) S)) ++ ctxAfter C2) ->
  (forall x, colorOf t' (Some x)
             = if decide (x = g) then RED
               else if decide (x = z) then BLACK
               else colorOf t (Some x)) ->
  colorOf t (Some z) = RED ->
  colorOf t (Some p) = RED ->
  colorOf t (rootOf U) = BLACK ->
  noRedRed t (N z L R) = true ->
  blackHeight t (N z L R) = Some h ->
  okCtx t (InL (InR C2 g U) p S) h ->
  noRedRed t' (plug C2 (N z (N g U L) (N p R S))) = true
  /\ is_Some (blackHeight t' (plug C2 (N z (N g U L) (N p R S)))).
Proof.
  intros Hnd Hcol Hz Hp Hu Hn Hb (HbS & HnS & HredP & HC1).
  destruct (HredP Hp) as [HSb Hg]. cbn [holeParent] in Hg.
  cbn [okCtx] in HC1. rewrite Hp, Hg in HC1. cbn [isBlack] in HC1.
  destruct HC1 as (HbU & HnU & _ & HC2).
  apply noRedRed_node in Hn as (Hzred & HnL & HnR).
  destruct (Hzred Hz) as [HLb HRb].
  apply blackHeight_node in Hb as (h0 & HbL & HbR & ->).
  rewrite Hz in *. cbn [isBlack] in *.
  simpl in Hnd. nodup_atoms Hnd.
  assert (colorOf t' (Some g) = RED) as Hg'
    by (rewrite Hcol, decide_True; done).
  assert (colorOf t' (Some z) = BLACK) as Hz'
    by (rewrite Hcol, decide_False, decide_True; [done..|nda]).
  assert (colorOf t' (Some p) = RED) as Hp'
    by (rewrite Hcol, !decide_False; [done|nda..]).
  assert (forall x, In x (inorder L) ->
            colorOf t' (Some x) = colorOf t (Some x)) as HL
    by col_same Hcol.
  assert (forall x, In x (inorder R) ->
            colorOf t' (Some x) = colorOf t (Some x)) as HR
    by col_same Hcol.
  assert (forall x, In x (inorder S) ->
            colorOf t' (Some x) = colorOf t (Some x)) as HS
    by col_same Hcol.
  assert (forall x, In x (inorder U) ->
            colorOf t' (Some x) = colorOf t (Some x)) as HU
    by col_same Hcol.
  assert (forall x, In x (ctxLocs C2) ->
            colorOf t' (Some x) = colorOf t (Some x)) as HC
    by (unfold ctxLocs; col_same Hcol).
  apply plug_ok. exists (Datatypes.S h0). split_and!.
  - apply blackHeight_node. exists h0. rewrite Hz'. split_and!; [|
      |done].
    + apply blackHeight_node. exists h0. rewrite Hg'.
      by rewrite (blackHeight_ext _ _ _ HU), (blackHeight_ext _ _ _ HL).
    + apply blackHeight_node. exists h0. rewrite Hp'.
      by rewrite (blackHeight_ext _ _ _ HR), (blackHeight_ext _ _ _ HS).
  - apply noRedRed_node. rewrite Hz'. split_and!; [done| |].
    + apply noRedRed_node.
      rewrite (noRedRed_ext _ _ _ HU), (noRedRed_ext _ _ _ HL),
        (colorOf_rootOf_ext _ _ _ HU), (colorOf_rootOf_ext _ _ _ HL).
      done.
    + apply noRedRed_node.
      rewrite (noRedRed_ext _ _ _ HR), (noRedRed_ext _ _ _ HS),
        (colorOf_rootOf_ext _ _ _ HR), (colorOf_rootOf_ext _ _ _ HS).
      done.
  - done.
  - by apply (okCtx_ext t).
Qed.

Lemma is_Some_upd t l f x :
  is_Some (nodes t !! x) -> is_Some (nodes (upd l f t) !! x).
Proof.
  intros [n Hn]. destruct (decide (x = l)) as [->|Hne].
  - rewrite (lookup_upd_eq _ _ _ _ Hn). eauto.
  - rewrite lookup_upd_ne by done. eauto.
Qed.

Lemma colorOf_recoloured t g u p x :
  is_Some (nodes t !! g) -> is_Some (nodes t !! u) ->
  is_Some (nodes t !! p) ->
  colorOf (upd g (withColor RED)
             (upd u (withColor BLACK) (upd p (withColor BLACK) t))) (Some x)
  = if decide (x = g) then RED
    else if decide (x = u) then BLACK
    else if decide (x = p) then BLACK
    else colorOf t (Some x).
Proof.
  intros Hg Hu Hp.
  rewrite !colorOf_upd_color; [done|done|by apply is_Some_upd|].
  by do 2 apply is_Some_upd.
Qed.

Lemma rb_case1_L t t1 C2 g p P1 P2 u U1 U2 h :
  NoDup (ctxBefore C2 ++ inorder (N g (N p P1 P2) (N u U1 U2))
         ++ ctxAfter C2) ->
  (forall x, colorOf t1 (Some x)
             = if decide (x = g) then RED
               else if decide (x = u) then BLACK
               else if decide (x = p) then BLACK
               else colorOf t (Some x)) ->
  colorOf t (Some u) = RED ->
  noRedRed t P1 = true -> noRedRed t P2 = true ->
  blackHeight t P1 = Some h -> blackHeight t P2 = Some h ->
  noRedRed t (N u U1 U2) = true ->
  blackHeight t (N u U1 U2) = Some h ->
  okCtx t C2 (S h) ->
  colorOf t1 (Some g) = RED
  /\ noRedRed t1 (N g (N p P1 P2) (N u U1 U2)) = true
  /\ blackHeight t1 (N g (N p P1 P2) (N u U1 U2)) = Some (S h)
  /\ okCtx t1 C2 (S h).
Proof.
  intros Hnd Hcol Hu HnP1 HnP2 HbP1 HbP2 HnU HbU HC2.
  apply noRedRed_node in HnU as (_ & HnU1 & HnU2).
  apply blackHeight_node in HbU as (h0 & HbU1 & HbU2 & ->).
  rewrite Hu in *. cbn [isBlack] in *.
  simpl in Hnd. nodup_atoms Hnd.
  assert (colorOf t1 (Some g) = RED) as Hg'
    by (rewrite Hcol, decide_True; done).
  assert (colorOf t1 (Some u) = BLACK) as Hu'
    by (rewrite Hcol, decide_False, decide_True; [done..|nda]).
  assert (colorOf t1 (Some p) = BLACK) as Hp'
    by (rewrite Hcol, decide_False, decide_False, decide_True; [done..|nda|nda]).
  assert (forall x, In x (inorder P1) ->
            colorOf t1 (Some x) = colorOf t (Some x)) as HP1
    by col_same Hcol.
  assert (forall x, In x (inorder P2) ->
            colorOf t1 (Some x) = colorOf t (Some x)) as HP2
    by col_same Hcol.
  assert (forall x, In x (inorder U1) ->
            colorOf t1 (Some x) = colorOf t (Some x)) as HU1
    by col_same Hcol.
  assert (forall x, In x (inorder U2) ->
            colorOf t1 (Some x) = colorOf t (Some x)) as HU2
    by col_same Hcol.
  assert (forall x, In x (ctxLocs C2) ->
            colorOf t1 (Some x) = colorOf t (Some x)) as HC
    by (unfold ctxLocs; col_same Hcol).
  split_and!.
  - done.
  - apply noRedRed_node. cbn [rootOf]. rewrite Hp', Hu'.
    split_and!; [done| |].
    + apply noRedRed_node. rewrite Hp'.
      by rewrite (noRedRed_ext _ _ _ HP1), (noRedRed_ext _ _ _ HP2).
    + apply noRedRed_node. rewrite Hu'.
      by rewrite (noRedRed_ext _ _ _ HU1), (noRedRed_ext _ _ _ HU2).
  - apply blackHeight_node. exists (S h0). rewrite Hg'. split_and!; [|
      |done].
    + apply blackHeight_node. exists h0. rewrite Hp'.
      by rewrite (blackHeight_ext _ _ _ HP1), (blackHeight_ext _ _ _ HP2).
    + apply blackHeight_node. exists h0. rewrite Hu'.
      by rewrite (blackHeight_ext _ _ _ HU1), (blackHeight_ext _ _ _ HU2).
  - by apply (okCtx_ext t).
Qed.

Lemma rb_case1_R t t1 C2 g p P1 P2 u U1 U2 h :
  NoDup (ctxBefore C2 ++ inorder (N g (N u U1 U2) (N p P1 P2))
         ++ ctxAfter C2) ->
  (forall x, colorOf t1 (Some x)
             = if decide (x = g) then RED
               else if decide (x = u) then BLACK
               else if decide (x = p) then BLACK
               else colorOf t (Some x)) ->
  colorOf t (Some u) = RED ->
  noRedRed t P1 = true -> noRedRed t P2 = true ->
  blackHeight t P1 = Some h -> blackHeight t P2 = Some h ->
  noRedRed t (N u U1 U2) = true ->
  blackHeight t (N u U1 U2) = Some h ->
  okCtx t C2 (S h) ->
  colorOf t1 (Some g) = RED
  /\ noRedRed t1 (N g (N u U1 U2) (N p P1 P2)) = true
  /\ blackHeight t1 (N g (N u U1 U2) (N p P1 P2)) = Some (S h)
  /\ okCtx t1 C2 (S h).
Proof.
  intros Hnd Hcol Hu HnP1 HnP2 HbP1 HbP2 HnU HbU HC2.
  apply noRedRed_node in HnU as (_ & HnU1 & HnU2).
  apply blackHeight_node in HbU as (h0 & HbU1 & HbU2 & ->).
  rewrite Hu in *. cbn [isBlack] in *.
  simpl in Hnd. nodup_atoms Hnd.
  assert (colorOf t1 (Some g) = RED) as Hg'
    by (rewrite Hcol, decide_True; done).
  assert (colorOf t1 (Some u) = BLACK) as Hu'
    by (rewrite Hcol, decide_False, decide_True; [done..|nda]).
  assert (colorOf t1 (Some p) = BLACK) as Hp'
    by (rewrite Hcol, decide_False, decide_False, decide_True; [done..|nda|nda]).
  assert (forall x, In x (inorder P1) ->
            colorOf t1 (Some x) = colorOf t (Some x)) as HP1
    by col_same Hcol.
  assert (forall x, In x (inorder P2) ->
            colorOf t1 (Some x) = colorOf t (Some x)) as HP2
    by col_same Hcol.
  assert (forall x, In x (inorder U1) ->
            colorOf t1 (Some x) = colorOf t (Some x)) as HU1
    by col_same Hcol.
  assert (forall x, In x (inorder U2) ->
            colorOf t1 (Some x) = colorOf t (Some x)) as HU2
    by col_same Hcol.
  assert (forall x, In x (ctxLocs C2) ->
            colorOf t1 (Some x) = colorOf t (Some x)) as HC
    by (unfold ctxLocs; col_same Hcol).
  split_and!.
  - done.
  - apply noRedRed_node. cbn [rootOf]. rewrite Hp', Hu'.
    split_and!; [done| |].
    + apply noRedRed_node. rewrite Hu'.
      by rewrite (noRedRed_ext _ _ _ HU1), (noRedRed_ext _ _ _ HU2).
    + apply noRedRed_node. rewrite Hp'.
      by rewrite (noRedRed_ext _ _ _ HP1), (noRedRed_ext _ _ _ HP2).
  - apply blackHeight_node. exists (S h0). rewrite Hg'. split_and!; [|
      |done].
    + apply blackHeight_node. exists h0. rewrite Hu'.
      by rewrite (blackHeight_ext _ _ _ HU1), (blackHeight_ext _ _ _ HU2).
    + apply blackHeight_node. exists h0. rewrite Hp'.
      by rewrite (blackHeight_ext _ _ _ HP1), (blackHeight_ext _ _ _ HP2).
  - by apply (okCtx_ext t).
Qed.

Lemma recolour_root_black t C2 g u p (s : shp) :
  inTree t C2 s -> In g (inorder s) -> In u (inorder s) -> In p (inorder s) ->
  colorOf t (Root t) = BLACK ->
  colorOf (upd g (withColor RED)
             (upd u (withColor BLACK) (upd p (withColor BLACK) t)))
    (Root (upd g (withColor RED)
             (upd u (withColor BLACK) (upd p (withColor BLACK) t))))
  = BLACK \/ C2 = Top.
Proof.
  intros Hin Hg Hu Hp Hroot.
  assert (C2 = Top \/ C2 <> Top) as [->|Hne] by (destruct C2; auto);
    [by right|left].
  destruct Hin as (HC & _ & Hnd).
  destruct (repCtx_root _ _ _ HC Hne) as (r & Hr & Hin).
  rewrite !Root_upd, Hr. rewrite Hr in Hroot.
  nodup_atoms Hnd.
  rewrite !colorOf_upd_ne; [done|..]; intros ->; nda.
Qed.


Lemma inTree_locs t C s x :
  inTree t C s -> In x (ctxBefore C ++ inorder s ++ ctxAfter C) ->
  is_Some (nodes t !! x).
Proof.
  intros Hin Hx. apply wf_inTree in Hin as [Hrep _].
  apply (rep_locs _ _ _ _ _ Hrep). by rewrite inorder_plug.
Qed.

Lemma fixupPut_loop_spec n :
  forall C t z L R,
    ctxDepth C = n ->
    inTree t C (N z L R) ->
    colorOf t (Root t) = BLACK \/ C = Top ->
    exists t' s',
      (forall fuel, (ctxDepth C + 2 <= fuel)%nat ->
         fixupPut_loop fuel (Some z) t = Ok (tt, t'))
      /\ wf t' s'
      /\ inorder s' = inorder (plug C (N z L R))
      /\ sameEntries t t'
      /\ (forall h,
            colorOf t (Some z) = RED ->
            noRedRed t (N z L R) = true ->
            blackHeight t (N z L R) = Some h ->
            okCtx t C h ->
            noRedRed t' s' = true /\ is_Some (blackHeight t' s')).
Proof.
  induction n as [n IH] using lt_wf_ind.
  intros C t z L R Hn Hin Hroot.
  assert (C = Top \/ exists p, holeParent C = Some p) as [->|[p HpC]].
  { destruct C; simpl; eauto. }
  { exists t, (N z L R). split_and!.
    - intros fuel Hf. apply (fixupPut_loop_exit_top _ _ L R); [done|lia].
    - by apply wf_inTree_Top.
    - done.
    - apply sameEntries_refl.
    - intros h _ Hnz Hbz _. split; [done|by exists h]. }
  destruct Hroot as [Hroot| ->]; [|done].
  destruct (colorOf t (Some p)) eqn:Hpc.
  { exists t, (plug C (N z L R)). split_and!.
    - intros fuel Hf.
      apply (fixupPut_loop_exit_black _ C _ L R p); [done|done|done|lia].
    - by apply wf_inTree.
    - done.
    - apply sameEntries_refl.
    - intros h _ Hnz Hbz HC. apply plug_ok. exists h.
      split_and!; [done..| |done]. rewrite HpC, Hpc. done. }
  destruct (inTree_node _ _ _ _ _ Hin) as (nz & Hz & Hzp & _).
  rewrite HpC in Hzp.
  (* the parent is red, so it is not the root *)
  assert (exists C1 Sb, (C = InL C1 p Sb \/ C = InR C1 p Sb) /\ C1 <> Top)
    as (C1 & Sb & HC & HC1).
  { destruct C as [|C1 p' Sb|C1 p' Sb]; simpl in HpC; [done|..];
      injection HpC as ->; exists C1, Sb; (split; [auto|]); intros ->;
      destruct Hin as (HCr & _); simpl in HCr;
      destruct HCr as (np & _ & _ & _ & _ & Hr); rewrite Hr in Hroot;
      congruence. }
  destruct C1 as [|C2 g U|C2 g U]; [done|..]; clear HC1.
  - (* the parent is a left child *)
    destruct (colorOf t (rootOf U)) eqn:Huc.
    + destruct HC as [-> | ->].
      * destruct (fixup_case3_LL _ _ _ _ _ _ _ _ _ Hin Hpc Huc)
          as (t' & Hrun & Hin' & Hse & Hcol).
        exists t', (plug C2 (N p (N z L R) (N g Sb U))). split_and!.
        -- intros fuel Hf. apply Hrun. lia.
        -- by apply wf_inTree.
        -- rewrite !inorder_plug. simpl. rewrite <- !app_assoc. simpl.
           by rewrite <- !app_assoc.
        -- done.
        -- intros h Hzc Hnz Hbz HC.
           apply (rb_case3_LL t t' C2 g U p Sb z L R h); try done.
           assert (inTree t C2 (N g (N p (N z L R) Sb) U)) as (_ & _ & ?)
             by (eapply inTree_refocus; [|exact Hin]; done). done.
      * destruct (fixup_case2_LR _ _ _ _ _ _ _ _ _ Hin Hpc Huc)
          as (t' & Hrun & Hin' & Hse & Hcol).
        exists t', (plug C2 (N z (N p Sb L) (N g R U))). split_and!.
        -- intros fuel Hf. apply Hrun. lia.
        -- by apply wf_inTree.
        -- rewrite !inorder_plug. simpl. rewrite <- !app_assoc. simpl.
           by rewrite <- !app_assoc.
        -- done.
        -- intros h Hzc Hnz Hbz HC.
           apply (rb_case2_LR t t' C2 g U p Sb z L R h); try done.
           assert (inTree t C2 (N g (N p Sb (N z L R)) U)) as (_ & _ & ?)
             by (eapply inTree_refocus; [|exact Hin]; done). done.
    + destruct (colorOf_red_node _ _ Huc) as (u & U1 & U2 & ->).
      cbn [rootOf] in Huc.
      set (t1 := upd g (withColor RED)
                   (upd u (withColor BLACK) (upd p (withColor BLACK) t))).
      assert (exists P1 P2,
                plug C (N z L R) = plug (InL C2 g (N u U1 U2)) (N p P1 P2)
                /\ forall h, noRedRed t (N z L R) = true ->
                     blackHeight t (N z L R) = Some h -> okCtx t C h ->
                     noRedRed t P1 = true /\ noRedRed t P2 = true
                     /\ blackHeight t P1 = Some h
                     /\ blackHeight t P2 = Some h
                     /\ noRedRed t (N u U1 U2) = true
                     /\ blackHeight t (N u U1 U2) = Some h
                     /\ okCtx t C2 (S h))
        as (P1 & P2 & Hplug & Hrb).
      { destruct HC as [-> | ->].
        - exists (N z L R), Sb. split; [done|].
          intros h Hnz Hbz (HbS & HnS & HredP & HC1).
          destruct (HredP Hpc) as [_ Hg]. cbn [holeParent] in Hg.
          cbn [okCtx] in HC1. rewrite Hpc, Hg in HC1.
          cbn [isBlack] in HC1. destruct HC1 as (HbU & HnU & _ & HC2).
          done.
        - exists Sb, (N z L R). split; [done|].
          intros h Hnz Hbz (HbS & HnS & HredP & HC1).
          destruct (HredP Hpc) as [_ Hg]. cbn [holeParent] in Hg.
          cbn [okCtx] in HC1. rewrite Hpc, Hg in HC1.
          cbn [isBlack] in HC1. destruct HC1 as (HbU & HnU & _ & HC2).
          done. }
      assert (inTree t (InL C2 g (N u U1 U2)) (N p P1 P2)) as Hin1
        by (eapply inTree_refocus; [|exact Hin]; done).
      assert (inTree t C2 (N g (N p P1 P2) (N u U1 U2))) as Hin2
        by (eapply inTree_refocus; [|exact Hin1]; done).
      assert (inTree t1 C2 (N g (N p P1 P2) (N u U1 U2))) as Hin3
        by (unfold t1; do 3 (apply inTree_upd; [apply keepsLinks_withColor|]);
            done).
      assert (ctxDepth C = S (S (ctxDepth C2))) as Hd
        by (destruct HC as [-> | ->]; done).
      assert (colorOf t1 (Root t1) = BLACK \/ C2 = Top) as Hroot1.
      { apply (recolour_root_black t C2 g u p _ Hin2);
          repeat (progress (rewrite ?in_app_iff; simpl)); tauto. }
      destruct (IH (ctxDepth C2) ltac:(lia) C2 t1 g _ _ eq_refl Hin3 Hroot1)
        as (t' & s' & Hrun & Hwf & Hio & Hsk & Hrb').
      exists t', s'. split_and!.
      * intros fuel Hf. destruct fuel as [|fuel]; [lia|].
        rewrite (fixup_case1_L _ _ _ _ _ _ _ _ _ _ _ _ Hin1 Hz Hzp Hpc Huc).
        apply Hrun. lia.
      * done.
      * rewrite Hio, Hplug. done.
      * eapply sameEntries_trans; [|exact Hsk]. unfold t1.
        eapply sameEntries_trans; [eapply sameEntries_trans|];
          apply sameEntries_upd; done.
      * intros h Hzc Hnz Hbz HCh.
        destruct (Hrb h Hnz Hbz HCh) as (? & ? & ? & ? & ? & ? & ?).
        destruct (rb_case1_L t t1 C2 g p P1 P2 u U1 U2 h)
          as (? & ? & ? & ?); try done.
        { by destruct Hin2 as (_ & _ & ?). }
        { intros x. apply colorOf_recoloured;
            apply (inTree_locs _ _ _ _ Hin2);
            repeat (progress (rewrite ?in_app_iff; simpl)); tauto. }
        by apply (Hrb' (S h)).
  - (* the parent is a right child *)
    destruct (colorOf t (rootOf U)) eqn:Huc.
    + destruct HC as [-> | ->].
      * destruct (fixup_case2_RL _ _ _ _ _ _ _ _ _ Hin Hpc Huc)
          as (t' & Hrun & Hin' & Hse & Hcol).
        exists t', (plug C2 (N z (N g U L) (N p R Sb))). split_and!.
        -- intros fuel Hf. apply Hrun. lia.
        -- by apply wf_inTree.
        -- rewrite !inorder_plug. simpl. rewrite <- !app_assoc. simpl.
           by rewrite <- !app_assoc.
        -- done.
        -- intros h Hzc Hnz Hbz HC.
           apply (rb_case2_RL t t' C2 g U p Sb z L R h); try done.
           assert (inTree t C2 (N g U (N p (N z L R) Sb))) as (_ & _ & ?)
             by (eapply inTree_refocus; [|exact Hin]; done). done.
      * destruct (fixup_case3_RR _ _ _ _ _ _ _ _ _ Hin Hpc Huc)
          as (t' & Hrun & Hin' & Hse & Hcol).
        exists t', (plug C2 (N p (N g U Sb) (N z L R))). split_and!.
        -- intros fuel Hf. apply Hrun. lia.
        -- by apply wf_inTree.
        -- rewrite !inorder_plug. simpl. rewrite <- !app_assoc. simpl.
           by rewrite <- !app_assoc.
        -- done.
        -- intros h Hzc Hnz Hbz HC.
           apply (rb_case3_RR t t' C2 g U p Sb z L R h); try done.
           assert (inTree t C2 (N g U (N p Sb (N z L R)))) as (_ & _ & ?)
             by (eapply inTree_refocus; [|exact Hin]; done). done.
    + destruct (colorOf_red_node _ _ Huc) as (u & U1 & U2 & ->).
      cbn [rootOf] in Huc.
      set (t1 := upd g (withColor RED)
                   (upd u (withColor BLACK) (upd p (withColor BLACK) t))).
      assert (exists P1 P2,
                plug C (N z L R) = plug (InR C2 g (N u U1 U2)) (N p P1 P2)
                /\ forall h, noRedRed t (N z L R) = true ->
                     blackHeight t (N z L R) = Some h -> okCtx t C h ->
                     noRedRed t P1 = true /\ noRedRed t P2 = true
                     /\ blackHeight t P1 = Some h
                     /\ blackHeight t P2 = Some h
                     /\ noRedRed t (N u U1 U2) = true
                     /\ blackHeight t (N u U1 U2) = Some h
                     /\ okCtx t C2 (S h))
        as (P1 & P2 & Hplug & Hrb).
      { destruct HC as [-> | ->].
        - exists (N z L R), Sb. split; [done|].
          intros h Hnz Hbz (HbS & HnS & HredP & HC1).
          destruct (HredP Hpc) as [_ Hg]. cbn [holeParent] in Hg.
          cbn [okCtx] in HC1. rewrite Hpc, Hg in HC1.
          cbn [isBlack] in HC1. destruct HC1 as (HbU & HnU & _ & HC2).
          done.
        - exists Sb, (N z L R). split; [done|].
          intros h Hnz Hbz (HbS & HnS & HredP & HC1).
          destruct (HredP Hpc) as [_ Hg]. cbn [holeParent] in Hg.
          cbn [okCtx] in HC1. rewrite Hpc, Hg in HC1.
          cbn [isBlack] in HC1. destruct HC1 as (HbU & HnU & _ & HC2).
          done. }
      assert (inTree t (InR C2 g (N u U1 U2)) (N p P1 P2)) as Hin1
        by (eapply inTree_refocus; [|exact Hin]; done).
      assert (inTree t C2 (N g (N u U1 U2) (N p P1 P2))) as Hin2
        by (eapply inTree_refocus; [|exact Hin1]; done).
      assert (inTree t1 C2 (N g (N u U1 U2) (N p P1 P2))) as Hin3
        by (unfold t1; do 3 (apply inTree_upd; [apply keepsLinks_withColor|]);
            done).
      assert (ctxDepth C = S (S (ctxDepth C2))) as Hd
        by (destruct HC as [-> | ->]; done).
      assert (colorOf t1 (Root t1) = BLACK \/ C2 = Top) as Hroot1.
      { apply (recolour_root_black t C2 g u p _ Hin2);
          repeat (progress (rewrite ?in_app_iff; simpl)); tauto. }
      destruct (IH (ctxDepth C2) ltac:(lia) C2 t1 g _ _ eq_refl Hin3 Hroot1)
        as (t' & s' & Hrun & Hwf & Hio & Hsk & Hrb').
      exists t', s'. split_and!.
      * intros fuel Hf. destruct fuel as [|fuel]; [lia|].
        rewrite (fixup_case1_R _ _ _ _ _ _ _ _ _ _ _ _ Hin1 Hz Hzp Hpc Huc).
        apply Hrun. lia.
      * done.
      * rewrite Hio, Hplug. done.
      * eapply sameEntries_trans; [|exact Hsk]. unfold t1.
        eapply sameEntries_trans; [eapply sameEntries_trans|];
          apply sameEntries_upd; done.
      * intros h Hzc Hnz Hbz HCh.
        destruct (Hrb h Hnz Hbz HCh) as (? & ? & ? & ? & ? & ? & ?).
        destruct (rb_case1_R t t1 C2 g p P1 P2 u U1 U2 h)
          as (? & ? & ? & ?); try done.
        { by destruct Hin2 as (_ & _ & ?). }
        { intros x. apply colorOf_recoloured;
            apply (inTree_locs _ _ _ _ Hin2);
            repeat (progress (rewrite ?in_app_iff; simpl)); tauto. }
        by apply (Hrb' (S h)).
Qed.

(** ** Insertion *)

Lemma wf_root t s : wf t s -> Root t = rootOf s.
Proof. intros [H _]. by apply rep_rootOf in H. Qed.

Lemma inTree_upd_root t l f C s :
  keepsLinks f -> inTree t C s -> Root (upd l f t) = Root t.
Proof. intros. apply Root_upd. Qed.

Lemma wf_upd t l f s : keepsLinks f -> wf t s -> wf (upd l f t) s.
Proof.
  intros Hf H. apply wf_inTree_Top. apply inTree_upd; [done|].
  by apply wf_inTree_Top.
Qed.

Lemma fixupPut_spec t C z L R :
  inTree t C (N z L R) ->
  colorOf t (Root t) = BLACK \/ C = Top ->
  exists t' s',
    (forall fuel, (ctxDepth C + 2 <= fuel)%nat ->
       fixupPut fuel (Some z) t = Ok (tt, t'))
    /\ wf t' s'
    /\ inorder s' = inorder (plug C (N z L R))
    /\ sameEntries t t'
    /\ colorOf t' (Root t') = BLACK
    /\ (forall h,
          colorOf t (Some z) = RED ->
          noRedRed t (N z L R) = true ->
          blackHeight t (N z L R) = Some h ->
          okCtx t C h ->
          redBlack t' s').
Proof.
  intros Hin Hroot.
  destruct (fixupPut_loop_spec _ C t z L R eq_refl Hin Hroot)
    as (t1 & s1 & Hrun & Hwf & Hio & Hse & Hrb).
  assert (exists r A B, s1 = N r A B) as (r & A & B & ->).
  { destruct s1; [|eauto]. rewrite inorder_plug in Hio. simpl in Hio.
    symmetry in Hio. apply app_eq_nil in Hio as [_ Hio].
    apply app_eq_nil in Hio as [Hio _]. by destruct (inorder L). }
  pose proof (wf_root _ _ Hwf) as Hr. simpl in Hr.
  destruct Hwf as [Hrep Hnd]. pose proof Hrep as (_ & nr & Hnr & _).
  assert (colorOf (upd r (withColor BLACK) t1) (Some r) = BLACK) as Hrc
    by (erewrite colorOf_lookup by (by apply lookup_upd_eq); done).
  exists (upd r (withColor BLACK) t1), (N r A B).
  split_and!.
  - intros fuel Hf. unfold fixupPut.
    rewrite (bind_ok _ _ _ _ _ (Hrun fuel Hf)).
    rewrite bind_getRoot, Hr. unfold setColor.
    by rewrite (modify_upd _ _ _ _ Hnr).
  - apply wf_upd; [apply keepsLinks_withColor|done].
  - done.
  - eapply sameEntries_trans; [exact Hse|]. by apply sameEntries_upd.
  - by rewrite Root_upd, Hr.
  - intros h Hzc Hnz Hbz HC.
    destruct (Hrb h Hzc Hnz Hbz HC) as (Hn1 & h1 & Hb1).
    apply noRedRed_node in Hn1 as (_ & HnA & HnB).
    apply blackHeight_node in Hb1 as (h0 & HbA & HbB & _).
    simpl in Hnd. nodup_atoms Hnd.
    assert (forall x, In x (inorder A) ->
              colorOf (upd r (withColor BLACK) t1) (Some x)
              = colorOf t1 (Some x)) as HA
      by (intros x Hx; apply colorOf_upd_ne; nda).
    assert (forall x, In x (inorder B) ->
              colorOf (upd r (withColor BLACK) t1) (Some x)
              = colorOf t1 (Some x)) as HB
      by (intros x Hx; apply colorOf_upd_ne; nda).
    split_and!.
    + done.
    + apply noRedRed_node. rewrite Hrc.
      by rewrite (noRedRed_ext _ _ _ HA), (noRedRed_ext _ _ _ HB).
    + exists (S h0). apply blackHeight_node. exists h0. rewrite Hrc.
      by rewrite (blackHeight_ext _ _ _ HA), (blackHeight_ext _ _ _ HB).
Qed.

Lemma lookup_allocated_ne n t l :
  is_Some (nodes t !! l) -> nodes (allocated n t) !! l = nodes t !! l.
Proof.
  intros Hl. unfold allocated. simpl. apply lookup_insert_ne.
  intros <-. apply elem_of_dom in Hl. by apply is_fresh in Hl.
Qed.

Lemma fresh_not_node t l :
  is_Some (nodes t !! l) -> l <> fresh (dom (nodes t)).
Proof. intros Hl ->. apply elem_of_dom in Hl. by apply is_fresh in Hl. Qed.

Lemma attach_inTree t C n :
  inTree t C E -> C <> Top ->
  parent n = holeParent C -> Left n = None -> Right n = None ->
  inTree (setSlot C (Some (fresh (dom (nodes t)))) (allocated n t)) C
    (N (fresh (dom (nodes t))) E E).
Proof.
  intros (HC & _ & Hnd) HTop Hp Hl Hr. simpl in Hnd.
  set (l := fresh (dom (nodes t))).
  assert (~ In l (ctxLocs C)) as Hfresh.
  { intros Hin. apply (repCtx_locs _ _ _ _ HC) in Hin.
    by apply fresh_not_node in Hin. }
  assert (repCtx (allocated n t) C None) as HC1.
  { eapply repCtx_agree; [| |exact HC]; [done|].
    intros l' Hl'. apply lookup_allocated_ne.
    by apply (repCtx_locs _ _ _ _ HC). }
  split; [|split].
  - simpl. by apply (repCtx_setSlot _ _ None).
  - simpl. split; [done|]. exists n. split; [|by rewrite Hl, Hr].
    rewrite lookup_setSlot_ne.
    + unfold allocated. simpl. apply lookup_insert_eq.
    + destruct C; simpl; [done|..]; intros [= ->]; apply Hfresh;
        unfold ctxLocs; simpl; rewrite ?in_app_iff; simpl; auto.
  - simpl. unfold ctxLocs in Hfresh. rewrite in_app_iff in Hfresh.
    apply NoDup_app in Hnd as (H1 & H2 & H3).
    apply NoDup_app. split; [done|]. split.
    + intros x Hx [->|Hx']%elem_of_cons.
      * apply Hfresh. left. by apply list_elem_of_In.
      * by apply (H2 x).
    + apply NoDup_cons. split; [|done]. intros Hx. apply Hfresh. right.
      by apply list_elem_of_In.
Qed.

Lemma locate_E_ctx t k s : forall C0 C',
  locate t k C0 s = (C', E) -> (s = E /\ C' = C0) \/ C' <> Top.
Proof.
  induction s as [|l L IHL R IHR]; intros C0 C' H; simpl in H.
  - left. by injection H as <-.
  - right. destruct (cmp t k (keyOf t l)) as [c| |]; [|done..].
    destruct (c =? 0); [done|]. destruct (c <? 0).
    + destruct (IHL _ _ H) as [[_ ->]|]; done.
    + destruct (IHR _ _ H) as [[_ ->]|]; done.
Qed.

Lemma sameEntries_payloadOf t t' l n :
  sameEntries t t' -> nodes t !! l = Some n -> payloadOf t' l = payloadOf t l.
Proof.
  intros (_ & H) Hn. unfold payloadOf. rewrite Hn.
  destruct (H l n Hn) as (n' & -> & ? & ?). done.
Qed.

Lemma keyLt_cmp t t' : cmp t' = cmp t -> keyLt t' = keyLt t.
Proof. intros H. unfold keyLt. by rewrite H. Qed.

Lemma entries_keys t s : map fst (entries t s) = keysInOrder t s.
Proof.
  unfold entries, keysInOrder. rewrite map_map. by apply map_ext.
Qed.

Lemma colorOf_setSlot C v t x :
  C <> Top -> colorOf (setSlot C v t) (Some x) = colorOf t (Some x).
Proof.
  intros HC. destruct C as [|C p R|C p L]; [done|..]; simpl;
    unfold upd; destruct (nodes t !! p) as [np|] eqn:Hp; try done; simpl;
    (destruct (decide (x = p)) as [->|Hne];
     [rewrite lookup_insert_eq, Hp; done|by rewrite lookup_insert_ne]).
Qed.

Lemma Root_setSlot C v t : C <> Top -> Root (setSlot C v t) = Root t.
Proof. destruct C; [done|..]; intros _; apply Root_upd. Qed.

Lemma bind_alloc {B} n (k : ptr -> M B) t :
  bind (alloc n) k t = k (Some (fresh (dom (nodes t)))) (allocated n t).
Proof. reflexivity. Qed.

Lemma sameEntries_allocated n t : sameEntries t (allocated n t).
Proof.
  split; [done|]. intros l n' Hn. exists n'. split; [|done].
  rewrite lookup_allocated_ne; [done|by eexists].
Qed.

Lemma sameEntries_setSlot C v t : C <> Top -> sameEntries t (setSlot C v t).
Proof. destruct C; [done|..]; intros _; by apply sameEntries_upd. Qed.

Lemma keysIn_keys D t s : keysIn D t s <-> Forall D (keysInOrder t s).
Proof. unfold keysIn, keysInOrder. by rewrite Forall_map. Qed.

Lemma Put_new_node t D s k v C fuel :
  orders (cmp t) D -> searchTree D t s ->
  colorOf t (Root t) = BLACK ->
  D k -> mustBeValidKey k = None ->
  locate t k Top s = (C, E) ->
  (height s + 2 <= fuel)%nat ->
  exists t' s',
    Put fuel k v t = Ok (None, t')
    /\ searchTree D t' s'
    /\ colorOf t' (Root t') = BLACK
    /\ cmp t' = cmp t
    /\ entries t s
       = map (fun l => (keyOf t l, payloadOf t l)) (ctxBefore C)
         ++ map (fun l => (keyOf t l, payloadOf t l)) (ctxAfter C)
    /\ entries t' s'
       = map (fun l => (keyOf t l, payloadOf t l)) (ctxBefore C)
         ++ (k, v) :: map (fun l => (keyOf t l, payloadOf t l)) (ctxAfter C)
    /\ (redBlack t s -> redBlack t' s').
Proof.
  intros Hord (Hwf & Hdom & Hsorted) Hroot Hk Hvalid Hloc Hfuel.
  pose proof (locate_plug _ _ _ _ _ _ Hloc) as Hplug. simpl in Hplug.
  pose proof (wf_root _ _ Hwf) as Hr.
  assert (entries t s
          = map (fun l => (keyOf t l, payloadOf t l)) (ctxBefore C)
            ++ map (fun l => (keyOf t l, payloadOf t l)) (ctxAfter C)) as Hes.
  { unfold entries. rewrite <- Hplug, inorder_plug. simpl.
    by rewrite map_app. }
  destruct (locate_E_ctx _ _ _ _ _ Hloc) as [[-> ->]|HC].
  - (* the empty tree *)
    simpl in Hr. set (l := fresh (dom (nodes t))).
    set (n := mkNode k v BLACK None None false None).
    exists (mkTree (Some l) (cmp t) (<[l := n]> (nodes t))), (N l E E).
    split_and!.
    + unfold Put. rewrite Hvalid, bind_getRoot, Hr. reflexivity.
    + split; [|split].
      * split; [|repeat constructor; set_solver]. simpl. split; [done|].
        exists n. by rewrite lookup_insert_eq.
      * repeat constructor. unfold keyOf. simpl.
        by rewrite lookup_insert_eq.
      * repeat constructor.
    + simpl. by rewrite lookup_insert_eq.
    + done.
    + done.
    + unfold entries, keyOf, payloadOf. simpl. by rewrite lookup_insert_eq.
    + intros _. unfold redBlack. simpl. rewrite lookup_insert_eq. simpl.
      eauto.
  - assert (exists p, holeParent C = Some p) as [p Hp]
      by (destruct C; [done|eauto..]).
    assert (inTree t C E) as Hin by (apply wf_inTree; by rewrite Hplug).
    set (l := fresh (dom (nodes t))).
    set (n := mkNode k v RED None None false (Some p)).
    pose proof (attach_inTree t C n Hin HC (eq_sym Hp) eq_refl eq_refl)
      as Hin2. fold l in Hin2.
    set (t2 := setSlot C (Some l) (allocated n t)) in *.
    assert (colorOf t2 (Root t2) = BLACK) as Hroot2.
    { unfold t2. rewrite Root_setSlot by done. simpl.
      destruct (Root t) as [r|] eqn:HR; [|done].
      rewrite colorOf_setSlot by done.
      destruct Hin as (HCr & _). 
      destruct (repCtx_root _ _ _ HCr HC) as (r' & Hr' & Hin').
      assert (r' = r) as -> by congruence.
      apply (repCtx_locs _ _ _ _ HCr) in Hin'.
      unfold colorOf. rewrite lookup_allocated_ne by done.
      exact Hroot. }
    destruct (fixupPut_spec _ _ _ _ _ Hin2 (or_introl Hroot2))
      as (t' & s' & Hrun & Hwf' & Hio & Hse & Hroot' & Hrb).
    assert (sameEntries t t2) as Hse0.
    { eapply sameEntries_trans; [apply sameEntries_allocated|].
      by apply sameEntries_setSlot. }
    assert (forall x, In x (ctxLocs C) -> exists nx, nodes t !! x = Some nx)
      as Hlocs.
    { intros x Hx. destruct Hin as (HCr & _).
      apply (repCtx_locs _ _ _ _ HCr Hx). }
    destruct (Hlocs p (holeParent_in _ _ Hp)) as [np Hnp].
    assert (nodes t2 !! l = Some n) as Hl2.
    { unfold t2. rewrite lookup_setSlot_ne.
      - unfold allocated. simpl. apply lookup_insert_eq.
      - rewrite Hp. intros [= ->]. by eapply fresh_not_node. }
    assert (forall x, In x (ctxLocs C) ->
              (keyOf t' x, payloadOf t' x) = (keyOf t x, payloadOf t x))
      as Hsame.
    { intros x [nx Hx]%Hlocs.
      pose proof (sameEntries_trans _ _ _ Hse0 Hse) as H.
      by rewrite (sameEntries_keyOf _ _ _ _ H Hx),
        (sameEntries_payloadOf _ _ _ _ H Hx). }
    assert (entries t' s'
            = map (fun l => (keyOf t l, payloadOf t l)) (ctxBefore C)
              ++ (k, v)
                 :: map (fun l => (keyOf t l, payloadOf t l)) (ctxAfter C))
      as Hes'.
    { unfold entries. rewrite Hio, inorder_plug. simpl.
      rewrite map_app. simpl. f_equal; [|f_equal].
      - apply map_ext_in. intros x Hx. apply Hsame. unfold ctxLocs.
        rewrite in_app_iff. auto.
      - by rewrite (sameEntries_keyOf _ _ _ _ Hse Hl2),
          (sameEntries_payloadOf _ _ _ _ Hse Hl2),
          (keyOf_lookup _ _ _ Hl2); unfold payloadOf; rewrite Hl2.
      - apply map_ext_in. intros x Hx. apply Hsame. unfold ctxLocs.
        rewrite in_app_iff. auto. }
    assert (cmp t' = cmp t) as Hcmp.
    { destruct Hse as [-> _]. by destruct Hse0 as [-> _]. }
    destruct (locate_bounds t D Hord k s Hk Top C E) as [[Hb1 Hb2] _];
      [done|done|apply bounds_Top|done|].
    exists t', s'.
    split_and!; [|split_and!; [done| |]|done|done|done|done|].
    + unfold Put. rewrite Hvalid, bind_getRoot.
      destruct Hin as (HCr & _).
      destruct (repCtx_root _ _ _ HCr HC) as (r & HR & _). rewrite HR.
      erewrite bind_read.
      2:{ rewrite HR in Hr. rewrite Hr.
          apply (internalLookup_locate t k D s Hord Hk Top C E);
            [by apply wf_inTree_Top|done|done|lia]. }
      rewrite Hp. cbn [isNode]. cbv iota. rewrite bind_alloc.
      pose proof (locate_depth _ _ _ _ _ _ Hloc) as Hd. simpl in Hd.
      assert (nodes (allocated n t) !! p = Some np) as Hp1
        by (rewrite lookup_allocated_ne; [done|by eexists]).
      fold l. fold n.
      destruct C as [|C0 p0 R0|C0 p0 L0]; [done|..]; simpl in Hp;
        injection Hp as ->; simpl dirOf; cbv iota.
      * unfold setLeft. rewrite (bind_modify _ _ _ _ _ Hp1).
        rewrite (bind_ok _ _ _ _ _ (Hrun fuel ltac:(lia))). reflexivity.
      * unfold setRight. rewrite (bind_modify _ _ _ _ _ Hp1).
        rewrite (bind_ok _ _ _ _ _ (Hrun fuel ltac:(lia))). reflexivity.
    + rewrite keysIn_keys, <- entries_keys, Hes', map_app. simpl.
      rewrite !map_map. simpl.
      apply keysIn_keys in Hdom.
      rewrite <- entries_keys, Hes, map_app, !map_map in Hdom.
      simpl in Hdom.
      apply Forall_app in Hdom as [? ?]. apply Forall_app. split; [done|].
      by constructor.
    + unfold sortedKeys. rewrite <- entries_keys, Hes', map_app. simpl.
      rewrite !map_map. simpl. rewrite (keyLt_cmp _ _ Hcmp).
      unfold sortedKeys in Hsorted.
      rewrite <- entries_keys, Hes, map_app, !map_map in Hsorted.
      simpl in Hsorted.
      apply sorted_middle; [done|by rewrite Forall_map..].
    + intros (_ & Hn & Hb). rewrite <- Hplug in Hn, Hb.
      destruct (proj1 (plug_ok t C E) (conj Hn Hb))
        as (h & [= <-] & _ & _ & HCok).
      apply (Hrb O).
      * by erewrite colorOf_lookup by exact Hl2.
      * apply noRedRed_node. done.
      * apply blackHeight_node. exists O.
        by erewrite colorOf_lookup by exact Hl2.
      * apply (okCtx_ext t); [|done]. intros x Hx. unfold t2.
        rewrite colorOf_setSlot by done. unfold colorOf.
        rewrite lookup_allocated_ne; [done|]. by apply Hlocs.
Qed.


Lemma Put_overwrite t D s k v C l L R fuel :
  orders (cmp t) D -> wf t s -> keysIn D t s ->
  D k -> mustBeValidKey k = None ->
  locate t k Top s = (C, N l L R) ->
  (height s < fuel)%nat ->
  Put fuel k v t = Ok (None, upd l (withKeyPayload v) t).
Proof.
  intros Hord Hwf Hdom Hk Hvalid Hloc Hfuel.
  pose proof (locate_plug _ _ _ _ _ _ Hloc) as Hplug. simpl in Hplug.
  pose proof (wf_root _ _ Hwf) as Hr.
  assert (inTree t C (N l L R)) as Hin
    by (apply wf_inTree; by rewrite Hplug).
  destruct (inTree_node _ _ _ _ _ Hin) as (nl & Hl & _).
  assert (exists r, Root t = Some r) as [r HR].
  { rewrite Hr, <- Hplug. clear. revert l L R.
    induction C; simpl; eauto. }
  unfold Put. rewrite Hvalid, bind_getRoot, HR.
  erewrite bind_read.
  2:{ rewrite HR in Hr. rewrite Hr.
      apply (internalLookup_locate t k D s Hord Hk Top C (N l L R));
        [by apply wf_inTree_Top|done|done|lia]. }
  cbn [isNode]. cbv iota.
  destruct C as [|C0 p R0|C0 p L0]; cbn [holeParent dirOf]; cbv iota.
  - simpl in Hplug. subst s. simpl in Hr. rewrite bind_getRoot, Hr.
    unfold setPayload. rewrite (bind_modify _ _ _ _ _ Hl). reflexivity.
  - destruct (inTree_InL _ _ _ _ _ Hin) as (np & Hp & Hpl & _).
    simpl in Hpl. unfold getLeft, setPayload.
    rewrite bind_bind, (bind_getf _ _ _ _ _ Hp), Hpl.
    rewrite (bind_modify _ _ _ _ _ Hl). reflexivity.
  - destruct (inTree_InR _ _ _ _ _ Hin) as (np & Hp & Hpl & _).
    simpl in Hpl. unfold getRight, setPayload.
    rewrite bind_bind, (bind_getf _ _ _ _ _ Hp), Hpl.
    rewrite (bind_modify _ _ _ _ _ Hl). reflexivity.
Qed.


(** ** The tree as a finite map *)

Lemma entries_length t s : length (entries t s) = length (inorder s).
Proof. unfold entries. by rewrite length_map. Qed.

Lemma in_entries t s k v :
  In (k, v) (entries t s)
  <-> exists l, In l (inorder s) /\ keyOf t l = k /\ payloadOf t l = v.
Proof.
  unfold entries. rewrite in_map_iff. split.
  - intros (l & [= <- <-] & Hl). eauto.
  - intros (l & Hl & <- & <-). eauto.
Qed.

Lemma in_keys t s k :
  In k (keysInOrder t s) <-> exists l, In l (inorder s) /\ keyOf t l = k.
Proof.
  unfold keysInOrder. rewrite in_map_iff. naive_solver.
Qed.

Section Lookup.
Context (t : Tree) (D : iface -> Prop) (Hord : orders (cmp t) D).
Context (s : shp) (Hst : searchTree D t s).
Context (k : iface) (Hk : D k) (Hvalid : mustBeValidKey k = None).

Lemma locate_cases :
  (exists C, locate t k Top s = (C, E) /\ ~ In k (keysInOrder t s))
  \/ (exists C l L R, locate t k Top s = (C, N l L R)
        /\ keyOf t l = k /\ s = plug C (N l L R)).
Proof.
  destruct Hst as (Hwf & Hdom & Hsorted).
  destruct (locate t k Top s) as [C [|l L R]] eqn:Hloc.
  - left. exists C. split; [done|]. intros (l & Hl & Hkl)%in_keys.
    by apply (locate_absent t D Hord k s C Hk Hdom Hsorted Hloc l Hl).
  - right. exists C, l, L, R. split; [done|].
    by apply (locate_present t D Hord k s C l L R).
Qed.

Lemma Has_present fuel :
  In k (keysInOrder t s) -> (height s < fuel)%nat -> Has fuel t k = Ok true.
Proof.
  intros Hin Hf. destruct Hst as (Hwf & Hdom & Hsorted).
  rewrite (Has_spec t D Hord k s fuel) by done.
  destruct locate_cases as [(C & _ & Hno)|(C & l & L & R & -> & _)]; done.
Qed.

Lemma Has_absent fuel :
  ~ In k (keysInOrder t s) -> (height s < fuel)%nat ->
  Has fuel t k = Ok false.
Proof.
  intros Hin Hf. destruct Hst as (Hwf & Hdom & Hsorted).
  rewrite (Has_spec t D Hord k s fuel) by done.
  destruct locate_cases as [(C & -> & Hno)|(C & l & L & R & _ & Hl & Hs)];
    [done|].
  destruct Hin. apply in_keys. exists l. split; [|done].
  rewrite Hs, inorder_plug. simpl. rewrite !in_app_iff. simpl. auto.
Qed.

Lemma Get_present fuel v :
  In (k, v) (entries t s) -> (height s < fuel)%nat ->
  Get fuel t k = Ok (true, v).
Proof.
  intros (l & Hl & Hkl & Hv)%in_entries Hf.
  destruct Hst as (Hwf & Hdom & Hsorted).
  rewrite (Get_spec t D Hord k s fuel) by done.
  destruct (locate_finds t D Hord k s l Hk Hdom Hsorted Hl Hkl)
    as (C & L & R & ->).
  simpl. by rewrite <- Hv.
Qed.

Lemma Get_absent fuel :
  ~ In k (keysInOrder t s) -> (height s < fuel)%nat ->
  Get fuel t k = Ok (false, Nil).
Proof.
  intros Hin Hf. destruct Hst as (Hwf & Hdom & Hsorted).
  rewrite (Get_spec t D Hord k s fuel) by done.
  destruct locate_cases as [(C & -> & Hno)|(C & l & L & R & _ & Hl & Hs)];
    [done|].
  destruct Hin. apply in_keys. exists l. split; [|done].
  rewrite Hs, inorder_plug. simpl. rewrite !in_app_iff. simpl. auto.
Qed.

End Lookup.

Lemma Size_entries t s fuel :
  wf t s -> (height s < fuel)%nat ->
  Size fuel t = Ok (Z.of_nat (length (entries t s)) mod two64).
Proof. intros. rewrite entries_length. by apply Size_spec. Qed.

(** ** Put, on search trees *)

Lemma keyOf_upd_payload t l v x :
  keyOf (upd l (withKeyPayload v) t) x = keyOf t x.
Proof.
  unfold keyOf, upd. destruct (nodes t !! l) as [n|] eqn:Hn; [|done].
  simpl. destruct (decide (x = l)) as [->|Hne].
  - by rewrite lookup_insert_eq, Hn.
  - by rewrite lookup_insert_ne.
Qed.

Lemma colorOf_upd_payload t l v p :
  colorOf (upd l (withKeyPayload v) t) p = colorOf t p.
Proof.
  destruct p as [x|]; [|done].
  unfold colorOf, upd. destruct (nodes t !! l) as [n|] eqn:Hn; [|done].
  simpl. destruct (decide (x = l)) as [->|Hne].
  - by rewrite lookup_insert_eq, Hn.
  - by rewrite lookup_insert_ne.
Qed.

Lemma payloadOf_upd_payload t l v x :
  is_Some (nodes t !! l) ->
  payloadOf (upd l (withKeyPayload v) t) x
  = if decide (x = l) then v else payloadOf t x.
Proof.
  intros [n Hn]. unfold payloadOf. destruct (decide (x = l)) as [->|Hne].
  - by rewrite (lookup_upd_eq _ _ _ _ Hn).
  - by rewrite lookup_upd_ne.
Qed.

Lemma redBlack_ext t t' s :
  (forall l, In l (inorder s) -> colorOf t' (Some l) = colorOf t (Some l)) ->
  redBlack t s -> redBlack t' s.
Proof.
  intros H (? & ? & ?). unfold redBlack.
  by rewrite (colorOf_rootOf_ext _ _ _ H), (noRedRed_ext _ _ _ H),
    (blackHeight_ext _ _ _ H).
Qed.

Lemma Put_spec t D s k v fuel :
  orders (cmp t) D -> searchTree D t s ->
  colorOf t (Root t) = BLACK ->
  D k -> mustBeValidKey k = None ->
  (height s + 2 <= fuel)%nat ->
  exists t' s',
    Put fuel k v t = Ok (None, t')
    /\ searchTree D t' s'
    /\ colorOf t' (Root t') = BLACK
    /\ cmp t' = cmp t
    /\ (redBlack t s -> redBlack t' s')
    /\ exists es1 es2,
         entries t' s' = es1 ++ (k, v) :: es2
         /\ ((~ In k (keysInOrder t s) /\ entries t s = es1 ++ es2)
             \/ (exists old, entries t s = es1 ++ (k, old) :: es2
                             /\ s' = s)).
Proof.
  intros Hord Hst Hroot Hk Hvalid Hfuel.
  destruct (locate_cases t D Hord s Hst k Hk)
    as [(C & Hloc & Hno)|(C & l & L & R & Hloc & Hkl & Hs)].
  - destruct (Put_new_node t D s k v C fuel Hord Hst Hroot Hk Hvalid Hloc
                Hfuel)
      as (t' & s' & Hrun & Hst' & Hroot' & Hcmp & Hes & Hes' & Hrb).
    exists t', s'. split_and!; try done.
    eexists _, _. split; [exact Hes'|]. left. done.
  - pose proof Hst as (Hwf & Hdom & Hsorted).
    assert (inTree t C (N l L R)) as Hin
      by (apply wf_inTree; by rewrite <- Hs).
    destruct (inTree_node _ _ _ _ _ Hin) as (nl & Hl & _).
    set (t' := upd l (withKeyPayload v) t).
    assert (keysInOrder t' s = keysInOrder t s) as Hkeys
      by (apply map_ext; intros x; apply keyOf_upd_payload).
    exists t', s. split_and!.
    + apply (Put_overwrite t D s k v C l L R); try done. lia.
    + split_and!.
      * apply wf_upd; [apply keepsLinks_withKeyPayload|done].
      * apply keysIn_keys. rewrite Hkeys. by apply keysIn_keys.
      * unfold sortedKeys. rewrite Hkeys.
        by rewrite (keyLt_cmp t t') by apply cmp_upd.
    + unfold t'. by rewrite colorOf_upd_payload, Root_upd.
    + apply cmp_upd.
    + apply redBlack_ext. intros x _. apply colorOf_upd_payload.
    + destruct Hin as (_ & _ & Hnd). simpl in Hnd. nodup_atoms Hnd.
      assert (inorder s
              = (ctxBefore C ++ inorder L) ++ l :: inorder R ++ ctxAfter C)
        as Hio.
      { rewrite Hs, inorder_plug. simpl. by rewrite <- !app_assoc. }
      exists (map (fun x => (keyOf t x, payloadOf t x))
                (ctxBefore C ++ inorder L)),
        (map (fun x => (keyOf t x, payloadOf t x))
           (inorder R ++ ctxAfter C)).
      split.
      * unfold entries. rewrite Hio, map_app. simpl. f_equal; [|f_equal].
        -- apply map_ext_in. intros x Hx. unfold t'.
           rewrite keyOf_upd_payload, payloadOf_upd_payload by eauto.
           rewrite decide_False; [done|]. intros ->. nda.
        -- unfold t'.
           rewrite keyOf_upd_payload, payloadOf_upd_payload by eauto.
           by rewrite decide_True, Hkl.
        -- apply map_ext_in. intros x Hx. unfold t'.
           rewrite keyOf_upd_payload, payloadOf_upd_payload by eauto.
           rewrite decide_False; [done|]. intros ->. nda.
      * right. exists (payloadOf t l). split; [|done].
        unfold entries. rewrite Hio, map_app. simpl. by rewrite Hkl.
Qed.


(** ** The tree that holds 1, 2, 3 and 4 *)

Lemma tree1234_cmp : cmp tree1234 = IntComparator.
Proof. vm_compute. reflexivity. Qed.

Lemma tree1234_orders : orders (cmp tree1234) isInt.
Proof. rewrite tree1234_cmp. exact IntComparator_orders. Qed.

Lemma tree1234_wf : wf tree1234 shape1234.
Proof. apply wfb_wf. vm_compute. reflexivity. Qed.

Lemma tree1234_keys :
  keysInOrder tree1234 shape1234 = [VInt 1; VInt 2; VInt 3; VInt 4].
Proof. vm_compute. reflexivity. Qed.

Lemma keyLt_int t i j :
  cmp t = IntComparator -> i < j -> keyLt t (VInt i) (VInt j).
Proof.
  intros Hc Hij. exists (-1). rewrite Hc, IntComparator_int.
  destruct (Z.ltb_spec j i); [lia|]. destruct (Z.ltb_spec i j); [done|lia].
Qed.

Lemma tree1234_searchTree : searchTree isInt tree1234 shape1234.
Proof.
  split; [exact tree1234_wf|]. split.
  - apply keysIn_keys. rewrite tree1234_keys.
    repeat constructor; eexists; reflexivity.
  - unfold sortedKeys. rewrite tree1234_keys.
    repeat constructor; apply keyLt_int; (exact tree1234_cmp || lia).
Qed.

Lemma tree1234_redBlack : redBlack tree1234 shape1234.
Proof. split_and!; [by vm_compute..|]. vm_compute. eauto. Qed.

Lemma tree1234_root_black : colorOf tree1234 (Root tree1234) = BLACK.
Proof. by vm_compute. Qed.

Lemma height_le_size s : (height s <= length (inorder s))%nat.
Proof.
  induction s as [|l L IHL R IHR]; simpl; [done|].
  rewrite length_app. simpl. lia.
Qed.

(** ** Lookup on search trees *)

(** X1: on the keys of type [int], [IntComparator] is a total order in
    the sense of the comparator contract (it answers on every pair, with
    zero exactly on equal keys, with opposite signs on swapped arguments,
    and "less" is transitive), it only ever answers -1, 0 or 1, and it
    panics as soon as one of its arguments is not an [int]. *)
Theorem IntComparator_is_a_total_order_on_ints :
  orders IntComparator isInt
  /\ (forall a b z, IntComparator a b = Ok z -> z = -1 \/ z = 0 \/ z = 1)
  /\ (forall a b, ~ (isInt a /\ isInt b) -> IntComparator a b = Panic).
Proof.
  split; [exact IntComparator_orders|]. split.
  - intros a b z. destruct a, b; simpl; try done.
    repeat case_match; intros [= <-]; auto.
  - intros a b H. destruct a, b; simpl; try done.
    destruct H. split; eexists; reflexivity.
Qed.

(** X2: on a search tree, [Has] answers [true] exactly for the keys that
    some node of the tree holds. *)
Theorem Has_decides_membership t D s k fuel :
  orders (cmp t) D -> searchTree D t s ->
  D k -> mustBeValidKey k = None ->
  (height s < fuel)%nat ->
  (In k (keysInOrder t s) -> Has fuel t k = Ok true)
  /\ (~ In k (keysInOrder t s) -> Has fuel t k = Ok false).
Proof.
  intros Hord Hst Hk Hvalid Hf. split; intros Hin.
  - by apply (Has_present t D Hord s Hst k).
  - by apply (Has_absent t D Hord s Hst k).
Qed.

Lemma Has_decides_membership_witness :
  (In (VInt 3) (keysInOrder tree1234 shape1234) ->
   Has 10 tree1234 (VInt 3) = Ok true)
  /\ (~ In (VInt 3) (keysInOrder tree1234 shape1234) ->
      Has 10 tree1234 (VInt 3) = Ok false).
Proof.
  apply (Has_decides_membership tree1234 isInt shape1234 (VInt 3) 10).
  - exact tree1234_orders.
  - exact tree1234_searchTree.
  - by exists 3.
  - reflexivity.
  - simpl. lia.
Defined.

(** X3: on a search tree, [Get] returns [(true, v)] for a key that the tree
    maps to the payload [v], and [(false, nil)] for a key that no node
    holds. *)
Theorem Get_returns_the_mapped_payload t D s k fuel :
  orders (cmp t) D -> searchTree D t s ->
  D k -> mustBeValidKey k = None ->
  (height s < fuel)%nat ->
  (forall v, In (k, v) (entries t s) -> Get fuel t k = Ok (true, v))
  /\ (~ In k (keysInOrder t s) -> Get fuel t k = Ok (false, Nil)).
Proof.
  intros Hord Hst Hk Hvalid Hf. split.
  - intros v Hin. by apply (Get_present t D Hord s Hst k).
  - intros Hin. by apply (Get_absent t D Hord s Hst k).
Qed.

Lemma Get_returns_the_mapped_payload_witness :
  (forall v, In (VInt 3, v) (entries tree1234 shape1234) ->
             Get 10 tree1234 (VInt 3) = Ok (true, v))
  /\ (~ In (VInt 3) (keysInOrder tree1234 shape1234) ->
      Get 10 tree1234 (VInt 3) = Ok (false, Nil)).
Proof.
  apply (Get_returns_the_mapped_payload tree1234 isInt shape1234 (VInt 3) 10).
  - exact tree1234_orders.
  - exact tree1234_searchTree.
  - by exists 3.
  - reflexivity.
  - simpl. lia.
Defined.

(** X4: on a well-formed tree, [Size] returns the number of nodes, as a
    [uint64]. *)
Theorem Size_counts_the_nodes t s fuel :
  wf t s -> (height s < fuel)%nat ->
  Size fuel t = Ok (Z.of_nat (length (entries t s)) mod two64).
Proof. apply Size_entries. Qed.

Lemma Size_counts_the_nodes_witness :
  Size 10 tree1234
  = Ok (Z.of_nat (length (entries tree1234 shape1234)) mod two64).
Proof.
  apply (Size_counts_the_nodes tree1234 shape1234 10).
  - exact tree1234_wf.
  - simpl. lia.
Defined.

(** X5: on a search tree, [getNode] returns the node that holds the key,
    and [(false, nil)] when no node holds it. *)
Theorem getNode_finds_the_node t D s k fuel :
  orders (cmp t) D -> searchTree D t s ->
  D k -> mustBeValidKey k = None ->
  (height s < fuel)%nat ->
  (forall l, In l (inorder s) -> keyOf t l = k ->
             getNode fuel t k = Ok (true, Some l))
  /\ (~ In k (keysInOrder t s) -> getNode fuel t k = Ok (false, None)).
Proof.
  intros Hord Hst Hk Hvalid Hf. pose proof Hst as (Hwf & Hdom & Hsorted).
  rewrite (getNode_spec t D Hord k s fuel) by done. split.
  - intros l Hl Hkl.
    by destruct (locate_finds t D Hord k s l Hk Hdom Hsorted Hl Hkl)
      as (C & L & R & ->).
  - intros Hno.
    destruct (locate_cases t D Hord s Hst k Hk)
      as [(C & -> & _)|(C & l & L & R & _ & Hkl & Hs)]; [done|].
    destruct Hno. apply in_keys. exists l. split; [|done].
    rewrite Hs, inorder_plug. simpl. rewrite !in_app_iff. simpl. auto.
Qed.

Lemma getNode_finds_the_node_witness :
  (forall l, In l (inorder shape1234) -> keyOf tree1234 l = VInt 3 ->
             getNode 10 tree1234 (VInt 3) = Ok (true, Some l))
  /\ (~ In (VInt 3) (keysInOrder tree1234 shape1234) ->
      getNode 10 tree1234 (VInt 3) = Ok (false, None)).
Proof.
  apply (getNode_finds_the_node tree1234 isInt shape1234 (VInt 3) 10).
  - exact tree1234_orders.
  - exact tree1234_searchTree.
  - by exists 3.
  - reflexivity.
  - simpl. lia.
Defined.

(** X6: on a search tree, [GetParent] called with the key of a node
    returns that node's parent, and the side of the parent on which the
    node hangs: no side at all for the root, whose parent is nil. *)
Theorem GetParent_returns_parent_and_side t D s k l n fuel :
  orders (cmp t) D -> searchTree D t s ->
  D k -> mustBeValidKey k = None ->
  (height s < fuel)%nat ->
  In l (inorder s) -> nodes t !! l = Some n -> Key n = k ->
  exists dir,
    GetParent fuel t k = Ok (true, parent n, dir)
    /\ match parent n with
       | None => dir = NODIR /\ Root t = Some l
       | Some p =>
         exists np, nodes t !! p = Some np
           /\ ((dir = LEFT /\ Left np = Some l)
               \/ (dir = RIGHT /\ Right np = Some l))
       end.
Proof.
  intros Hord (Hwf & Hdom & Hsorted) Hk Hvalid Hf Hl Hn Hkn.
  destruct (locate_finds t D Hord k s l Hk Hdom Hsorted Hl)
    as (C & L & R & Hloc); [by rewrite (keyOf_lookup _ _ _ Hn)|].
  pose proof (locate_plug _ _ _ _ _ _ Hloc) as Hplug. simpl in Hplug.
  assert (inTree t C (N l L R)) as Hin
    by (apply wf_inTree; by rewrite Hplug).
  destruct (inTree_node _ _ _ _ _ Hin) as (n' & Hn' & Hpar & _).
  assert (n' = n) as -> by congruence.
  pose proof (wf_root _ _ Hwf) as Hr.
  exists (dirOf C). split.
  - unfold GetParent. rewrite Hvalid.
    destruct (Root t) as [r|] eqn:HR.
    + rewrite Hr, Hpar.
      apply (internalLookup_locate t k D s Hord Hk Top C (N l L R));
        [by apply wf_inTree_Top|done|done|done].
    + destruct s; [done|]. done.
  - rewrite Hpar. destruct C as [|C p R0|C p L0]; simpl.
    + simpl in Hplug. subst s. done.
    + destruct (inTree_InL _ _ _ _ _ Hin) as (np & Hp & Hpl & _). eauto.
    + destruct (inTree_InR _ _ _ _ _ Hin) as (np & Hp & Hpl & _). eauto.
Qed.

Lemma GetParent_returns_parent_and_side_witness :
  exists dir,
    GetParent 10 tree1234 (VInt 4) = Ok (true, Some 3%positive, dir)
    /\ exists np, nodes tree1234 !! 3%positive = Some np
         /\ ((dir = LEFT /\ Left np = Some 4%positive)
             \/ (dir = RIGHT /\ Right np = Some 4%positive)).
Proof.
  apply (GetParent_returns_parent_and_side tree1234 isInt shape1234 (VInt 4)
           4%positive
           (mkNode (VInt 4) Nil RED None None false (Some 3%positive)) 10).
  - exact tree1234_orders.
  - exact tree1234_searchTree.
  - by exists 4.
  - reflexivity.
  - simpl. lia.
  - simpl. auto.
  - vm_compute. reflexivity.
  - reflexivity.
Defined.

(** ** Put on search trees *)

Lemma entry_key_in t s k v es1 es2 :
  entries t s = es1 ++ (k, v) :: es2 -> In k (keysInOrder t s).
Proof.
  intros H. rewrite <- entries_keys, H, map_app. simpl.
  rewrite in_app_iff. simpl. auto.
Qed.

Lemma redBlack_root t s : wf t s -> redBlack t s -> colorOf t (Root t) = BLACK.
Proof. intros Hwf (H & _). by rewrite (wf_root _ _ Hwf). Qed.

(** X7: [Put] with a key that the search tree does not hold adds the
    mapping at its place in the order of the keys, and leaves the other
    mappings as they were; the tree is a search tree with a black root
    again. *)
Theorem Put_inserts_a_new_key t D s k v fuel :
  orders (cmp t) D -> searchTree D t s ->
  colorOf t (Root t) = BLACK ->
  D k -> mustBeValidKey k = None ->
  ~ In k (keysInOrder t s) ->
  (height s + 2 <= fuel)%nat ->
  exists t' s' es1 es2,
    Put fuel k v t = Ok (None, t')
    /\ searchTree D t' s'
    /\ colorOf t' (Root t') = BLACK
    /\ entries t s = es1 ++ es2
    /\ entries t' s' = es1 ++ (k, v) :: es2.
Proof.
  intros Hord Hst Hroot Hk Hvalid Hno Hf.
  destruct (Put_spec t D s k v fuel Hord Hst Hroot Hk Hvalid Hf)
    as (t' & s' & Hrun & Hst' & Hroot' & _ & _ & es1 & es2 & Hes' & Hes).
  exists t', s', es1, es2. split_and!; try done.
  destruct Hes as [[_ Hes]|(old & Hes & _)]; [done|].
  destruct Hno. by apply (entry_key_in _ _ _ _ _ _ Hes).
Qed.

Lemma Put_inserts_a_new_key_witness :
  exists t' s' es1 es2,
    Put 10 (VInt 5) (VInt 50) tree1234 = Ok (None, t')
    /\ searchTree isInt t' s'
    /\ colorOf t' (Root t') = BLACK
    /\ entries tree1234 shape1234 = es1 ++ es2
    /\ entries t' s' = es1 ++ (VInt 5, VInt 50) :: es2.
Proof.
  apply (Put_inserts_a_new_key tree1234 isInt shape1234 (VInt 5) (VInt 50) 10).
  - exact tree1234_orders.
  - exact tree1234_searchTree.
  - exact tree1234_root_black.
  - by exists 5.
  - reflexivity.
  - rewrite tree1234_keys. simpl. intros [H|[H|[H|[H|[]]]]]; discriminate H.
  - simpl. lia.
Defined.

Lemma Put_present_spec t D s k v fuel :
  orders (cmp t) D -> searchTree D t s ->
  D k -> mustBeValidKey k = None ->
  In k (keysInOrder t s) ->
  (height s < fuel)%nat ->
  exists l es1 old es2,
    In l (inorder s) /\ keyOf t l = k
    /\ Put fuel k v t = Ok (None, upd l (withKeyPayload v) t)
    /\ searchTree D (upd l (withKeyPayload v) t) s
    /\ entries t s = es1 ++ (k, old) :: es2
    /\ entries (upd l (withKeyPayload v) t) s = es1 ++ (k, v) :: es2.
Proof.
  intros Hord Hst Hk Hvalid Hin Hf.
  destruct (locate_cases t D Hord s Hst k Hk)
    as [(C & _ & Hno)|(C & l & L & R & Hloc & Hkl & Hs)]; [done|].
  pose proof Hst as (Hwf & Hdom & Hsorted).
  assert (inTree t C (N l L R)) as Hin'
    by (apply wf_inTree; by rewrite <- Hs).
  destruct (inTree_node _ _ _ _ _ Hin') as (nl & Hl & _).
  set (t' := upd l (withKeyPayload v) t).
  assert (keysInOrder t' s = keysInOrder t s) as Hkeys
    by (apply map_ext; intros x; apply keyOf_upd_payload).
  destruct Hin' as (_ & _ & Hnd). simpl in Hnd. nodup_atoms Hnd.
  assert (inorder s
          = (ctxBefore C ++ inorder L) ++ l :: inorder R ++ ctxAfter C)
    as Hio.
  { rewrite Hs, inorder_plug. simpl. by rewrite <- !app_assoc. }
  exists l,
    (map (fun x => (keyOf t x, payloadOf t x)) (ctxBefore C ++ inorder L)),
    (payloadOf t l),
    (map (fun x => (keyOf t x, payloadOf t x)) (inorder R ++ ctxAfter C)).
  fold t'. split_and!.
  - rewrite Hio, in_app_iff. simpl. auto.
  - done.
  - by apply (Put_overwrite t D s k v C l L R).
  - split_and!.
    + apply wf_upd; [apply keepsLinks_withKeyPayload|done].
    + apply keysIn_keys. rewrite Hkeys. by apply keysIn_keys.
    + unfold sortedKeys. rewrite Hkeys.
      by rewrite (keyLt_cmp t t') by apply cmp_upd.
  - unfold entries. rewrite Hio, map_app. simpl. by rewrite Hkl.
  - unfold entries. rewrite Hio, map_app. simpl. unfold t'.
    f_equal; [|f_equal].
    + apply map_ext_in. intros x Hx.
      rewrite keyOf_upd_payload, payloadOf_upd_payload by eauto.
      rewrite decide_False; [done|]. intros ->. nda.
    + rewrite keyOf_upd_payload, payloadOf_upd_payload by eauto.
      by rewrite decide_True, Hkl.
    + apply map_ext_in. intros x Hx.
      rewrite keyOf_upd_payload, payloadOf_upd_payload by eauto.
      rewrite decide_False; [done|]. intros ->. nda.
Qed.

(** X8: [Put] with a key that a node of the search tree holds changes the
    payload of that node and nothing else: no node is added and no pointer
    or colour is touched, so the shape of the tree is the same and its
    mappings are those it had, with the new payload for the key. *)
Theorem Put_overwrites_in_place t D s k v fuel :
  orders (cmp t) D -> searchTree D t s ->
  D k -> mustBeValidKey k = None ->
  In k (keysInOrder t s) ->
  (height s < fuel)%nat ->
  exists l es1 old es2,
    In l (inorder s) /\ keyOf t l = k
    /\ Put fuel k v t = Ok (None, upd l (withKeyPayload v) t)
    /\ searchTree D (upd l (withKeyPayload v) t) s
    /\ entries t s = es1 ++ (k, old) :: es2
    /\ entries (upd l (withKeyPayload v) t) s = es1 ++ (k, v) :: es2.
Proof. apply Put_present_spec. Qed.

Lemma Put_overwrites_in_place_witness :
  exists l es1 old es2,
    In l (inorder shape1234) /\ keyOf tree1234 l = VInt 3
    /\ Put 10 (VInt 3) (VInt 30) tree1234
       = Ok (None, upd l (withKeyPayload (VInt 30)) tree1234)
    /\ searchTree isInt (upd l (withKeyPayload (VInt 30)) tree1234) shape1234
    /\ entries tree1234 shape1234 = es1 ++ (VInt 3, old) :: es2
    /\ entries (upd l (withKeyPayload (VInt 30)) tree1234) shape1234
       = es1 ++ (VInt 3, VInt 30) :: es2.
Proof.
  apply (Put_overwrites_in_place tree1234 isInt shape1234 (VInt 3) (VInt 30)
           10).
  - exact tree1234_orders.
  - exact tree1234_searchTree.
  - by exists 3.
  - reflexivity.
  - rewrite tree1234_keys. simpl. auto.
  - simpl. lia.
Defined.

(** X9: [Put] keeps the invariants of a red-black search tree: when the
    tree is a search tree whose root is black, in which no red node has a
    red child and all paths from the root to a nil pointer have the same
    number of black nodes, then so is the tree after [Put], which returns
    no error. *)
Theorem Put_keeps_the_red_black_invariants t D s k v fuel :
  orders (cmp t) D -> searchTree D t s -> redBlack t s ->
  D k -> mustBeValidKey k = None ->
  (height s + 2 <= fuel)%nat ->
  exists t' s',
    Put fuel k v t = Ok (None, t')
    /\ searchTree D t' s'
    /\ redBlack t' s'.
Proof.
  intros Hord Hst Hrb Hk Hvalid Hf.
  assert (colorOf t (Root t) = BLACK) as Hroot
    by (destruct Hst; by apply (redBlack_root t s)).
  destruct (Put_spec t D s k v fuel Hord Hst Hroot Hk Hvalid Hf)
    as (t' & s' & Hrun & Hst' & _ & _ & Hrb' & _).
  exists t', s'. auto.
Qed.

Lemma Put_keeps_the_red_black_invariants_witness :
  exists t' s',
    Put 10 (VInt 5) Nil tree1234 = Ok (None, t')
    /\ searchTree isInt t' s'
    /\ redBlack t' s'.
Proof.
  apply (Put_keeps_the_red_black_invariants tree1234 isInt shape1234).
  - exact tree1234_orders.
  - exact tree1234_searchTree.
  - exact tree1234_redBlack.
  - by exists 5.
  - reflexivity.
  - simpl. lia.
Defined.

Lemma Put_spec_fuel t D s k v fuel :
  orders (cmp t) D -> searchTree D t s ->
  colorOf t (Root t) = BLACK ->
  D k -> mustBeValidKey k = None ->
  (length (inorder s) + 2 <= fuel)%nat ->
  exists t' s',
    Put fuel k v t = Ok (None, t')
    /\ searchTree D t' s'
    /\ orders (cmp t') D
    /\ colorOf t' (Root t') = BLACK
    /\ (height s' < fuel)%nat
    /\ (length (inorder s') + 1 <= fuel)%nat
    /\ (redBlack t s -> redBlack t' s')
    /\ exists es1 es2,
         entries t' s' = es1 ++ (k, v) :: es2
         /\ ((~ In k (keysInOrder t s) /\ entries t s = es1 ++ es2)
             \/ (exists old, entries t s = es1 ++ (k, old) :: es2
                             /\ s' = s)).
Proof.
  intros Hord Hst Hroot Hk Hvalid Hf.
  pose proof (height_le_size s) as Hh.
  destruct (Put_spec t D s k v fuel Hord Hst Hroot Hk Hvalid ltac:(lia))
    as (t' & s' & Hrun & Hst' & Hroot' & Hcmp & Hrb & es1 & es2 & Hes' & Hes).
  assert (length (inorder s') <= length (inorder s) + 1)%nat as Hlen.
  { rewrite <- (entries_length t' s'), <- (entries_length t s), Hes'.
    destruct Hes as [[_ ->]|(old & -> & _)]; rewrite !length_app; simpl; lia. }
  pose proof (height_le_size s') as Hh'.
  exists t', s'. split_and!; try done; try lia.
  - by rewrite Hcmp.
  - eauto.
Qed.

(** X10: a key that has been [Put] is found: after [Put] of a key and a
    payload, [Has] answers [true] for the key and [Get] returns the
    payload. *)
Theorem Put_then_Get_returns_the_payload t D s k v fuel :
  orders (cmp t) D -> searchTree D t s ->
  colorOf t (Root t) = BLACK ->
  D k -> mustBeValidKey k = None ->
  (length (inorder s) + 2 <= fuel)%nat ->
  exists t',
    Put fuel k v t = Ok (None, t')
    /\ Has fuel t' k = Ok true
    /\ Get fuel t' k = Ok (true, v).
Proof.
  intros Hord Hst Hroot Hk Hvalid Hf.
  destruct (Put_spec_fuel t D s k v fuel Hord Hst Hroot Hk Hvalid Hf)
    as (t' & s' & Hrun & Hst' & Hord' & _ & Hh & _ & _ & es1 & es2 & Hes'
        & _).
  exists t'. split_and!; [done| |].
  - apply (Has_present t' D Hord' s' Hst' k Hk Hvalid); [|done].
    by apply (entry_key_in _ _ _ _ _ _ Hes').
  - apply (Get_present t' D Hord' s' Hst' k Hk Hvalid); [|done].
    rewrite Hes', in_app_iff. simpl. auto.
Qed.

Lemma Put_then_Get_returns_the_payload_witness :
  exists t',
    Put 10 (VInt 5) (VInt 50) tree1234 = Ok (None, t')
    /\ Has 10 t' (VInt 5) = Ok true
    /\ Get 10 t' (VInt 5) = Ok (true, VInt 50).
Proof.
  apply (Put_then_Get_returns_the_payload tree1234 isInt shape1234).
  - exact tree1234_orders.
  - exact tree1234_searchTree.
  - exact tree1234_root_black.
  - by exists 5.
  - reflexivity.
  - simpl. lia.
Defined.

(** X11: [Put] leaves the other keys alone: for every key other than the
    one that is put, [Has] and [Get] answer after the [Put] what they
    answered before it. *)
Theorem Put_keeps_the_other_mappings t D s k v k' fuel :
  orders (cmp t) D -> searchTree D t s ->
  colorOf t (Root t) = BLACK ->
  D k -> mustBeValidKey k = None ->
  D k' -> mustBeValidKey k' = None -> k' <> k ->
  (length (inorder s) + 2 <= fuel)%nat ->
  exists t',
    Put fuel k v t = Ok (None, t')
    /\ Has fuel t' k' = Has fuel t k'
    /\ Get fuel t' k' = Get fuel t k'.
Proof.
  intros Hord Hst Hroot Hk Hvalid Hk' Hvalid' Hne Hf.
  destruct (Put_spec_fuel t D s k v fuel Hord Hst Hroot Hk Hvalid Hf)
    as (t' & s' & Hrun & Hst' & Hord' & _ & Hh' & _ & _ & es1 & es2 & Hes'
        & Hes).
  pose proof (height_le_size s) as Hh.
  assert (forall v', In (k', v') (entries t s) <-> In (k', v') (entries t' s'))
    as Hsame.
  { intros v'. rewrite Hes'.
    destruct Hes as [[_ ->]|(old & -> & _)]; rewrite !in_app_iff; simpl;
      split; intros [?|?]; auto; try (destruct H; [congruence|auto]). }
  assert (In k' (keysInOrder t s) <-> In k' (keysInOrder t' s')) as Hkeys.
  { rewrite <- !entries_keys, !in_map_iff. split.
    - intros ([a b] & Ha & Hb). simpl in Ha. subst a.
      exists (k', b). split; [done|]. by apply Hsame.
    - intros ([a b] & Ha & Hb). simpl in Ha. subst a.
      exists (k', b). split; [done|]. by apply Hsame. }
  exists t'. split; [done|].
  destruct (locate_cases t D Hord s Hst k' Hk')
    as [(C & _ & Hno)|(C & l & L & R & _ & Hkl & Hs)].
  - rewrite (Has_absent t D Hord s Hst k' Hk' Hvalid') by (done || lia).
    rewrite (Get_absent t D Hord s Hst k' Hk' Hvalid') by (done || lia).
    rewrite (Has_absent t' D Hord' s' Hst' k' Hk' Hvalid');
      [|by rewrite <- Hkeys|done].
    rewrite (Get_absent t' D Hord' s' Hst' k' Hk' Hvalid');
      [done|by rewrite <- Hkeys|done].
  - assert (In (k', payloadOf t l) (entries t s)) as Hin.
    { apply in_entries. exists l. split; [|done].
      rewrite Hs, inorder_plug. simpl. rewrite !in_app_iff. simpl. auto. }
    pose proof (entry_key_in t s k' (payloadOf t l)) as Hkin.
    assert (In k' (keysInOrder t s)) as Hkin'.
    { rewrite <- entries_keys. apply in_map_iff.
      by exists (k', payloadOf t l). }
    rewrite (Has_present t D Hord s Hst k' Hk' Hvalid') by (done || lia).
    rewrite (Get_present t D Hord s Hst k' Hk' Hvalid' fuel (payloadOf t l))
      by (done || lia).
    rewrite (Has_present t' D Hord' s' Hst' k' Hk' Hvalid');
      [|by rewrite <- Hkeys|done].
    rewrite (Get_present t' D Hord' s' Hst' k' Hk' Hvalid' fuel
               (payloadOf t l)); [done|by apply Hsame|done].
Qed.

Lemma Put_keeps_the_other_mappings_witness :
  exists t',
    Put 10 (VInt 5) (VInt 50) tree1234 = Ok (None, t')
    /\ Has 10 t' (VInt 3) = Has 10 tree1234 (VInt 3)
    /\ Get 10 t' (VInt 3) = Get 10 tree1234 (VInt 3).
Proof.
  apply (Put_keeps_the_other_mappings tree1234 isInt shape1234).
  - exact tree1234_orders.
  - exact tree1234_searchTree.
  - exact tree1234_root_black.
  - by exists 5.
  - reflexivity.
  - by exists 3.
  - reflexivity.
  - discriminate.
  - simpl. lia.
Defined.

(** X12: [Put] with a new key makes [Size] one greater, and [Put] with a
    key that the tree holds leaves [Size] as it was. *)
Theorem Put_then_Size t D s k v fuel :
  orders (cmp t) D -> searchTree D t s ->
  colorOf t (Root t) = BLACK ->
  D k -> mustBeValidKey k = None ->
  (length (inorder s) + 2 <= fuel)%nat ->
  exists t',
    Put fuel k v t = Ok (None, t')
    /\ Size fuel t = Ok (Z.of_nat (length (entries t s)) mod two64)
    /\ (In k (keysInOrder t s) ->
        Size fuel t' = Ok (Z.of_nat (length (entries t s)) mod two64))
    /\ (~ In k (keysInOrder t s) ->
        Size fuel t' = Ok (Z.of_nat (S (length (entries t s))) mod two64)).
Proof.
  intros Hord Hst Hroot Hk Hvalid Hf.
  destruct (Put_spec_fuel t D s k v fuel Hord Hst Hroot Hk Hvalid Hf)
    as (t' & s' & Hrun & Hst' & Hord' & _ & Hh' & _ & _ & es1 & es2 & Hes'
        & Hes).
  pose proof (height_le_size s) as Hh.
  exists t'. split_and!; [done|..].
  - apply Size_entries; [by destruct Hst|lia].
  - intros Hin. rewrite (Size_entries t' s') by (done || by destruct Hst').
    destruct Hes as [[Hno _]|(old & -> & _)]; [done|].
    rewrite Hes', !length_app. done.
  - intros Hno. rewrite (Size_entries t' s') by (done || by destruct Hst').
    destruct Hes as [[_ ->]|(old & Hes & _)].
    + rewrite Hes', !length_app. simpl. do 3 f_equal. lia.
    + destruct Hno. by apply (entry_key_in _ _ _ _ _ _ Hes).
Qed.

Lemma Put_then_Size_witness :
  exists t',
    Put 10 (VInt 5) Nil tree1234 = Ok (None, t')
    /\ Size 10 tree1234
       = Ok (Z.of_nat (length (entries tree1234 shape1234)) mod two64)
    /\ (In (VInt 5) (keysInOrder tree1234 shape1234) ->
        Size 10 t'
        = Ok (Z.of_nat (length (entries tree1234 shape1234)) mod two64))
    /\ (~ In (VInt 5) (keysInOrder tree1234 shape1234) ->
        Size 10 t'
        = Ok (Z.of_nat (S (length (entries tree1234 shape1234))) mod two64)).
Proof.
  apply (Put_then_Size tree1234 isInt shape1234).
  - exact tree1234_orders.
  - exact tree1234_searchTree.
  - exact tree1234_root_black.
  - by exists 5.
  - reflexivity.
  - simpl. lia.
Defined.

(** X13: [Put] twice with the same key keeps the second payload: after
    [Put] of a key with one payload and then with another, [Get] returns
    the second payload; the second [Put] leaves the shape of the tree and
    its [Size] as the first one left them. *)
Theorem Put_twice_keeps_the_last_payload t D s k v1 v2 fuel :
  orders (cmp t) D -> searchTree D t s ->
  colorOf t (Root t) = BLACK ->
  D k -> mustBeValidKey k = None ->
  (length (inorder s) + 2 <= fuel)%nat ->
  exists t1 t2 s1,
    Put fuel k v1 t = Ok (None, t1)
    /\ Put fuel k v2 t1 = Ok (None, t2)
    /\ wf t1 s1 /\ wf t2 s1
    /\ Get fuel t2 k = Ok (true, v2)
    /\ Size fuel t2 = Size fuel t1.
Proof.
  intros Hord Hst Hroot Hk Hvalid Hf.
  destruct (Put_spec_fuel t D s k v1 fuel Hord Hst Hroot Hk Hvalid Hf)
    as (t1 & s1 & Hrun & Hst1 & Hord1 & _ & Hh1 & _ & _ & es1 & es2 & Hes1
        & _).
  destruct (Put_present_spec t1 D s1 k v2 fuel Hord1 Hst1 Hk Hvalid)
    as (l & es1' & old & es2' & Hl & Hkl & Hrun2 & Hst2 & _ & Hes2);
    [by apply (entry_key_in _ _ _ _ _ _ Hes1)|done|].
  exists t1, (upd l (withKeyPayload v2) t1), s1. split_and!; try done.
  - by destruct Hst1.
  - by destruct Hst2.
  - assert (orders (cmp (upd l (withKeyPayload v2) t1)) D) as Hord2
      by by rewrite cmp_upd.
    apply (Get_present _ D Hord2 s1 Hst2 k Hk Hvalid); [|done].
    rewrite Hes2, in_app_iff. simpl. auto.
  - destruct Hst1 as (Hwf1 & _), Hst2 as (Hwf2 & _).
    by rewrite (Size_spec _ s1 fuel Hwf1), (Size_spec _ s1 fuel Hwf2).
Qed.

Lemma Put_twice_keeps_the_last_payload_witness :
  exists t1 t2 s1,
    Put 10 (VInt 5) (VInt 1) tree1234 = Ok (None, t1)
    /\ Put 10 (VInt 5) (VInt 2) t1 = Ok (None, t2)
    /\ wf t1 s1 /\ wf t2 s1
    /\ Get 10 t2 (VInt 5) = Ok (true, VInt 2)
    /\ Size 10 t2 = Size 10 t1.
Proof.
  apply (Put_twice_keeps_the_last_payload tree1234 isInt shape1234).
  - exact tree1234_orders.
  - exact tree1234_searchTree.
  - exact tree1234_root_black.
  - by exists 5.
  - reflexivity.
  - simpl. lia.
Defined.

(** ** Runs of Put from the empty tree *)

Lemma rep_treeOf t s : forall par p fuel,
  rep t par p s -> (height s < fuel)%nat -> treeOf fuel t p = Some s.
Proof.
  induction s as [|l L IHL R IHR]; intros par p fuel Hrep Hf;
    (destruct fuel as [|fuel]; [lia|]); simpl in *.
  - by subst p.
  - destruct Hrep as (-> & n & Hn & _ & HL & HR). rewrite Hn.
    rewrite (IHL _ _ fuel HL) by lia. by rewrite (IHR _ _ fuel HR) by lia.
Qed.

Lemma keyLt_keyLtb t a b : keyLt t a b -> keyLtb t a b = true.
Proof.
  intros (c & Hc & Hlt). unfold keyLtb. rewrite Hc. by apply Z.ltb_lt.
Qed.

Lemma sorted_increasing t ks :
  StronglySorted (keyLt t) ks -> increasing t ks = true.
Proof.
  induction 1 as [|a ks Hs IH Hall]; [done|].
  destruct ks as [|b ks]; [done|].
  change (increasing t (a :: b :: ks))
    with (keyLtb t a b && increasing t (b :: ks)).
  apply Forall_cons in Hall as [Hab _].
  by rewrite (keyLt_keyLtb _ _ _ Hab), IH.
Qed.

Lemma isRedBlack_of t s fuel :
  wf t s -> sortedKeys t s -> redBlack t s -> (height s < fuel)%nat ->
  isRedBlack fuel t = true.
Proof.
  intros Hwf Hsorted (Hroot & Hn & Hb) Hf. unfold isRedBlack.
  rewrite (rep_treeOf t s None (Root t) fuel) by (done || by destruct Hwf).
  unfold rootIsBlack. rewrite (wf_root _ _ Hwf), Hroot, Hn.
  rewrite (sorted_increasing _ _ Hsorted). simpl.
  rewrite andb_true_r. by apply bool_decide_eq_true.
Qed.

Lemma NewTree_searchTree : searchTree isInt NewTree E.
Proof.
  split; [|split].
  - split; [done|constructor].
  - constructor.
  - constructor.
Qed.

Lemma NewTree_redBlack : redBlack NewTree E.
Proof. split_and!; [done..|]. by exists O. Qed.

Lemma runOps_puts (kvs : list (Z * iface)) : forall t s fuel,
  cmp t = IntComparator -> searchTree isInt t s -> redBlack t s ->
  (length (inorder s) + length kvs + 2 <= fuel)%nat ->
  exists t' s',
    runOps fuel (map (fun kv => OpPut (VInt (fst kv)) (snd kv)) kvs) t = Ok t'
    /\ searchTree isInt t' s'
    /\ redBlack t' s'
    /\ (height s' < fuel)%nat
    /\ forall k, In k (keysInOrder t' s')
         <-> In k (keysInOrder t s)
             \/ In k (map (fun kv => VInt (fst kv)) kvs).
Proof.
  induction kvs as [|[i v] kvs IH]; intros t s fuel Hcmp Hst Hrb Hf.
  - exists t, s. simpl. pose proof (height_le_size s).
    split_and!; try done; [lia|]. intros k. tauto.
  - assert (orders (cmp t) isInt) as Hord
      by (rewrite Hcmp; exact IntComparator_orders).
    assert (colorOf t (Root t) = BLACK) as Hroot
      by (destruct Hst; by apply (redBlack_root t s)).
    simpl in Hf.
    destruct (Put_spec_fuel t isInt s (VInt i) v fuel Hord Hst Hroot)
      as (t1 & s1 & Hrun & Hst1 & Hord1 & _ & _ & Hlen & Hrb1 & es1 & es2
          & Hes1 & Hes); [by exists i|done|lia|].
    assert (cmp t1 = IntComparator) as Hcmp1.
    { destruct (Put_spec t isInt s (VInt i) v fuel Hord Hst Hroot)
        as (t1' & s1' & Hrun' & _ & _ & Hc & _);
        [by exists i|done|pose proof (height_le_size s); lia|].
      rewrite Hrun in Hrun'. injection Hrun' as <-. by rewrite Hc. }
    assert (length (inorder s1) <= S (length (inorder s)))%nat as Hlen1.
    { rewrite <- (entries_length t1 s1), <- (entries_length t s), Hes1.
      destruct Hes as [[_ ->]|(old & -> & _)]; rewrite !length_app; simpl;
        lia. }
    destruct (IH t1 s1 fuel Hcmp1 Hst1 (Hrb1 Hrb) ltac:(lia))
      as (t' & s' & Hrun' & Hst' & Hrb' & Hh' & Hkeys).
    exists t', s'. split_and!; try done.
    + cbn [map runOps runOp fst snd]. rewrite Hrun. simpl. exact Hrun'.
    + intros k. rewrite Hkeys. simpl.
      assert (In k (keysInOrder t1 s1)
              <-> In k (keysInOrder t s) \/ VInt i = k) as ->; [|tauto].
      rewrite <- !entries_keys, Hes1.
      destruct Hes as [[_ ->]|(old & -> & _)]; rewrite !map_app; simpl;
        rewrite !in_app_iff; simpl; tauto.
Qed.

(** X14: every run of [Put]s with keys of type [int], started on the empty
    tree of [NewTree], returns without an error or a panic and leaves a
    red-black search tree: it holds exactly the keys that were put, in
    strictly increasing order, its root is black, no red node has a red
    child, and all paths from the root to a nil pointer have the same
    number of black nodes. *)
Theorem Puts_build_a_red_black_tree (kvs : list (Z * iface)) fuel :
  (length kvs + 2 <= fuel)%nat ->
  exists t s,
    runOps fuel (map (fun kv => OpPut (VInt (fst kv)) (snd kv)) kvs) NewTree
    = Ok t
    /\ searchTree isInt t s
    /\ redBlack t s
    /\ isRedBlack fuel t = true
    /\ forall i, In (VInt i) (keysInOrder t s) <-> In i (map fst kvs).
Proof.
  intros Hf.
  destruct (runOps_puts kvs NewTree E fuel eq_refl NewTree_searchTree
              NewTree_redBlack Hf)
    as (t & s & Hrun & Hst & Hrb & Hh & Hkeys).
  exists t, s. split_and!; try done.
  - destruct Hst as (? & _ & ?). by apply (isRedBlack_of t s).
  - intros i. rewrite Hkeys. simpl. rewrite !in_map_iff. split.
    + intros [[]|([j v] & [= <-] & Hin)]. by exists (j, v).
    + intros ([j v] & Hj & Hin). simpl in Hj. subst j. right.
      by exists (i, v).
Qed.

Lemma Puts_build_a_red_black_tree_witness :
  exists t s,
    runOps 10
      (map (fun kv => OpPut (VInt (fst kv)) (snd kv))
         [(3, Nil); (1, Nil); (2, Nil); (1, VInt 7)]) NewTree
    = Ok t
    /\ searchTree isInt t s
    /\ redBlack t s
    /\ isRedBlack 10 t = true
    /\ forall i, In (VInt i) (keysInOrder t s)
         <-> In i (map fst [(3, Nil); (1, Nil); (2, Nil); (1, VInt 7)]).
Proof.
  apply (Puts_build_a_red_black_tree
           [(3, Nil); (1, Nil); (2, Nil); (1, VInt 7)] 10).
  simpl. lia.
Defined.


(** ** The comparator for strings *)

Lemma ascii_compare_lt_trans a b c :
  Ascii.compare a b = Lt -> Ascii.compare b c = Lt -> Ascii.compare a c = Lt.
Proof.
  unfold Ascii.compare. rewrite !N.compare_lt_iff. lia.
Qed.

Lemma string_compare_lt_trans s1 : forall s2 s3,
  String.compare s1 s2 = Lt -> String.compare s2 s3 = Lt ->
  String.compare s1 s3 = Lt.
Proof.
  induction s1 as [|a s1 IH]; intros [|b s2] [|c s3]; simpl; try done.
  destruct (Ascii.compare a b) eqn:Hab; [|try done..].
  - apply Ascii.compare_eq_iff in Hab as ->.
    destruct (Ascii.compare b c) eqn:Hbc; [|done..]. apply IH.
  - destruct (Ascii.compare b c) eqn:Hbc; [|try done..].
    + apply Ascii.compare_eq_iff in Hbc as ->. by rewrite Hab.
    + by rewrite (ascii_compare_lt_trans _ _ _ Hab Hbc).
Qed.

(** X15: on the keys of type [string], [StringComparator] is a total
    order in the sense of the comparator contract, so that all that is
    proved of search trees holds of the trees of
    [NewTreeWith(StringComparator)] with string keys; and it panics as soon
    as one of its arguments is not a [string]. *)
Theorem StringComparator_is_a_total_order_on_strings :
  orders StringComparator isString
  /\ (forall a b, ~ (isString a /\ isString b) ->
                  StringComparator a b = Panic).
Proof.
  split; [split|].
  - intros a b [s1 ->] [s2 ->]. simpl. eauto.
  - intros a b [s1 ->] [s2 ->]. simpl. split.
    + intros [= H]. f_equal. apply String.compare_eq_iff.
      by destruct (String.compare s1 s2).
    + intros [= ->]. f_equal.
      assert (String.compare s2 s2 = Eq) as ->; [|done].
      assert (forall s, String.compare s s = Eq) as Hrefl; [|apply Hrefl].
      induction s as [|a s IH]; simpl; [done|].
      unfold Ascii.compare. by rewrite N.compare_refl.
  - intros a b z [s1 ->] [s2 ->]. simpl. intros [= <-].
    rewrite (String.compare_antisym s1 s2).
    eexists. split; [reflexivity|].
    destruct (String.compare s2 s1); reflexivity.
  - intros a b d z1 z2 [s1 ->] [s2 ->] [s3 ->]. simpl.
    intros [= <-] H1 [= <-] H2.
    assert (String.compare s1 s2 = Lt) as H12
      by (destruct (String.compare s1 s2); done).
    assert (String.compare s2 s3 = Lt) as H23
      by (destruct (String.compare s2 s3); done).
    rewrite (string_compare_lt_trans _ _ _ H12 H23). eauto with lia.
  - intros a b H. destruct a, b; simpl; try done.
    destruct H. split; eexists; reflexivity.
Qed.


(** ** Deletion *)

Lemma minCtx_plug L : forall C l R,
  plug (minCtx C l L R) (N (minOf l L) E (minRight l L R)) = plug C (N l L R).
Proof.
  induction L as [|l' L' IH R' _]; intros C l R; simpl; [done|].
  by rewrite IH.
Qed.

Lemma dropMin_plug L : forall C l R,
  plug (minCtx C l L R) (minRight l L R) = plug C (dropMin l L R).
Proof.
  induction L as [|l' L' IH R' _]; intros C l R; simpl; [done|].
  by rewrite IH.
Qed.

Lemma inorder_dropMin L : forall l R,
  inorder (N l L R) = minOf l L :: inorder (dropMin l L R).
Proof.
  induction L as [|l' L' IH R' _]; intros l R; [done|].
  change (inorder (N l (N l' L' R') R))
    with (inorder (N l' L' R') ++ l :: inorder R).
  by rewrite IH.
Qed.

Lemma minCtx_cases L : forall C l R,
  (L = E /\ minCtx C l L R = C)
  \/ (exists C' p S, minCtx C l L R = InL C' p S
        /\ In p (inorder (N l L R))).
Proof.
  induction L as [|l' L' IH R' _]; intros C l R; [by left|]. right.
  cbn [minCtx]. destruct (IH (InL C l R) l' R') as [[-> ->]|H].
  - exists C, l, R. split; [done|]. simpl. rewrite in_app_iff. simpl. auto.
  - destruct H as (C' & p & S & -> & Hp). exists C', p, S. split; [done|].
    change (inorder (N l (N l' L' R') R))
      with (inorder (N l' L' R') ++ l :: inorder R).
    rewrite in_app_iff. auto.
Qed.

Lemma getMinimum_spec t L : forall par l R fuel,
  rep t par (Some l) (N l L R) ->
  (height (N l L R) <= fuel)%nat ->
  getMinimum fuel t (Some l) = Ok (Some (minOf l L)).
Proof.
  induction L as [|l' L' IH R' _]; intros par l R fuel Hrep Hf;
    (destruct fuel as [|fuel]; [simpl in Hf; lia|]);
    destruct Hrep as (_ & n & Hn & _ & HL & HR); cbn [getMinimum deref];
    rewrite Hn; cbn [rbind].
  - simpl in HL. by rewrite HL.
  - pose proof (rep_rootOf _ _ _ _ HL) as HlL. simpl in HlL.
    rewrite HlL. rewrite HlL in HL. apply (IH _ _ _ _ HL).
    simpl in Hf |- *. lia.
Qed.

Lemma sameEntries_setSlot_any C v t : sameEntries t (setSlot C v t).
Proof.
  destruct C; [|by apply sameEntries_upd..].
  split; [done|]. intros l n Hn. exists n. auto.
Qed.

Lemma sameEntries_reparent p par t : sameEntries t (reparent p par t).
Proof.
  destruct p; [by apply sameEntries_upd|apply sameEntries_refl].
Qed.

(** [transplant u v] puts [v] in the place of [u]. *)
Lemma transplant_run t C u nu v :
  repCtx t C (Some u) ->
  nodes t !! u = Some nu ->
  parent nu = holeParent C ->
  ~ In u (ctxLocs C) ->
  (forall b, v = Some b -> is_Some (nodes t !! b)) ->
  transplant (Some u) v t
  = Ok (tt, reparent v (holeParent C) (setSlot C v t)).
Proof.
  intros HC Hu Hup Huc Hv.
  assert (holeParent C <> Some u) as Hhu
    by (intros H; by apply holeParent_in in H).
  unfold transplant. unfold_accessors.
  erewrite bind_slot_update; [|exact HC|exact Hu|exact Hup|exact Huc].
  assert (nodes (setSlot C v t) !! u = Some nu) as Hu'
    by (by rewrite lookup_setSlot_ne).
  destruct v as [b|]; [|done].
  rewrite (bind_getf _ _ _ _ _ Hu'), Hup.
  destruct (Hv b eq_refl) as [nb Hb].
  assert (is_Some (nodes (setSlot C (Some b) t) !! b)) as [nb' Hb'].
  { destruct C as [|C p S|C p S]; simpl; [eauto|..]; by apply is_Some_upd. }
  by rewrite (modify_upd _ _ _ _ Hb').
Qed.

Lemma colorOf_setSlot_any C v t p :
  colorOf (setSlot C v t) p = colorOf t p.
Proof.
  destruct p as [x|]; [|done]. destruct C as [|C q S|C q S]; [done|..];
    simpl; unfold upd; destruct (nodes t !! q) as [nq|] eqn:Hq; try done;
    simpl; (destruct (decide (x = q)) as [->|Hne];
            [rewrite lookup_insert_eq, Hq; done|by rewrite lookup_insert_ne]).
Qed.

Lemma colorOf_reparent q par t p :
  colorOf (reparent q par t) p = colorOf t p.
Proof.
  destruct p as [x|]; [|done]. destruct q as [b|]; [|done]. simpl.
  unfold upd. destruct (nodes t !! b) as [nb|] eqn:Hb; [|done]. simpl.
  destruct (decide (x = b)) as [->|Hne].
  - by rewrite lookup_insert_eq, Hb.
  - by rewrite lookup_insert_ne.
Qed.

Lemma colorOf_upd_keep t l f p :
  (forall n, color (f n) = color n) ->
  colorOf (upd l f t) p = colorOf t p.
Proof.
  intros Hf. destruct p as [x|]; [|done].
  unfold colorOf, upd. destruct (nodes t !! l) as [nl|] eqn:Hl; [|done].
  simpl. destruct (decide (x = l)) as [->|Hne].
  - by rewrite lookup_insert_eq, Hl, Hf.
  - by rewrite lookup_insert_ne.
Qed.

(** A subtree [X] that hangs below [z] takes the place of [z]. *)
Lemma splice_child t C z nz X :
  repCtx t C (Some z) ->
  nodes t !! z = Some nz ->
  parent nz = holeParent C ->
  rep t (Some z) (rootOf X) X ->
  NoDup (ctxBefore C ++ inorder X ++ ctxAfter C) ->
  ~ In z (ctxLocs C) ->
  transplant (Some z) (rootOf X) t
  = Ok (tt, reparent (rootOf X) (holeParent C) (setSlot C (rootOf X) t))
  /\ inTree (reparent (rootOf X) (holeParent C) (setSlot C (rootOf X) t)) C X.
Proof.
  intros HC Hz Hzp HX Hnd Hzc. split.
  - apply (transplant_run t C z nz); try done.
    intros b Hb. apply (rep_locs _ _ _ _ _ HX). by apply rootOf_in.
  - pose proof Hnd as Hnd'. nodup_atoms Hnd'. split; [|split].
    + apply repCtx_reparent_notin; [nda|].
      apply (repCtx_setSlot _ _ (Some z)); [|done].
      by apply NoDup_ctxLocs in Hnd.
    + apply (rep_reparent _ _ (Some z)); [done|].
      apply rep_setSlot_notin; [nda|done].
    + done.
Qed.

(** Prove the absence of duplicates from the facts [nodup_atoms]
    leaves. *)
Ltac nodup_goal :=
  repeat first
  [ rewrite NoDup_app_disj
  | rewrite NoDup_cons_notin
  | rewrite NoDup_nil_True
  | rewrite disj_app_l
  | rewrite disj_app_r
  | rewrite disj_cons_l
  | rewrite disj_cons_r
  | rewrite disj_nil_l
  | rewrite disj_nil_r
  | rewrite notin_app
  | rewrite notin_cons
  | rewrite notin_nil ];
  split_and?; try done.

Ltac frm :=
  repeat first
  [ apply rep_upd_notin; [nda|]
  | apply rep_setSlot_notin; [nda|]
  | apply rep_reparent_notin; [nda|] ];
  try eassumption.

Ltac frmC :=
  repeat first
  [ apply repCtx_upd_notin; [nda|]
  | apply repCtx_reparent_notin; [nda|] ];
  try eassumption.

(** The end of the two-children case of [Delete]: the node [y], whose
    right subtree is [R'] by now, takes the place of [z] and its left
    subtree [L], and its colour. *)
Lemma adopt_run {B} (k : unit -> M B) t C z nz y ny l L R' :
  repCtx t C (Some z) ->
  nodes t !! z = Some nz ->
  parent nz = holeParent C ->
  Left nz = Some l ->
  rootOf L = Some l ->
  rep t (Some z) (Some l) L ->
  nodes t !! y = Some ny ->
  Right ny = rootOf R' ->
  rep t (Some y) (rootOf R') R' ->
  NoDup (ctxBefore C ++ (inorder L ++ y :: inorder R')
         ++ ctxAfter C) ->
  ~ In z (ctxBefore C ++ (inorder L ++ y :: inorder R')
          ++ ctxAfter C) ->
  exists t',
    (transplant (Some z) (Some y) >>>
     let* zl := getLeft (Some z) in
     setLeft (Some y) zl >>>
     let* yl := getLeft (Some y) in
     setParent yl (Some y) >>>
     let* zc := getColor (Some z) in
     setColor (Some y) zc >>>
     k tt) t
    = k tt t'
    /\ inTree t' C (N y L R')
    /\ sameEntries t t'
    /\ forall p, colorOf t' (Some p)
                 = if decide (p = y) then color nz else colorOf t (Some p).
Proof.
  intros HC Hz Hzp Hzl HrL HL Hy Hyr HR Hnd Hzn.
  pose proof (rootOf_in _ _ HrL) as HlL.
  pose proof Hnd as Hnd'. simpl in Hnd'. nodup_atoms Hnd'.
  repeat (rewrite notin_app in Hzn || rewrite notin_cons in Hzn).
  destruct_and?.
  assert (~ In z (ctxLocs C)) as Hzc by (unfold ctxLocs; nda).
  assert (~ In y (ctxLocs C)) as Hyc by (unfold ctxLocs; nda).
  assert (~ In l (ctxLocs C)) as Hlc by (unfold ctxLocs; nda).
  assert (holeParent C <> Some z /\ holeParent C <> Some y
          /\ holeParent C <> Some l) as (Hhz & Hhy & Hhl).
  { split_and!; intros Hh; apply holeParent_in in Hh; done. }
  assert (z <> y /\ z <> l /\ y <> l) as (Hzy & Hzl' & Hyl).
  { split_and!; congruence. }
  destruct (rep_lookup _ _ _ _ HL) as (nl & Hl & _).
  set (u1 := upd y (withParent (holeParent C)) (setSlot C (Some y) t)).
  set (u2 := upd y (withLeft (Some l)) u1).
  set (u3 := upd l (withParent (Some y)) u2).
  set (u4 := upd y (withColor (color nz)) u3).
  exists u4. split_and!.
  - assert (forall b, Some y = Some b -> is_Some (nodes t !! b)) as Hyb
      by (intros b [= <-]; eauto).
    rewrite (bind_ok _ _ _ _ _
               (transplant_run t C z nz (Some y) HC Hz Hzp Hzc Hyb)).
    cbn [reparent]. fold u1. unfold_accessors.
    unfold u4, u3, u2, u1. do 6 stp. reflexivity.
  - split; [|split].
    + cbn [rootOf]. unfold u4, u3, u2, u1. frmC.
      apply (repCtx_setSlot _ _ (Some z)); [|done].
      by apply NoDup_ctxLocs in Hnd.
    + cbn [rootOf holeParent rep]. split; [done|].
      eexists. split; [unfold u4, u3, u2, u1; lk|]. fields.
      split; [done|]. split.
      * unfold u4. apply rep_upd_notin; [nda|].
        unfold u3.
        change (upd l (withParent (Some y)) u2)
          with (reparent (Some l) (Some y) u2).
        rewrite <- HrL. apply (rep_reparent _ _ (Some z)); [done|].
        rewrite HrL. unfold u2, u1. frm.
      * unfold u4, u3, u2, u1. frm.
    + done.
  - unfold u4, u3, u2, u1.
    repeat (eapply sameEntries_trans; [|by apply sameEntries_upd]).
    apply sameEntries_setSlot_any.
  - intros p. unfold u4, u3, u2, u1. destruct (decide (p = y)) as [->|Hne].
    + erewrite colorOf_lookup by lk. done.
    + rewrite colorOf_upd_ne by congruence.
      rewrite !colorOf_upd_keep by done.
      apply colorOf_setSlot_any.
Qed.

Lemma inTree_children t C z L R :
  inTree t C (N z L R) ->
  exists nz,
    nodes t !! z = Some nz /\ parent nz = holeParent C
    /\ Left nz = rootOf L /\ Right nz = rootOf R
    /\ rep t (Some z) (rootOf L) L /\ rep t (Some z) (rootOf R) R
    /\ repCtx t C (Some z).
Proof.
  intros (HC & Hrep & _). cbn [rootOf] in HC.
  destruct Hrep as (_ & nz & Hz & Hp & HL & HR).
  pose proof (rep_rootOf _ _ _ _ HL) as HlL.
  pose proof (rep_rootOf _ _ _ _ HR) as HrR.
  exists nz. rewrite HlL in HL. rewrite HrR in HR. done.
Qed.

Lemma NoDup_without_z (a l1 l2 b : list loc) z :
  NoDup (a ++ (l1 ++ z :: l2) ++ b) ->
  NoDup (a ++ (l1 ++ l2) ++ b) /\ ~ In z (a ++ (l1 ++ l2) ++ b).
Proof.
  intros H. nodup_atoms H. split.
  - rewrite !NoDup_app_disj, !disj_app_l, !disj_app_r. done.
  - rewrite !notin_app. done.
Qed.

(** The two-children case of [Delete], up to the fix-up. *)
Lemma delete_two_children t C z L r RL RR fuel :
  inTree t C (N z L (N r RL RR)) ->
  L <> E ->
  (height (N r RL RR) <= fuel)%nat ->
  exists t' ny,
    nodes t !! minOf r RL = Some ny
    /\ (let* y := read (fun t => getMinimum fuel t (Some r)) in
        let* yOriginalColor := getColor y in
        let* x := getRight y in
        let* yp := getParent y in
        (if ptr_eqb yp (Some z) then
           match x with
           | Some _ => setParent x y
           | None => ret tt
           end
         else
           let* yr := getRight y in
           transplant y yr >>>
           let* zr := getRight (Some z) in
           setRight y zr >>>
           let* yr := getRight y in
           setParent yr y) >>>
        transplant (Some z) y >>>
        let* zl := getLeft (Some z) in
        setLeft y zl >>>
        let* yl := getLeft y in
        setParent yl y >>>
        let* zc := getColor (Some z) in
        setColor y zc >>>
        ret (x, yOriginalColor)) t
       = Ok ((rootOf (minRight r RL RR), color ny), t')
    /\ inTree t' C (N (minOf r RL) L (dropMin r RL RR))
    /\ sameEntries t t'
    /\ forall p, colorOf t' (Some p)
                 = if decide (p = minOf r RL) then colorOf t (Some z)
                   else colorOf t (Some p).
Proof.
  intros Hin HL Hf.
  destruct L as [|l LL LR]; [done|]. clear HL.
  set (L := N l LL LR) in *.
  assert (rootOf L = Some l) as HrL by done.
  set (y := minOf r RL). set (X := minRight r RL RR).
  set (R' := dropMin r RL RR). set (Cy := minCtx (InR C z L) r RL RR).
  assert (inTree t Cy (N y E X)) as Hiny.
  { eapply inTree_refocus; [|exact Hin]. unfold Cy, y, X.
    by rewrite minCtx_plug. }
  destruct (inTree_node _ _ _ _ _ Hin) as (nz & Hz & Hzp & Hzl & Hzr).
  destruct (inTree_node _ _ _ _ _ Hiny) as (ny & Hy & Hyp & Hyl & Hyr).
  cbn [rootOf] in Hzl, Hzr, Hyl. fold L in Hzl.
  pose proof Hin as (HC & Hrepz & Hnd).
  assert (NoDup (ctxBefore C ++ (inorder L ++ y :: inorder R') ++ ctxAfter C)
          /\ ~ In z (ctxBefore C ++ (inorder L ++ y :: inorder R')
                     ++ ctxAfter C)) as [Hnd' Hzn].
  { apply NoDup_without_z. unfold y, R'. rewrite <- inorder_dropMin.
    exact Hnd. }
  pose proof Hnd' as Hat. nodup_atoms Hat.
  repeat (rewrite notin_app in Hzn || rewrite notin_cons in Hzn).
  destruct Hzn as (HzB & (HzL & Hzy & HzR') & HzA).
  assert (~ In z (ctxLocs C)) as Hzc
    by (unfold ctxLocs; rewrite notin_app; done).
  cbn [rep rootOf holeParent] in Hrepz.
  destruct Hrepz as (_ & nz' & Hz' & _ & HrepL & HrepR).
  assert (nz' = nz) as -> by congruence. rewrite Hzl in HrepL.
  rewrite Hzr in HrepR.
  assert (rep t (Some y) (rootOf X) X) as HrepX.
  { destruct Hiny as (_ & Hr & _). cbn [rep rootOf] in Hr.
    destruct Hr as (_ & ny' & Hy' & _ & _ & Hr).
    assert (ny' = ny) as -> by congruence. by rewrite Hyr in Hr. }
  assert (forall b, rootOf X = Some b -> is_Some (nodes t !! b)) as HXb.
  { intros b Hb. apply (rep_locs _ _ _ _ _ HrepX). by apply rootOf_in. }
  assert (forall b, rootOf X = Some b -> In b (inorder R')) as HXR'.
  { intros b Hb. apply rootOf_in in Hb. unfold R', X in *. clear -Hb.
    revert r RR Hb. induction RL as [|l' L' IH R1 _]; intros r RR Hb;
      [done|]. cbn [dropMin minRight] in *.
    change (In b (inorder (dropMin l' L' R1) ++ r :: inorder RR)).
    rewrite in_app_iff. left. by apply IH. }
  erewrite bind_read
    by (apply (getMinimum_spec t RL (Some z) r RR fuel HrepR Hf)).
  fold y. unfold_accessors.
  do 3 (erewrite bind_getf by exact Hy). rewrite Hyr, Hyp.
  destruct (minCtx_cases RL (InR C z L) r RR)
    as [[HRL HCy]|(C' & p & S & HCy & Hp)]; fold Cy in HCy.
  - (* the minimum is the right child of z *)
    rewrite HCy. cbn [holeParent]. rewrite ptr_eqb_refl.
    assert (R' = X) as HR'X by (unfold R', X; by rewrite HRL).
    rewrite bind_reparent by exact HXb.
    set (u := reparent (rootOf X) (Some y) t).
    assert (rootOf X <> Some z /\ rootOf X <> Some y) as [HXz HXy].
    { split; intros Hb; apply HXR' in Hb; nda. }
    destruct (adopt_run (fun _ => ret (rootOf X, color ny)) u C z nz y ny l
                L R')
      as (t' & Hrun & Hin' & Hse & Hcol); try done.
    + unfold u. apply repCtx_reparent_notin; [|done].
      intros b Hb. apply HXR' in Hb. unfold ctxLocs. nda.
    + unfold u. by rewrite lookup_reparent_ne.
    + unfold u. apply rep_reparent_notin; [|done].
      intros b Hb. apply HXR' in Hb. nda.
    + unfold u. by rewrite lookup_reparent_ne.
    + by rewrite HR'X.
    + rewrite HR'X. unfold u. apply (rep_reparent _ _ (Some y)); [|done].
      by rewrite <- HR'X.
    + rewrite !notin_app, notin_cons. done.
    + exists t', ny. split_and!; [done|exact Hrun|done| |].
      * eapply sameEntries_trans; [apply sameEntries_reparent|exact Hse].
      * intros q. rewrite Hcol. unfold u. rewrite !colorOf_reparent.
        by rewrite (colorOf_lookup _ _ _ Hz).
  - (* the minimum is further down *)
    assert (exists RL' , R' = N r RL' RR) as [RL' HR'N].
    { unfold R'. destruct RL as [|l' L' R1]; [|cbn [dropMin]; eauto].
      unfold Cy in HCy. simpl in HCy. done. }
    assert (rootOf R' = Some r) as HrR' by (by rewrite HR'N).
    pose proof (rootOf_in _ _ HrR') as HrIn.
    assert (In p (inorder R') /\ p <> y) as [HpR' Hpy].
    { assert (p <> y) as Hpy.
      { destruct Hiny as (_ & _ & Hndy). rewrite HCy in Hndy.
        simpl in Hndy. nodup_atoms Hndy. nda. }
      split; [|done]. unfold y, R' in *. rewrite inorder_dropMin in Hp.
      destruct Hp as [Hp|Hp]; [by destruct Hpy|done]. }
    rewrite HCy. cbn [holeParent]. rewrite ptr_eqb_ne by (intros [= ->]; nda).
    cbn iota. rewrite !bind_bind. erewrite bind_getf by exact Hy.
    rewrite Hyr, bind_bind.
    (* y is cut out *)
    destruct (splice_child t Cy y ny X) as [Hrun1 Hin1]; try done.
    { by destruct Hiny. }
    { destruct Hiny as (_ & _ & Hndy). simpl in Hndy. nodup_atoms Hndy.
      nodup_goal. }
    { destruct Hiny as (_ & _ & Hndy). simpl in Hndy. nodup_atoms Hndy.
      unfold ctxLocs. nodup_goal. }
    set (t1 := reparent (rootOf X) (holeParent Cy) (setSlot Cy (rootOf X) t))
      in *.
    rewrite (bind_ok _ _ _ _ _ Hrun1).
    assert (inTree t1 C (N z L R')) as Hin1'.
    { eapply inTree_refocus; [|exact Hin1]. unfold Cy, X, R'.
      by rewrite dropMin_plug. }
    destruct (inTree_children _ _ _ _ _ Hin1')
      as (nz1 & Hz1 & Hzp1 & Hzl1 & Hzr1 & HL1 & HR1 & HC1).
    rewrite HrL in Hzl1, HL1. rewrite HrR' in Hzr1.
    assert (rootOf X <> Some y) as HXy.
    { intros Hb. apply HXR' in Hb. nda. }
    assert (nodes t1 !! y = Some ny) as Hy1.
    { unfold t1. rewrite lookup_reparent_ne by done.
      rewrite lookup_setSlot_ne; [done|]. rewrite HCy. simpl. congruence. }
    assert (z <> r /\ y <> r /\ r <> l) as (Hzr' & Hyr' & Hrl).
    { split_and!; intros ->; nda. }
    rewrite bind_bind. erewrite bind_getf by exact Hz1. rewrite Hzr1.
    rewrite bind_bind. erewrite bind_modify by exact Hy1.
    set (u1 := upd y (withRight (Some r)) t1).
    rewrite bind_bind. erewrite bind_getf by (unfold u1; lk).
    cbn [Right withRight].
    pose proof HR1 as HR1'. rewrite HrR' in HR1'.
    destruct (rep_lookup _ _ _ _ HR1') as (nr & Hr1 & _).
    erewrite bind_modify by (unfold u1; lk).
    set (u2 := upd r (withParent (Some y)) u1).
    destruct (adopt_run (fun _ => ret (rootOf X, color ny)) u2 C z nz1 y
                (withRight (Some r) ny) l L R')
      as (t' & Hrun & Hin' & Hse & Hcol); try done.
    + unfold u2, u1. frmC.
    + unfold u2, u1. lk.
    + unfold u2, u1. frm.
    + unfold u2, u1. lk.
    + unfold u2.
      change (upd r (withParent (Some y)) u1)
        with (reparent (Some r) (Some y) u1).
      rewrite <- HrR'. apply (rep_reparent _ _ (Some z)); [done|].
      unfold u1. frm.
    + rewrite !notin_app, notin_cons. done.
    + exists t', ny. split_and!; [done|exact Hrun|done| |].
      * eapply sameEntries_trans; [|exact Hse]. unfold u2, u1, t1.
        repeat (eapply sameEntries_trans; [|by apply sameEntries_upd]).
        eapply sameEntries_trans; [|apply sameEntries_reparent].
        apply sameEntries_setSlot_any.
      * intros q. rewrite Hcol. unfold u2, u1, t1.
        rewrite !colorOf_upd_keep by done.
        rewrite !colorOf_reparent, !colorOf_setSlot_any.
        rewrite <- (colorOf_lookup _ _ _ Hz1). unfold t1.
        by rewrite colorOf_reparent, colorOf_setSlot_any.
Qed.

Lemma blackHeight_plug_sub t C : forall X,
  is_Some (blackHeight t (plug C X)) -> is_Some (blackHeight t X).
Proof.
  induction C as [|C IH p R|C IH p L]; intros X H; [done|..];
    apply IH in H as [h H]; apply blackHeight_node in H as (h0 & ? & ? & _);
    eauto.
Qed.

Lemma blackHeight_zero t X :
  blackHeight t X = Some O ->
  X = E \/ exists x, rootOf X = Some x /\ colorOf t (Some x) = RED.
Proof.
  destruct X as [|x A B]; [by left|]. intros H. right. exists x.
  split; [done|]. apply blackHeight_node in H as (h0 & _ & _ & H).
  by destruct (colorOf t (Some x)).
Qed.

(** The child that moves up is nil or red when the black height is
    defined. *)
Lemma splicedChild_red t z L R :
  is_Some (blackHeight t (N z L R)) ->
  splicedChild L R = E
  \/ exists x, rootOf (splicedChild L R) = Some x
       /\ colorOf t (Some x) = RED.
Proof.
  intros [h H]. apply blackHeight_node in H as (h0 & HL & HR & _).
  destruct L as [|l LL LR].
  - simpl in HL. injection HL as <-. by apply blackHeight_zero.
  - destruct R as [|r RL RR].
    + simpl in HR. injection HR as <-. by apply blackHeight_zero.
    + cbn [splicedChild]. clear HL. revert r RR h0 HR.
      induction RL as [|l' L' IH R1 _]; intros r RR h0 HR.
      * apply blackHeight_node in HR as (h1 & H1 & H2 & _).
        simpl in H1. injection H1 as <-. by apply blackHeight_zero.
      * apply blackHeight_node in HR as (h1 & H1 & _). cbn [minRight].
        by apply (IH l' R1 h1).
Qed.

(** The fix-up after a deletion, on a node that is the root or red: the
    loop ends at once, and the node is made black. *)
Lemma fixupDelete_red t x nx fuel :
  nodes t !! x = Some nx ->
  Root t = Some x \/ color nx = RED ->
  (1 <= fuel)%nat ->
  fixupDelete fuel (Some x) t = Ok (tt, upd x (withColor BLACK) t).
Proof.
  intros Hx Hc Hf. destruct fuel as [|fuel]; [lia|].
  unfold fixupDelete. cbn [fixupDelete_loop]. rewrite !bind_bind.
  rewrite bind_getRoot. destruct (decide (Root t = Some x)) as [Hr|Hr].
  - rewrite Hr, ptr_eqb_refl. rewrite bind_ret. unfold setColor.
    by rewrite (modify_upd _ _ _ _ Hx).
  - rewrite ptr_eqb_ne by congruence. destruct Hc as [?|Hc]; [done|].
    unfold getColor. rewrite bind_bind. erewrite bind_getf by exact Hx.
    rewrite Hc. rewrite bind_ret. unfold setColor.
    by rewrite (modify_upd _ _ _ _ Hx).
Qed.

Lemma inorder_removeRoot z L R :
  inorder (removeRoot (N z L R)) = inorder L ++ inorder R.
Proof.
  destruct L as [|l LL LR]; [done|]. destruct R as [|r RL RR].
  - simpl. by rewrite app_nil_r.
  - change (inorder (N l LL LR) ++ minOf r RL :: inorder (dropMin r RL RR)
            = inorder (N l LL LR) ++ inorder (N r RL RR)).
    by rewrite (inorder_dropMin RL r RR).
Qed.

(** The end of [Delete]: the fix-up runs when the node taken out was
    black, on a child that is nil or red. *)
Lemma delete_finish t1 C S' X yc fuel :
  inTree t1 C S' ->
  X = E \/ (exists x, rootOf X = Some x /\ colorOf t1 (Some x) = RED
                      /\ is_Some (nodes t1 !! x)) ->
  (1 <= fuel)%nat ->
  exists t',
    match yc with
    | BLACK => fixupDelete fuel (rootOf X)
    | RED => ret tt
    end t1 = Ok (tt, t')
    /\ inTree t' C S'
    /\ sameEntries t1 t'
    /\ forall p, colorOf t' (Some p)
                 = if bool_decide (rootOf X = Some p) && isBlack yc
                   then BLACK else colorOf t1 (Some p).
Proof.
  intros Hin HX Hf. destruct yc.
  - destruct HX as [->|(x & Hx & Hxc & [nx Hnx])].
    + exists t1. split_and!; [done|done|apply sameEntries_refl|].
      intros p. by rewrite bool_decide_eq_false_2.
    + exists (upd x (withColor BLACK) t1). rewrite Hx. split_and!.
      * apply (fixupDelete_red _ _ nx); [done| |done]. right.
        by rewrite (colorOf_lookup _ _ _ Hnx) in Hxc.
      * apply inTree_upd; [apply keepsLinks_withColor|done].
      * by apply sameEntries_upd.
      * intros p. rewrite colorOf_upd_color by eauto.
        rewrite andb_true_r. destruct (decide (p = x)) as [->|Hne].
        -- by rewrite bool_decide_eq_true_2.
        -- rewrite bool_decide_eq_false_2; [done|congruence].
  - exists t1. split_and!; [done|done|apply sameEntries_refl|].
    intros p. simpl. by rewrite andb_false_r.
Qed.

(** [Delete] of the key of the node [z]: what it returns, on a tree in
    which the black height is defined. *)
Lemma Delete_node t D s k fuel C z L R :
  orders (cmp t) D -> searchTree D t s ->
  is_Some (blackHeight t s) ->
  D k -> mustBeValidKey k = None ->
  locate t k Top s = (C, N z L R) ->
  (height s < fuel)%nat ->
  exists t',
    Delete fuel k t = Ok (tt, t')
    /\ inTree t' C (removeRoot (N z L R))
    /\ sameEntries t t'
    /\ forall p,
         colorOf t' (Some p)
         = if bool_decide (rootOf (splicedChild L R) = Some p)
               && isBlack (colorOf t (Some (splicedNode z L R)))
           then BLACK
           else if decide (p = splicedNode z L R) then colorOf t (Some z)
           else colorOf t (Some p).
Proof.
  intros Hord Hst Hbh Hk Hvalid Hloc Hf.
  pose proof Hst as (Hwf & Hdom & Hsorted).
  pose proof (locate_plug _ _ _ _ _ _ Hloc) as Hplug. simpl in Hplug.
  assert (inTree t C (N z L R)) as Hin
    by (apply wf_inTree; by rewrite Hplug).
  rewrite <- Hplug in Hbh. apply blackHeight_plug_sub in Hbh.
  pose proof (splicedChild_red t z L R Hbh) as Hred.
  destruct (inTree_children _ _ _ _ _ Hin)
    as (nz & Hz & Hzp & Hzl & Hzr & HL & HR & HC).
  pose proof Hin as (_ & _ & Hnd). simpl in Hnd.
  assert (~ In z (ctxLocs C)) as Hzc.
  { pose proof Hnd as Hat. nodup_atoms Hat. unfold ctxLocs. nodup_goal. }
  unfold Delete.
  erewrite bind_read
    by (rewrite (Has_spec t D Hord k s fuel) by done; by rewrite Hloc).
  cbn [isNode snd negb]. cbv iota.
  erewrite bind_read
    by (rewrite (getNode_spec t D Hord k s fuel) by done; by rewrite Hloc).
  cbn [isNode snd rootOf]. cbv iota. unfold_accessors.
  do 3 (erewrite bind_getf by exact Hz). rewrite Hzl, Hzr.
  assert (1 <= fuel)%nat as Hf1 by lia.
  destruct L as [|l LL LR]; [|destruct R as [|r RL RR]]; cbn [rootOf].
  - (* case (a): no left child *)
    destruct (splice_child t C z nz R) as [Hrun Hin1]; try done.
    { pose proof Hnd as Hat. nodup_atoms Hat. nodup_goal. }
    set (t1 := reparent (rootOf R) (holeParent C) (setSlot C (rootOf R) t))
      in *.
    rewrite bind_bind, (bind_ok _ _ _ _ _ Hrun), bind_ret. cbn [fst snd].
    destruct (delete_finish t1 C R R (color nz) fuel Hin1)
      as (t' & Hrun' & Hin' & Hse & Hcol); [|done|].
    { destruct Hred as [?|(x & Hx & Hxc)]; [by left|right].
      exists x. split_and!; [done|..].
      - unfold t1. by rewrite colorOf_reparent, colorOf_setSlot_any.
      - destruct Hin1 as (_ & Hr & _). cbn [splicedChild] in Hx.
        rewrite Hx in Hr.
        destruct (rep_lookup _ _ _ _ Hr) as (? & ? & _). eauto. }
    exists t'. split_and!; [done|done| |].
    + eapply sameEntries_trans; [|exact Hse]. unfold t1.
      eapply sameEntries_trans; [apply sameEntries_setSlot_any|].
      apply sameEntries_reparent.
    + intros p. rewrite Hcol. cbn [splicedChild splicedNode].
      rewrite (colorOf_lookup _ _ _ Hz). unfold t1.
      rewrite colorOf_reparent, colorOf_setSlot_any.
      destruct (decide (p = z)) as [->|]; [|done].
      by rewrite (colorOf_lookup _ _ _ Hz).
  - (* case (b): no right child *)
    destruct (splice_child t C z nz (N l LL LR)) as [Hrun Hin1]; try done.
    { pose proof Hnd as Hat. nodup_atoms Hat. nodup_goal. }
    set (t1 := reparent (rootOf (N l LL LR)) (holeParent C)
                 (setSlot C (rootOf (N l LL LR)) t))
      in *.
    change (Some l) with (rootOf (N l LL LR)).
    rewrite bind_bind, (bind_ok _ _ _ _ _ Hrun), bind_ret. cbn [fst snd].
    destruct (delete_finish t1 C (N l LL LR) (N l LL LR) (color nz) fuel
                Hin1)
      as (t' & Hrun' & Hin' & Hse & Hcol); [|done|].
    { destruct Hred as [?|(x & Hx & Hxc)]; [by left|right].
      exists x. split_and!; [done|..].
      - unfold t1. by rewrite colorOf_reparent, colorOf_setSlot_any.
      - destruct Hin1 as (_ & Hr & _). cbn [splicedChild] in Hx.
        rewrite Hx in Hr.
        destruct (rep_lookup _ _ _ _ Hr) as (? & ? & _). eauto. }
    exists t'. split_and!; [done|done| |].
    + eapply sameEntries_trans; [|exact Hse]. unfold t1.
      eapply sameEntries_trans; [apply sameEntries_setSlot_any|].
      apply sameEntries_reparent.
    + intros p. rewrite Hcol. cbn [splicedChild splicedNode].
      rewrite (colorOf_lookup _ _ _ Hz). unfold t1.
      rewrite colorOf_reparent, colorOf_setSlot_any.
      destruct (decide (p = z)) as [->|]; [|done].
      by rewrite (colorOf_lookup _ _ _ Hz).
  - (* cases (c) and (d): two children *)
    destruct (delete_two_children t C z (N l LL LR) r RL RR fuel Hin)
      as (t1 & ny & Hy & Hrun & Hin1 & Hse1 & Hcol1); [done| |].
    { pose proof (height_plug_ge C (N z (N l LL LR) (N r RL RR))) as Hh.
      rewrite Hplug in Hh. cbn [height] in Hh |- *. lia. }
    rewrite (bind_ok _ _ _ _ _ Hrun). cbn [fst snd].
    cbn [splicedChild splicedNode] in *.
    set (y := minOf r RL) in *. set (X := minRight r RL RR) in *.
    set (R' := dropMin r RL RR) in *.
    assert (forall b, rootOf X = Some b -> In b (inorder R')) as HXR'.
    { intros b Hb. apply rootOf_in in Hb. unfold R', X in *. clear -Hb.
      revert r RR Hb. induction RL as [|l' L' IH R1 _]; intros r RR Hb;
        [done|]. cbn [dropMin minRight] in *.
      change (In b (inorder (dropMin l' L' R1) ++ r :: inorder RR)).
      rewrite in_app_iff. left. by apply IH. }
    destruct (delete_finish t1 C (N y (N l LL LR) R') X (color ny) fuel Hin1)
      as (t' & Hrun' & Hin' & Hse & Hcol); [|done|].
    { destruct Hred as [?|(x & Hx & Hxc)]; [by left|right].
      exists x. pose proof (HXR' x Hx) as HxR'.
      pose proof Hin1 as (_ & _ & Hnd1). simpl in Hnd1.
      split_and!; [done|..].
      - rewrite Hcol1. rewrite decide_False; [done|].
        intros ->. nodup_atoms Hnd1. nda.
      - apply (inTree_locs _ _ _ _ Hin1). simpl.
        rewrite !in_app_iff. simpl. auto. }
    exists t'. split_and!; [done|done| |].
    + by eapply sameEntries_trans.
    + intros p. rewrite Hcol, Hcol1.
      by rewrite (colorOf_lookup _ _ _ Hy).
Qed.

Lemma sameEntries_cmp t t' : sameEntries t t' -> cmp t' = cmp t.
Proof. by intros [? _]. Qed.

(** [Delete] of a key that the tree holds, in terms of the mappings. *)
Lemma Delete_spec t D s k fuel :
  orders (cmp t) D -> searchTree D t s ->
  is_Some (blackHeight t s) ->
  D k -> mustBeValidKey k = None ->
  In k (keysInOrder t s) ->
  (height s < fuel)%nat ->
  exists t' s' es1 old es2,
    Delete fuel k t = Ok (tt, t')
    /\ searchTree D t' s'
    /\ orders (cmp t') D
    /\ entries t s = es1 ++ (k, old) :: es2
    /\ entries t' s' = es1 ++ es2.
Proof.
  intros Hord Hst Hbh Hk Hvalid Hin Hf.
  destruct (locate_cases t D Hord s Hst k Hk)
    as [(C & _ & Hno)|(C & z & L & R & Hloc & Hkz & Hs)]; [done|].
  destruct (Delete_node t D s k fuel C z L R Hord Hst Hbh Hk Hvalid Hloc Hf)
    as (t' & Hrun & Hin' & Hse & _).
  pose proof Hst as (Hwf & Hdom & Hsorted).
  assert (inTree t C (N z L R)) as Hin0
    by (apply wf_inTree; by rewrite <- Hs).
  set (s' := plug C (removeRoot (N z L R))).
  assert (inorder s = (ctxBefore C ++ inorder L) ++ z :: inorder R
                      ++ ctxAfter C) as Hio.
  { rewrite Hs, inorder_plug. simpl. by rewrite <- !app_assoc. }
  assert (inorder s' = (ctxBefore C ++ inorder L) ++ inorder R ++ ctxAfter C)
    as Hio'.
  { unfold s'. rewrite inorder_plug, inorder_removeRoot.
    by rewrite <- !app_assoc. }
  assert (forall x, In x (inorder s) ->
            (keyOf t' x, payloadOf t' x) = (keyOf t x, payloadOf t x))
    as Hsame.
  { intros x Hx. destruct Hwf as [Hrep _].
    destruct (rep_locs _ _ _ _ _ Hrep Hx) as [nx Hnx].
    by rewrite (sameEntries_keyOf _ _ _ _ Hse Hnx),
      (sameEntries_payloadOf _ _ _ _ Hse Hnx). }
  set (f := fun x => (keyOf t x, payloadOf t x)).
  assert (entries t s = map f (ctxBefore C ++ inorder L)
                        ++ (k, payloadOf t z) :: map f (inorder R
                                                        ++ ctxAfter C))
    as Hes.
  { unfold entries. rewrite Hio, map_app. simpl. by rewrite Hkz. }
  assert (entries t' s' = map f (ctxBefore C ++ inorder L)
                          ++ map f (inorder R ++ ctxAfter C)) as Hes'.
  { unfold entries. rewrite Hio', map_app. f_equal.
    - apply map_ext_in. intros x Hx. apply Hsame. rewrite Hio, in_app_iff.
      auto.
    - apply map_ext_in. intros x Hx. apply Hsame. rewrite Hio, in_app_iff.
      simpl. auto. }
  assert (cmp t' = cmp t) as Hcmp by by apply sameEntries_cmp.
  exists t', s', (map f (ctxBefore C ++ inorder L)), (payloadOf t z),
    (map f (inorder R ++ ctxAfter C)).
  split_and!; [done| |by rewrite Hcmp|done|done].
  split_and!.
  - by apply wf_inTree.
  - apply keysIn_keys. rewrite <- entries_keys, Hes', map_app.
    apply keysIn_keys in Hdom.
    rewrite <- entries_keys, Hes, map_app in Hdom. simpl in Hdom.
    apply Forall_app in Hdom as [H1 H2]. apply Forall_cons in H2 as [_ H2].
    by apply Forall_app.
  - unfold sortedKeys. rewrite <- entries_keys, Hes', map_app.
    rewrite (keyLt_cmp _ _ Hcmp). unfold sortedKeys in Hsorted.
    rewrite <- entries_keys, Hes, map_app in Hsorted. simpl in Hsorted.
    by apply (sorted_remove t) in Hsorted as [? _].
Qed.

Lemma key_once t D s k old es1 es2 :
  orders (cmp t) D -> searchTree D t s -> D k ->
  entries t s = es1 ++ (k, old) :: es2 ->
  ~ In k (map fst (es1 ++ es2)).
Proof.
  intros Hord (_ & Hdom & Hsorted) Hk Hes.
  unfold sortedKeys in Hsorted. apply keysIn_keys in Hdom.
  rewrite <- entries_keys, Hes, map_app in Hsorted, Hdom.
  simpl in Hsorted, Hdom.
  apply (sorted_remove t) in Hsorted as (_ & H1 & H2).
  rewrite map_app, in_app_iff. intros [Hin|Hin].
  - rewrite Forall_forall in H1. apply list_elem_of_In, H1 in Hin.
    by apply (keyLt_irrefl t D Hord k Hk).
  - rewrite Forall_forall in H2. apply list_elem_of_In, H2 in Hin.
    by apply (keyLt_irrefl t D Hord k Hk).
Qed.


(** ** Delete on search trees *)

Lemma tree1234_blackHeight : is_Some (blackHeight tree1234 shape1234).
Proof. vm_compute. eauto. Qed.

(** X16: on a search tree in which all paths from the root to a nil
    pointer have the same number of black nodes, [Delete] with a key that
    the tree holds returns, and takes that one mapping out: the tree is a
    search tree again, with the other mappings as they were and in the same
    order. *)
Theorem Delete_removes_the_mapping t D s k fuel :
  orders (cmp t) D -> searchTree D t s ->
  is_Some (blackHeight t s) ->
  D k -> mustBeValidKey k = None ->
  In k (keysInOrder t s) ->
  (height s < fuel)%nat ->
  exists t' s' es1 old es2,
    Delete fuel k t = Ok (tt, t')
    /\ searchTree D t' s'
    /\ entries t s = es1 ++ (k, old) :: es2
    /\ entries t' s' = es1 ++ es2.
Proof.
  intros Hord Hst Hbh Hk Hvalid Hin Hf.
  destruct (Delete_spec t D s k fuel Hord Hst Hbh Hk Hvalid Hin Hf)
    as (t' & s' & es1 & old & es2 & ? & ? & _ & ? & ?).
  by exists t', s', es1, old, es2.
Qed.

Lemma Delete_removes_the_mapping_witness :
  exists t' s' es1 old es2,
    Delete 10 (VInt 3) tree1234 = Ok (tt, t')
    /\ searchTree isInt t' s'
    /\ entries tree1234 shape1234 = es1 ++ (VInt 3, old) :: es2
    /\ entries t' s' = es1 ++ es2.
Proof.
  apply (Delete_removes_the_mapping tree1234 isInt shape1234 (VInt 3) 10).
  - exact tree1234_orders.
  - exact tree1234_searchTree.
  - exact tree1234_blackHeight.
  - by exists 3.
  - reflexivity.
  - rewrite tree1234_keys. simpl. auto.
  - simpl. lia.
Defined.

(** X17: under the same conditions, after [Delete] of a key that the tree
    holds, [Has] answers [false] for the key, [Get] returns [(false, nil)],
    and [Size] is one less than it was. *)
Theorem Delete_then_Has_Get_Size t D s k fuel :
  orders (cmp t) D -> searchTree D t s ->
  is_Some (blackHeight t s) ->
  D k -> mustBeValidKey k = None ->
  In k (keysInOrder t s) ->
  (length (inorder s) < fuel)%nat ->
  exists t',
    Delete fuel k t = Ok (tt, t')
    /\ Has fuel t' k = Ok false
    /\ Get fuel t' k = Ok (false, Nil)
    /\ Size fuel t = Ok (Z.of_nat (length (entries t s)) mod two64)
    /\ Size fuel t' = Ok (Z.of_nat (length (entries t s) - 1) mod two64).
Proof.
  intros Hord Hst Hbh Hk Hvalid Hin Hf.
  pose proof (height_le_size s) as Hh.
  destruct (Delete_spec t D s k fuel Hord Hst Hbh Hk Hvalid Hin ltac:(lia))
    as (t' & s' & es1 & old & es2 & Hrun & Hst' & Hord' & Hes & Hes').
  pose proof (key_once t D s k old es1 es2 Hord Hst Hk Hes) as Hno.
  assert (length (inorder s) = S (length (inorder s'))) as Hlen.
  { rewrite <- (entries_length t s), <- (entries_length t' s'), Hes, Hes'.
    rewrite !length_app. simpl. lia. }
  pose proof (height_le_size s') as Hh'.
  assert (~ In k (keysInOrder t' s')) as Hno'
    by (by rewrite <- entries_keys, Hes').
  exists t'. split_and!; [done|..].
  - apply (Has_absent t' D Hord' s' Hst' k Hk Hvalid); [done|lia].
  - apply (Get_absent t' D Hord' s' Hst' k Hk Hvalid); [done|lia].
  - apply Size_entries; [by destruct Hst|lia].
  - destruct Hst' as (Hwf' & _).
    rewrite (Size_entries t' s' fuel Hwf') by lia.
    rewrite !entries_length, Hlen. do 3 f_equal. lia.
Qed.

Lemma Delete_then_Has_Get_Size_witness :
  exists t',
    Delete 10 (VInt 3) tree1234 = Ok (tt, t')
    /\ Has 10 t' (VInt 3) = Ok false
    /\ Get 10 t' (VInt 3) = Ok (false, Nil)
    /\ Size 10 tree1234
       = Ok (Z.of_nat (length (entries tree1234 shape1234)) mod two64)
    /\ Size 10 t'
       = Ok (Z.of_nat (length (entries tree1234 shape1234) - 1) mod two64).
Proof.
  apply (Delete_then_Has_Get_Size tree1234 isInt shape1234 (VInt 3) 10).
  - exact tree1234_orders.
  - exact tree1234_searchTree.
  - exact tree1234_blackHeight.
  - by exists 3.
  - reflexivity.
  - rewrite tree1234_keys. simpl. auto.
  - simpl. lia.
Defined.

(** X18: under the same conditions, [Delete] leaves the other keys alone:
    for every key other than the one that is deleted, [Has] and [Get]
    answer after the [Delete] what they answered before it. *)
Theorem Delete_keeps_the_other_mappings t D s k k' fuel :
  orders (cmp t) D -> searchTree D t s ->
  is_Some (blackHeight t s) ->
  D k -> mustBeValidKey k = None ->
  In k (keysInOrder t s) ->
  D k' -> mustBeValidKey k' = None -> k' <> k ->
  (length (inorder s) < fuel)%nat ->
  exists t',
    Delete fuel k t = Ok (tt, t')
    /\ Has fuel t' k' = Has fuel t k'
    /\ Get fuel t' k' = Get fuel t k'.
Proof.
  intros Hord Hst Hbh Hk Hvalid Hin Hk' Hvalid' Hne Hf.
  pose proof (height_le_size s) as Hh.
  destruct (Delete_spec t D s k fuel Hord Hst Hbh Hk Hvalid Hin ltac:(lia))
    as (t' & s' & es1 & old & es2 & Hrun & Hst' & Hord' & Hes & Hes').
  assert (length (inorder s) = S (length (inorder s'))) as Hlen.
  { rewrite <- (entries_length t s), <- (entries_length t' s'), Hes, Hes'.
    rewrite !length_app. simpl. lia. }
  pose proof (height_le_size s') as Hh'.
  assert (forall v', In (k', v') (entries t s) <-> In (k', v') (entries t' s'))
    as Hsame.
  { intros v'. rewrite Hes, Hes', !in_app_iff. simpl.
    split; [intros [?|[?|?]]|intros [?|?]]; auto; congruence. }
  assert (In k' (keysInOrder t s) <-> In k' (keysInOrder t' s')) as Hkeys.
  { rewrite <- !entries_keys, !in_map_iff. split.
    - intros ([a b] & Ha & Hb). simpl in Ha. subst a.
      exists (k', b). split; [done|]. by apply Hsame.
    - intros ([a b] & Ha & Hb). simpl in Ha. subst a.
      exists (k', b). split; [done|]. by apply Hsame. }
  exists t'. split; [done|].
  destruct (locate_cases t D Hord s Hst k' Hk')
    as [(C & _ & Hno)|(C & l & L & R & _ & Hkl & Hs)].
  - rewrite (Has_absent t D Hord s Hst k' Hk' Hvalid') by (done || lia).
    rewrite (Get_absent t D Hord s Hst k' Hk' Hvalid') by (done || lia).
    rewrite (Has_absent t' D Hord' s' Hst' k' Hk' Hvalid');
      [|by rewrite <- Hkeys|lia].
    rewrite (Get_absent t' D Hord' s' Hst' k' Hk' Hvalid');
      [done|by rewrite <- Hkeys|lia].
  - assert (In (k', payloadOf t l) (entries t s)) as Hin'.
    { apply in_entries. exists l. split; [|done].
      rewrite Hs, inorder_plug. simpl. rewrite !in_app_iff. simpl. auto. }
    assert (In k' (keysInOrder t s)) as Hkin'.
    { rewrite <- entries_keys. apply in_map_iff.
      by exists (k', payloadOf t l). }
    rewrite (Has_present t D Hord s Hst k' Hk' Hvalid') by (done || lia).
    rewrite (Get_present t D Hord s Hst k' Hk' Hvalid' fuel (payloadOf t l))
      by (done || lia).
    rewrite (Has_present t' D Hord' s' Hst' k' Hk' Hvalid');
      [|by rewrite <- Hkeys|lia].
    rewrite (Get_present t' D Hord' s' Hst' k' Hk' Hvalid' fuel
               (payloadOf t l)); [done|by apply Hsame|lia].
Qed.

Lemma Delete_keeps_the_other_mappings_witness :
  exists t',
    Delete 10 (VInt 3) tree1234 = Ok (tt, t')
    /\ Has 10 t' (VInt 4) = Has 10 tree1234 (VInt 4)
    /\ Get 10 t' (VInt 4) = Get 10 tree1234 (VInt 4).
Proof.
  apply (Delete_keeps_the_other_mappings tree1234 isInt shape1234).
  - exact tree1234_orders.
  - exact tree1234_searchTree.
  - exact tree1234_blackHeight.
  - by exists 3.
  - reflexivity.
  - rewrite tree1234_keys. simpl. auto.
  - by exists 4.
  - reflexivity.
  - discriminate.
  - simpl. lia.
Defined.




(** ** Delete and the colour invariants *)

Lemma minRight_in_dropMin L : forall l R x,
  rootOf (minRight l L R) = Some x -> In x (inorder (dropMin l L R)).
Proof.
  induction L as [|l' L' IH R1 _]; intros l R x Hx.
  - by apply rootOf_in.
  - cbn [dropMin minRight] in *.
    change (In x (inorder (dropMin l' L' R1) ++ l :: inorder R)).
    rewrite in_app_iff. left. by apply IH.
Qed.

(** A subtree [X] of black height zero moves up into the place of its
    parent, whose colour was [c]; its root is made black when [c] is
    black. *)
Lemma child_rb t t' (c : Color) X h :
  NoDup (inorder X) ->
  blackHeight t X = Some O -> noRedRed t X = true ->
  h = (if isBlack c then 1 else 0)%nat ->
  (c = RED -> colorOf t (rootOf X) = BLACK) ->
  c = RED \/ X <> E ->
  (forall p, In p (inorder X) -> rootOf X <> Some p ->
             colorOf t' (Some p) = colorOf t (Some p)) ->
  (forall x, rootOf X = Some x -> c = BLACK -> colorOf t' (Some x) = BLACK) ->
  noRedRed t' X = true
  /\ blackHeight t' X = Some h
  /\ (c = BLACK -> colorOf t' (rootOf X) = BLACK).
Proof.
  intros Hnd Hb Hn -> Hred Hhyp Hsame Hx.
  destruct X as [|x XL XR].
  - destruct c; [destruct Hhyp; done|]. done.
  - apply blackHeight_node in Hb as (h0 & HbL & HbR & Hh).
    apply noRedRed_node in Hn as (_ & HnL & HnR).
    assert (colorOf t (Some x) = RED) as Hxc
      by (destruct (colorOf t (Some x)); [done|done]).
    rewrite Hxc in Hh. cbn [isBlack] in Hh. subst h0.
    destruct c; [|by specialize (Hred eq_refl); cbn [rootOf] in Hred;
                   congruence].
    simpl in Hnd. nodup_atoms Hnd.
    assert (forall p, In p (inorder XL) ->
              colorOf t' (Some p) = colorOf t (Some p)) as HL.
    { intros p Hp. apply Hsame.
      - simpl. rewrite in_app_iff. auto.
      - simpl. intros [= ->]. nda. }
    assert (forall p, In p (inorder XR) ->
              colorOf t' (Some p) = colorOf t (Some p)) as HR.
    { intros p Hp. apply Hsame.
      - simpl. rewrite in_app_iff. simpl. auto.
      - simpl. intros [= ->]. nda. }
    specialize (Hx x eq_refl eq_refl). split_and!.
    + apply noRedRed_node. rewrite Hx.
      by rewrite (noRedRed_ext _ _ _ HL), (noRedRed_ext _ _ _ HR).
    + apply blackHeight_node. exists O. rewrite Hx.
      by rewrite (blackHeight_ext _ _ _ HL), (blackHeight_ext _ _ _ HR).
    + done.
Qed.

(** The right subtree of the node that is deleted, once its leftmost node
    is taken out. *)
Lemma dropMin_rb t t' RL : forall r RR h,
  NoDup (inorder (N r RL RR)) ->
  noRedRed t (N r RL RR) = true ->
  blackHeight t (N r RL RR) = Some h ->
  colorOf t (Some (minOf r RL)) = RED \/ minRight r RL RR <> E ->
  (forall p, In p (inorder (dropMin r RL RR)) ->
             rootOf (minRight r RL RR) <> Some p ->
             colorOf t' (Some p) = colorOf t (Some p)) ->
  (forall x, rootOf (minRight r RL RR) = Some x ->
             colorOf t (Some (minOf r RL)) = BLACK ->
             colorOf t' (Some x) = BLACK) ->
  noRedRed t' (dropMin r RL RR) = true
  /\ blackHeight t' (dropMin r RL RR) = Some h
  /\ (colorOf t (Some r) = BLACK ->
      colorOf t' (rootOf (dropMin r RL RR)) = BLACK).
Proof.
  induction RL as [|l' L' IH R1 _]; intros r RR h Hnd Hn Hb Hhyp Hsame Hx.
  - cbn [dropMin minOf minRight] in *.
    apply blackHeight_node in Hb as (h0 & HbL & HbR & Hh).
    simpl in HbL. injection HbL as <-.
    apply noRedRed_node in Hn as (Hred & _ & HnR).
    simpl in Hnd. nodup_atoms Hnd.
    apply (child_rb t t' (colorOf t (Some r)) RR h); try done.
    intros Hc. by apply Hred.
  - cbn [dropMin minOf minRight] in *.
    apply blackHeight_node in Hb as (h0 & HbL & HbR & Hh).
    apply noRedRed_node in Hn as (Hred & HnL & HnR).
    change (NoDup (inorder (N l' L' R1) ++ r :: inorder RR)) in Hnd.
    pose proof Hnd as Hat. nodup_atoms Hat.
    assert (forall x, rootOf (minRight l' L' R1) = Some x ->
              In x (inorder (N l' L' R1))) as HxIn.
    { intros x Hxr. rewrite inorder_dropMin. right.
      by apply minRight_in_dropMin. }
    assert (forall p, In p (inorder (dropMin l' L' R1)) ->
              In p (inorder (N l' L' R1))) as Hsub.
    { intros p Hp. rewrite inorder_dropMin. by right. }
    destruct (IH l' R1 h0) as (Hn' & Hb' & Hroot'); try done.
    { intros p Hp Hne. apply Hsame; [|done].
      change (In p (inorder (dropMin l' L' R1) ++ r :: inorder RR)).
      rewrite in_app_iff. auto. }
    assert (colorOf t' (Some r) = colorOf t (Some r)) as Hr.
    { apply Hsame.
      - change (In r (inorder (dropMin l' L' R1) ++ r :: inorder RR)).
        rewrite in_app_iff. simpl. auto.
      - intros Hxr. apply HxIn in Hxr. nda. }
    assert (forall p, In p (inorder RR) ->
              colorOf t' (Some p) = colorOf t (Some p)) as HRR.
    { intros p Hp. apply Hsame.
      - change (In p (inorder (dropMin l' L' R1) ++ r :: inorder RR)).
        rewrite in_app_iff. simpl. auto.
      - intros Hxr. apply HxIn in Hxr. nda. }
    split_and!.
    + apply noRedRed_node. rewrite Hr, (noRedRed_ext _ _ _ HRR),
        (colorOf_rootOf_ext _ _ _ HRR). split_and!; [|done..].
      intros Hc. destruct (Hred Hc) as [Hl HR]. split; [|done].
      by apply Hroot'.
    + apply blackHeight_node. exists h0.
      by rewrite Hr, (blackHeight_ext _ _ _ HRR).
    + cbn [rootOf]. by rewrite Hr.
Qed.

Lemma splicedNode_in z L R : In (splicedNode z L R) (inorder (N z L R)).
Proof.
  destruct L as [|l LL LR]; [simpl; auto|].
  destruct R as [|r RL RR]; [simpl; rewrite in_app_iff; simpl; auto|].
  cbn [splicedNode].
  change (In (minOf r RL) (inorder (N l LL LR) ++ z :: inorder (N r RL RR))).
  rewrite (inorder_dropMin RL r RR), in_app_iff. simpl. auto.
Qed.

Lemma splicedChild_in z L R x :
  rootOf (splicedChild L R) = Some x -> In x (inorder (N z L R)).
Proof.
  destruct L as [|l LL LR].
  - intros Hx%rootOf_in. simpl. auto.
  - destruct R as [|r RL RR].
    + intros Hx%rootOf_in. cbn [splicedChild] in Hx.
      change (In x (inorder (N l LL LR) ++ z :: inorder E)).
      rewrite in_app_iff. auto.
    + intros Hx%minRight_in_dropMin.
      change (In x (inorder (N l LL LR) ++ z :: inorder (N r RL RR))).
      rewrite (inorder_dropMin RL r RR), in_app_iff. simpl. auto.
Qed.

Lemma rootOf_plug C : forall S1 S2,
  C <> Top -> rootOf (plug C S1) = rootOf (plug C S2).
Proof.
  induction C as [|C IH p R|C IH p L]; intros S1 S2 HC; [done|..];
    cbn [plug]; (destruct C; [done|apply IH; done..]).
Qed.

Lemma rootOf_plug_in C S0 :
  C <> Top -> exists r, rootOf (plug C S0) = Some r /\ In r (ctxLocs C).
Proof.
  revert S0. unfold ctxLocs.
  induction C as [|C IH p R|C IH p L]; intros S0 HC; [done|..]; cbn [plug].
  - destruct C as [|C' p' R'|C' p' L'].
    + exists p. simpl. auto.
    + destruct (IH (N p S0 R) ltac:(done)) as (r & Hr & Hin).
      exists r. split; [done|]. simpl in *. rewrite !in_app_iff in *.
      simpl. rewrite in_app_iff. tauto.
    + destruct (IH (N p S0 R) ltac:(done)) as (r & Hr & Hin).
      exists r. split; [done|]. simpl in *. rewrite !in_app_iff in *.
      simpl. rewrite !in_app_iff. simpl. tauto.
  - destruct C as [|C' p' R'|C' p' L'].
    + exists p. simpl. rewrite !in_app_iff. simpl. auto.
    + destruct (IH (N p L S0) ltac:(done)) as (r & Hr & Hin).
      exists r. split; [done|]. simpl in *. rewrite !in_app_iff in *.
      simpl. tauto.
    + destruct (IH (N p L S0) ltac:(done)) as (r & Hr & Hin).
      exists r. split; [done|]. simpl in *. rewrite !in_app_iff in *.
      simpl. tauto.
Qed.

(** What [Delete] leaves is a red-black tree again when the node it takes
    out is red or has a child. *)
Lemma Delete_node_rb t t' C z L R :
  NoDup (ctxBefore C ++ inorder (N z L R) ++ ctxAfter C) ->
  redBlack t (plug C (N z L R)) ->
  colorOf t (Some (splicedNode z L R)) = RED \/ splicedChild L R <> E ->
  (forall p,
     colorOf t' (Some p)
     = if bool_decide (rootOf (splicedChild L R) = Some p)
          && isBlack (colorOf t (Some (splicedNode z L R)))
       then BLACK
       else if decide (p = splicedNode z L R) then colorOf t (Some z)
       else colorOf t (Some p)) ->
  redBlack t' (plug C (removeRoot (N z L R))).
Proof.
  intros Hnd (Hroot & Hn & Hb) Hhyp Hcol.
  destruct (proj1 (plug_ok t C (N z L R)) (conj Hn Hb))
    as (h & Hbz & Hnz & Hrc & HCok).
  pose proof (splicedNode_in z L R) as HyIn.
  pose proof (splicedChild_in z L R) as HxIn.
  pose proof Hnd as Hat. nodup_atoms Hat.
  assert (forall p, In p (ctxLocs C) ->
            colorOf t' (Some p) = colorOf t (Some p)) as HCsame.
  { intros p Hp. rewrite Hcol. rewrite bool_decide_eq_false_2.
    - cbn [andb]. rewrite decide_False; [done|]. intros ->. nda.
    - intros Hx. apply HxIn in Hx. nda. }
  assert (noRedRed t' (removeRoot (N z L R)) = true
          /\ blackHeight t' (removeRoot (N z L R)) = Some h
          /\ (colorOf t (Some z) = BLACK ->
              colorOf t' (rootOf (removeRoot (N z L R))) = BLACK))
    as (Hn' & Hb' & Hr').
  { clear Hroot Hn Hb Hrc HCok HCsame.
    apply blackHeight_node in Hbz as (h0 & HbL & HbR & Hh).
    apply noRedRed_node in Hnz as (Hred & HnL & HnR).
    destruct L as [|l LL LR]; [|destruct R as [|r RL RR]].
    - (* no left child *)
      cbn [splicedNode splicedChild removeRoot] in *.
      simpl in HbL. injection HbL as <-. simpl in H0. nodup_atoms H0.
      apply (child_rb t t' (colorOf t (Some z)) R h); try done.
      + intros Hc. by apply Hred.
      + intros p Hp Hne. rewrite Hcol, bool_decide_eq_false_2 by done.
        cbn [andb]. rewrite decide_False; [done|]. intros ->. nda.
      + intros x Hx Hc. by rewrite Hcol, bool_decide_eq_true_2, Hc.
    - (* no right child *)
      cbn [splicedNode splicedChild removeRoot] in *.
      simpl in HbR. injection HbR as <-.
      change (NoDup (inorder (N l LL LR) ++ z :: inorder E)) in H0.
      nodup_atoms H0.
      apply (child_rb t t' (colorOf t (Some z)) (N l LL LR) h); try done.
      + intros Hc. by apply Hred.
      + intros p Hp Hne. rewrite Hcol, bool_decide_eq_false_2 by done.
        cbn [andb]. rewrite decide_False; [done|]. intros ->. nda.
      + intros x Hx Hc. by rewrite Hcol, bool_decide_eq_true_2, Hc.
    - (* two children *)
      cbn [splicedNode splicedChild removeRoot] in *.
      set (y := minOf r RL) in *. set (X := minRight r RL RR) in *.
      set (R' := dropMin r RL RR) in *. set (L := N l LL LR) in *.
      change (NoDup (inorder L ++ z :: inorder (N r RL RR))) in H0.
      rewrite (inorder_dropMin RL r RR) in H0. fold y R' in H0.
      pose proof H0 as Hat. nodup_atoms Hat.
      assert (forall x, rootOf X = Some x -> In x (inorder R')) as HXR'
        by (intros x Hx; by apply minRight_in_dropMin).
      destruct (dropMin_rb t t' RL r RR h0) as (HnR' & HbR' & HrR');
        try done.
      { rewrite (inorder_dropMin RL r RR). fold y R'. nodup_goal. }
      { fold X R'. intros p Hp Hne.
        rewrite Hcol, bool_decide_eq_false_2 by done.
        cbn [andb]. rewrite decide_False; [done|]. intros ->. nda. }
      { fold X y. intros x Hx Hc.
        by rewrite Hcol, bool_decide_eq_true_2, Hc. }
      fold R' in HnR', HbR', HrR'.
      assert (colorOf t' (Some y) = colorOf t (Some z)) as Hy.
      { rewrite Hcol, bool_decide_eq_false_2.
        - cbn [andb]. by rewrite decide_True.
        - intros Hx. apply HXR' in Hx. nda. }
      assert (forall p, In p (inorder L) ->
                colorOf t' (Some p) = colorOf t (Some p)) as HLsame.
      { intros p Hp. rewrite Hcol, bool_decide_eq_false_2.
        - cbn [andb]. rewrite decide_False; [done|]. intros ->. nda.
        - intros Hx. apply HXR' in Hx. nda. }
      split_and!.
      + apply noRedRed_node. rewrite Hy, (noRedRed_ext _ _ _ HLsame),
          (colorOf_rootOf_ext _ _ _ HLsame).
        split_and!; [|done..]. intros Hc. destruct (Hred Hc) as [Hl Hr].
        split; [done|]. by apply HrR'.
      + apply blackHeight_node. exists h0.
        by rewrite Hy, (blackHeight_ext _ _ _ HLsame).
      + intros Hc. cbn [rootOf]. by rewrite Hy. }
  assert (colorOf t' (holeParent C) = colorOf t (holeParent C)) as Hhp.
  { destruct (holeParent C) as [q|] eqn:Hq; [|done].
    apply HCsame. by apply holeParent_in. }
  split_and!.
  - assert (C = Top \/ C <> Top) as [->|HC] by (destruct C; auto).
    + apply Hr'. exact Hroot.
    + destruct (rootOf_plug_in C (N z L R) HC) as (r0 & Hr0 & Hin0).
      rewrite (rootOf_plug C _ (N z L R)) by done.
      rewrite Hr0, HCsame by done. by rewrite <- Hr0.
  - apply (plug_ok t' C). exists h. split_and!; [done|done| |].
    + rewrite Hhp. intros Hc. by apply Hr', Hrc.
    + by apply (okCtx_ext t).
  - apply (plug_ok t' C). exists h. split_and!; [done|done| |].
    + rewrite Hhp. intros Hc. by apply Hr', Hrc.
    + by apply (okCtx_ext t).
Qed.

Lemma wf_shape_unique t s1 s2 : wf t s1 -> wf t s2 -> s1 = s2.
Proof.
  intros [H1 _] [H2 _].
  eapply is_tree_fun; eapply rep_is_tree; eassumption.
Qed.

Lemma inTree_same_node t C1 C2 z L1 R1 L2 R2 :
  inTree t C1 (N z L1 R1) -> inTree t C2 (N z L2 R2) ->
  L1 = L2 /\ R1 = R2.
Proof.
  intros H1 H2.
  destruct (inTree_children _ _ _ _ _ H1)
    as (n1 & Hn1 & _ & Hl1 & Hr1 & HL1 & HR1 & _).
  destruct (inTree_children _ _ _ _ _ H2)
    as (n2 & Hn2 & _ & Hl2 & Hr2 & HL2 & HR2 & _).
  assert (n2 = n1) as -> by congruence.
  rewrite <- Hl1 in HL1. rewrite <- Hl2 in HL2.
  rewrite <- Hr1 in HR1. rewrite <- Hr2 in HR2. split.
  - eapply is_tree_fun; eapply rep_is_tree; eassumption.
  - eapply is_tree_fun; eapply rep_is_tree; eassumption.
Qed.

(** X20: [Delete] keeps the invariants of a red-black search tree
    whenever the node that it takes out of the tree (the node with the
    key where that node has at most one child, and otherwise the leftmost
    node of its right subtree) is red or has a child: then the tree after
    [Delete] is a search tree with a black root again, in which no red
    node has a red child and all paths from the root to a nil pointer have
    the same number of black nodes. *)
Theorem Delete_keeps_the_red_black_invariants t D s k fuel C z L R :
  orders (cmp t) D -> searchTree D t s -> redBlack t s ->
  D k -> mustBeValidKey k = None ->
  s = plug C (N z L R) -> keyOf t z = k ->
  colorOf t (Some (splicedNode z L R)) = RED \/ splicedChild L R <> E ->
  (height s < fuel)%nat ->
  exists t' s',
    Delete fuel k t = Ok (tt, t')
    /\ searchTree D t' s'
    /\ redBlack t' s'.
Proof.
  intros Hord Hst Hrb Hk Hvalid Hs Hkz Hhyp Hf.
  pose proof Hst as (Hwf & Hdom & Hsorted).
  assert (In z (inorder s)) as Hz.
  { rewrite Hs, inorder_plug. simpl. rewrite !in_app_iff. simpl. auto. }
  destruct (locate_finds t D Hord k s z Hk Hdom Hsorted Hz Hkz)
    as (C' & L' & R' & Hloc).
  pose proof (locate_plug _ _ _ _ _ _ Hloc) as Hplug. simpl in Hplug.
  assert (inTree t C (N z L R)) as Hin by (apply wf_inTree; by rewrite <- Hs).
  assert (inTree t C' (N z L' R')) as Hin'
    by (apply wf_inTree; by rewrite Hplug).
  destruct (inTree_same_node _ _ _ _ _ _ _ _ Hin Hin') as [<- <-].
  assert (is_Some (blackHeight t s)) as Hbh by (by destruct Hrb as (_ & _ & ?)).
  destruct (Delete_node t D s k fuel C' z L R Hord Hst Hbh Hk Hvalid Hloc Hf)
    as (t' & Hrun & Hin1 & Hse & Hcol).
  assert (In k (keysInOrder t s)) as Hkin
    by (apply in_keys; eauto).
  destruct (Delete_spec t D s k fuel Hord Hst Hbh Hk Hvalid Hkin Hf)
    as (t'' & s'' & es1 & old & es2 & Hrun' & Hst' & _).
  rewrite Hrun in Hrun'. injection Hrun' as <-.
  assert (s'' = plug C' (removeRoot (N z L R))) as ->.
  { apply (wf_shape_unique t'); [by destruct Hst'|by apply wf_inTree]. }
  exists t', (plug C' (removeRoot (N z L R))). split_and!; [done|done|].
  apply (Delete_node_rb t t' C' z L R); try done.
  - by destruct Hin' as (_ & _ & ?).
  - by rewrite Hplug.
Qed.

Lemma Delete_keeps_the_red_black_invariants_witness :
  exists t' s',
    Delete 10 (VInt 3) tree1234 = Ok (tt, t')
    /\ searchTree isInt t' s'
    /\ redBlack t' s'.
Proof.
  apply (Delete_keeps_the_red_black_invariants tree1234 isInt shape1234
           (VInt 3) 10 (InR Top 2%positive (N 1 E E)) 3%positive E (N 4 E E)).
  - exact tree1234_orders.
  - exact tree1234_searchTree.
  - exact tree1234_redBlack.
  - by exists 3.
  - reflexivity.
  - reflexivity.
  - vm_compute. reflexivity.
  - right. discriminate.
  - simpl. lia.
Defined.


(** ** A deletion that never returns *)

(** The loop of [fixupDelete] on a black node that is not the root and
    has no sibling: nothing changes, and the loop goes round for ever. *)
Lemma fixupDelete_loop_spins t x nx p np :
  nodes t !! x = Some nx -> color nx = BLACK -> Root t <> Some x ->
  parent nx = Some p -> nodes t !! p = Some np ->
  (Right np = Some x /\ Left np = None)
  \/ (Left np = Some x /\ Right np = None) ->
  forall fuel, fixupDelete_loop fuel (Some x) t = OutOfFuel.
Proof.
  intros Hx Hc Hr Hp Hnp Hsib fuel.
  induction fuel as [|fuel IH]; [done|].
  cbn [fixupDelete_loop]. rewrite bind_getRoot.
  rewrite ptr_eqb_ne by congruence. cbn iota. unfold_accessors.
  erewrite bind_getf by exact Hx. rewrite Hc. cbv iota.
  erewrite bind_getf by exact Hx. rewrite Hp.
  erewrite bind_getf by exact Hnp.
  destruct Hsib as [[Hr' Hl']|[Hl' Hr']]; rewrite Hr'.
  - rewrite ptr_eqb_refl. cbv iota.
    erewrite bind_getf by exact Hnp. rewrite Hl'.
    erewrite bind_read by reflexivity. cbv iota. rewrite bind_ret.
    exact IH.
  - rewrite ptr_eqb_ne by done. cbv iota.
    erewrite bind_getf by exact Hnp. rewrite Hl', ptr_eqb_refl. cbv iota.
    erewrite bind_getf by exact Hnp. rewrite Hr'.
    erewrite bind_read by reflexivity. cbv iota. rewrite bind_ret.
    exact IH.
Qed.

(** More fuel does not change an answer of the lookup. *)
Lemma internalLookup_mono fuel : forall fuel' t par this k dir,
  (fuel <= fuel')%nat ->
  internalLookup fuel t par this k dir <> OutOfFuel ->
  internalLookup fuel' t par this k dir
  = internalLookup fuel t par this k dir.
Proof.
  induction fuel as [|fuel IH]; intros fuel' t par this k dir Hf Hne;
    [done|]. destruct fuel' as [|fuel']; [lia|].
  cbn [internalLookup] in *. destruct this as [l|]; [|done].
  destruct (deref t (Some l)) as [n| |]; cbn [rbind] in *; [|done..].
  destruct (cmp t k (Key n)) as [c| |]; cbn [rbind] in *; [|done..].
  destruct (c =? 0); [done|]. destruct (c <? 0); [apply IH; [lia|done]|].
  destruct (c >? 0); [apply IH; [lia|done]|done].
Qed.

Lemma lookup_any_fuel t D s k C z L R fuel :
  orders (cmp t) D -> searchTree D t s ->
  D k -> mustBeValidKey k = None ->
  locate t k Top s = (C, N z L R) ->
  Has fuel t k = OutOfFuel
  \/ (Has fuel t k = Ok true /\ getNode fuel t k = Ok (true, Some z)).
Proof.
  intros Hord (Hwf & Hdom & Hsorted) Hk Hvalid Hloc.
  set (big := (S (height s) + fuel)%nat).
  pose proof (Has_spec t D Hord k s big Hwf Hdom Hk Hvalid ltac:(lia)) as HH.
  pose proof (getNode_spec t D Hord k s big Hwf Hdom Hk Hvalid ltac:(lia))
    as HG.
  rewrite Hloc in HH, HG. cbn [snd isNode rootOf] in HH, HG.
  assert (exists r, Root t = Some r) as [r Hr].
  { pose proof (locate_plug _ _ _ _ _ _ Hloc) as Hplug. simpl in Hplug.
    rewrite (wf_root _ _ Hwf), <- Hplug. clear. revert z L R.
    induction C; simpl; eauto. }
  unfold Has, getNode, GetParent in *. rewrite Hvalid, Hr in *.
  destruct (internalLookup fuel t None (Some r) k NODIR) as [res| |] eqn:Hlk.
  - right.
    rewrite (internalLookup_mono fuel big) in HH, HG
      by (lia || by rewrite Hlk). rewrite Hlk in HH, HG. done.
  - rewrite (internalLookup_mono fuel big) in HH
      by (lia || by rewrite Hlk). by rewrite Hlk in HH.
  - by left.
Qed.

Lemma bind_read_outOfFuel {A B} (f : Tree -> res A) (k : A -> M B) t :
  f t = OutOfFuel -> bind (read f) k t = OutOfFuel.
Proof. intros H. unfold bind, read. by rewrite H. Qed.

Lemma bind_outOfFuel {A B} (m : M A) (k : A -> M B) t :
  m t = OutOfFuel -> bind m k t = OutOfFuel.
Proof. intros H. unfold bind. by rewrite H. Qed.

(** X21: [Delete] never returns when the node with the key is black and
    has one child, a black one, and its parent has no other child: the
    child moves up, and the fix-up loop, which finds no sibling, goes round
    for ever without a change. *)
Theorem Delete_never_returns t D s k C C' p z L R x XL XR fuel :
  orders (cmp t) D -> searchTree D t s ->
  D k -> mustBeValidKey k = None ->
  s = plug C (N z L R) -> keyOf t z = k ->
  C = InL C' p E \/ C = InR C' p E ->
  (L = N x XL XR /\ R = E) \/ (L = E /\ R = N x XL XR) ->
  colorOf t (Some z) = BLACK -> colorOf t (Some x) = BLACK ->
  Delete fuel k t = OutOfFuel.
Proof.
  intros Hord Hst Hk Hvalid Hs Hkz HC HLR Hzc Hxc.
  pose proof Hst as (Hwf & Hdom & Hsorted).
  assert (In z (inorder s)) as Hz.
  { rewrite Hs, inorder_plug. simpl. rewrite !in_app_iff. simpl. auto. }
  destruct (locate_finds t D Hord k s z Hk Hdom Hsorted Hz Hkz)
    as (C0 & L0 & R0 & Hloc).
  destruct (lookup_any_fuel t D s k C0 z L0 R0 fuel Hord Hst Hk Hvalid Hloc)
    as [Hout|[Hhas Hget]].
  { unfold Delete. by apply bind_read_outOfFuel. }
  assert (inTree t C (N z L R)) as Hin by (apply wf_inTree; by rewrite <- Hs).
  destruct (inTree_children _ _ _ _ _ Hin)
    as (nz & Hnz & Hzp & Hzl & Hzr & HL & HR & HCr).
  pose proof Hin as (_ & _ & Hnd). simpl in Hnd.
  pose proof Hnd as Hat. nodup_atoms Hat.
  assert (~ In z (ctxLocs C)) as Hzn by (unfold ctxLocs; nodup_goal).
  rewrite (colorOf_lookup _ _ _ Hnz) in Hzc.
  set (X := N x XL XR).
  assert (rep t (Some z) (rootOf X) X
          /\ NoDup (ctxBefore C ++ inorder X ++ ctxAfter C)) as [HX HndX].
  { destruct HLR as [[-> ->]|[-> ->]]; (split; [done|]).
    - clear -Hnd. nodup_atoms Hnd. nodup_goal.
    - clear -Hnd. nodup_atoms Hnd. nodup_goal. }
  destruct (splice_child t C z nz X HCr Hnz Hzp HX HndX Hzn) as [Hrun Hin1].
  set (t1 := reparent (rootOf X) (holeParent C) (setSlot C (rootOf X) t))
    in *.
  assert (exists nx, nodes t1 !! x = Some nx /\ color nx = BLACK
                     /\ parent nx = Some p) as (nx & Hnx & Hnxc & Hnxp).
  { destruct (inTree_node _ _ _ _ _ Hin1) as (nx & Hnx & Hxp & _).
    exists nx. split_and!; [done| |by destruct HC as [-> | ->]].
    rewrite <- (colorOf_lookup _ _ _ Hnx). unfold t1.
    by rewrite colorOf_reparent, colorOf_setSlot_any. }
  assert (exists np, nodes t1 !! p = Some np
            /\ ((Right np = Some x /\ Left np = None)
                \/ (Left np = Some x /\ Right np = None)))
    as (np & Hnp & Hsib).
  { destruct Hin1 as (HC1 & _). cbn [rootOf X] in HC1.
    destruct HC as [-> | ->]; cbn [repCtx] in HC1;
      destruct HC1 as (np & Hnp & Hh & _ & Hsib & _); simpl in Hsib;
      exists np; (split; [done|]); auto. }
  assert (Root t1 <> Some x) as Hroot.
  { destruct Hin1 as (HC1 & _ & Hnd1).
    destruct (repCtx_root _ _ _ HC1) as (r0 & Hr0 & Hin0);
      [by destruct HC as [-> | ->]|].
    rewrite Hr0. intros [= ->]. unfold X in Hnd1. simpl in Hnd1.
    nodup_atoms Hnd1. nda. }
  assert (fixupDelete fuel (Some x) t1 = OutOfFuel) as Hspin.
  { unfold fixupDelete. apply bind_outOfFuel.
    by apply (fixupDelete_loop_spins t1 x nx p np). }
  unfold Delete. rewrite (bind_read _ _ _ _ Hhas). cbn [negb].
  rewrite (bind_read _ _ _ _ Hget). cbn [snd]. unfold_accessors.
  do 3 (erewrite bind_getf by exact Hnz). rewrite Hzc, Hzl, Hzr.
  destruct HLR as [[-> ->]|[-> ->]]; cbn [rootOf];
    change (Some x) with (rootOf X);
    rewrite bind_bind, (bind_ok _ _ _ _ _ Hrun), bind_ret; cbn [fst snd];
    exact Hspin.
Qed.

Lemma spinTree_cmp : cmp spinTree = IntComparator.
Proof. vm_compute. reflexivity. Qed.

Lemma spinTree_orders : orders (cmp spinTree) isInt.
Proof. rewrite spinTree_cmp. exact IntComparator_orders. Qed.

Lemma spinTree_keys :
  keysInOrder spinTree spinShape = [VInt 3; VInt 4; VInt 8; VInt 12].
Proof. vm_compute. reflexivity. Qed.

Lemma spinTree_searchTree : searchTree isInt spinTree spinShape.
Proof.
  split; [apply wfb_wf; vm_compute; reflexivity|]. split.
  - apply keysIn_keys. rewrite spinTree_keys.
    repeat constructor; eexists; reflexivity.
  - unfold sortedKeys. rewrite spinTree_keys.
    repeat constructor; apply keyLt_int; (exact spinTree_cmp || lia).
Qed.

Lemma Delete_never_returns_witness :
  runOps 100 spinOps NewTree = Ok spinTree
  /\ Delete 50 (VInt 8) spinTree = OutOfFuel.
Proof.
  split; [vm_compute; reflexivity|].
  apply (Delete_never_returns spinTree isInt spinShape (VInt 8)
           (InL Top 5%positive E) Top 5%positive 7%positive
           (N 3 E (N 4 E E)) E 3%positive E (N 4 E E) 50).
  - exact spinTree_orders.
  - exact spinTree_searchTree.
  - by exists 8.
  - reflexivity.
  - reflexivity.
  - vm_compute. reflexivity.
  - by left.
  - by left.
  - vm_compute. reflexivity.
  - vm_compute. reflexivity.
Defined.
